(** * Multilevel paging with aging page replacement: model and verification

    A shallow embedding of [pagetable.cpp], [replacement.cpp] and the
    driver loop of [main.cpp].

    Conventions of the embedding.
    - [unsigned int] values are integers in [0, 2^32); every arithmetic
      operation of the source that can leave the range is followed by
      [wrap32].  [int] values are integers in [-2^31, 2^31); [uint16_t]
      values are integers in [0, 2^16).
    - A computation of the source whose behaviour is undefined in C++ (a
      shift by at least the width of the type, an index outside an array, a
      read through a null pointer) yields [None]; all functions that can
      reach such a point return an [option].
    - A pointer that may be null is an [option]; the trie is an owned tree,
      every node reachable through exactly one slot, so a node is embedded
      in the slot that owns it.
    - A function that receives a pointer or reference to mutable state
      returns the state it leaves behind. *)

From Stdlib Require Import ZArith Lia Bool.
From stdpp Require Import base tactics option list numbers strings.

Local Open Scope Z_scope.

(** ** Machine integers *)

Definition wrap32 (z : Z) : Z := z mod 2 ^ 32.
Definition wrap16 (z : Z) : Z := z mod 2 ^ 16.

Definition UINT_MAX : Z := 4294967295.
Definition UINT16_MAX : Z := 65535.

(** Conversion of an [unsigned int] (or a [size_t] in range) to [int]. *)
Definition to_int (z : Z) : Z :=
  let u := wrap32 z in if u <? 2 ^ 31 then u else u - 2 ^ 32.

(** Conversion of an [int] to [unsigned int]. *)
Definition to_unsigned (z : Z) : Z := wrap32 z.

(** [x << n] and [x >> n] on [unsigned int]; undefined when the count is
    not smaller than the width. *)
Definition shl32 (x n : Z) : option Z :=
  if (0 <=? n) && (n <? 32) then Some (wrap32 (Z.shiftl x n)) else None.

Definition shr32 (x n : Z) : option Z :=
  if (0 <=? n) && (n <? 32) then Some (Z.shiftr x n) else None.

(** Array subscript with an integer index. *)
Definition at_index {A} (l : list A) (i : Z) : option A :=
  if i <? 0 then None else l !! Z.to_nat i.

(** ** pagetable.h *)

(** A terminal slot: [frameNumber] is an [int], negative when unmapped. *)
Record Map := mkMap {
  frameNumber : Z;
  valid : bool
}.

(** A trie node.  [nextLevelArray] and [mapArray] are null until first use;
    an allocated array is the list of its elements. *)
#[local] Unset Elimination Schemes.
Inductive Level := mkLevel {
  depth : Z;
  entryCount : Z;
  nextLevelArray : option (list (option Level));
  mapArray : option (list Map)
}.
#[local] Set Elimination Schemes.

Record PageTable := mkPageTable {
  levelCount : Z;
  levelBits : list Z;
  levelMask : list Z;
  levelShift : list Z;
  offsetBits : Z;
  offsetMask : Z;
  rootLevel : Level
}.

(** Assignments to single fields. *)
Definition set_rootLevel (pt : PageTable) (r : Level) : PageTable :=
  mkPageTable (levelCount pt) (levelBits pt) (levelMask pt) (levelShift pt)
              (offsetBits pt) (offsetMask pt) r.

Definition set_mapArray (lvl : Level) (a : list Map) : Level :=
  mkLevel (depth lvl) (entryCount lvl) (nextLevelArray lvl) (Some a).

Definition set_nextLevelArray (lvl : Level) (a : list (option Level)) : Level :=
  mkLevel (depth lvl) (entryCount lvl) (Some a) (mapArray lvl).

(** ** pagetable.cpp *)

Definition allocateLevel (depth entryCount : Z) : Level :=
  mkLevel depth entryCount None None.

(** First loop of [createPageTable]: copies [levelCount] widths out of the
    caller's array and sums them. *)
Fixpoint copyLevelBits (n : nat) (levelBitsArray : list Z) (sumBits : Z)
  : option (list Z * Z) :=
  match n with
  | O => Some ([], sumBits)
  | S n' =>
      match levelBitsArray with
      | [] => None
      | b :: rest =>
          '(bits, s) ← copyLevelBits n' rest (wrap32 (sumBits + b));
          Some (b :: bits, s)
      end
  end.

(** Body of the second loop: mask and shift of one level. *)
Definition levelMaskShift (accumulated bits : Z) : option (Z * Z) :=
  let hiBits := wrap32 (accumulated + bits) in
  let shift := wrap32 (32 - hiBits) in
  mask ← (if bits =? 32 then Some UINT_MAX
          else one ← shl32 1 bits; shl32 (wrap32 (one - 1)) shift);
  Some (mask, shift).

(** Second loop of [createPageTable], over [pt->levelBits]. *)
Fixpoint computeMasks (bits : list Z) (accumulated : Z)
  : option (list Z * list Z) :=
  match bits with
  | [] => Some ([], [])
  | b :: rest =>
      '(mask, shift) ← levelMaskShift accumulated b;
      '(masks, shifts) ← computeMasks rest (wrap32 (accumulated + b));
      Some (mask :: masks, shift :: shifts)
  end.

Definition createPageTable (levelCount : Z) (levelBitsArray : list Z)
  : option PageTable :=
  '(bits, sumBits) ← copyLevelBits (Z.to_nat levelCount) levelBitsArray 0;
  let offsetBits := wrap32 (32 - sumBits) in
  offsetMask ← (if offsetBits =? 32 then Some UINT_MAX
                else one ← shl32 1 offsetBits; Some (wrap32 (one - 1)));
  '(masks, shifts) ← computeMasks bits 0;
  bits0 ← bits !! 0%nat;
  rootEntries ← shl32 1 bits0;
  Some (mkPageTable levelCount bits masks shifts offsetBits offsetMask
                    (allocateLevel 0 rootEntries)).

Definition extractVPNFromVirtualAddress (virtualAddress mask shift : Z)
  : option Z :=
  shr32 (Z.land virtualAddress mask) shift.

(** The test [d == levelCount - 1] of the walks and of the counting
    functions, in [unsigned int]. *)
Definition isLeafDepth (pt : PageTable) (d : Z) : bool :=
  d =? wrap32 (levelCount pt - 1).

(** The loop of [searchMappedPfn] from depth [d] with [n] iterations left;
    the inner [option] is the returned pointer. *)
Fixpoint searchWalk (pt : PageTable) (virtualAddress : Z)
         (n : nat) (d : Z) (curr : Level) : option (option Map) :=
  match n with
  | O => Some None
  | S n' =>
      mask ← at_index (levelMask pt) d;
      shift ← at_index (levelShift pt) d;
      idx ← extractVPNFromVirtualAddress virtualAddress mask shift;
      if isLeafDepth pt d then
        match mapArray curr with
        | None => Some None
        | Some arr =>
            m ← at_index arr idx;
            if negb (valid m) || (frameNumber m <? 0) then Some None
            else Some (Some m)
        end
      else
        match nextLevelArray curr with
        | None => Some None
        | Some arr =>
            next ← at_index arr idx;
            match next with
            | None => Some None
            | Some child => searchWalk pt virtualAddress n' (d + 1) child
            end
        end
  end.

Definition searchMappedPfn (pageTable : PageTable) (virtualAddress : Z)
  : option (option Map * PageTable) :=
  m ← searchWalk pageTable virtualAddress (Z.to_nat (levelCount pageTable))
                 0 (rootLevel pageTable);
  Some (m, pageTable).

(** The loop of [insertMapForVpn2Pfn] from depth [d]; returns the node
    [curr] as the walk leaves it.  After the leaf iteration the source loop
    tests [d + 1 < levelCount], which fails, so the leaf case returns. *)
Fixpoint insertWalk (pt : PageTable) (virtualAddress frameNumber : Z)
         (n : nat) (d : Z) (curr : Level) : option Level :=
  match n with
  | O => Some curr
  | S n' =>
      mask ← at_index (levelMask pt) d;
      shift ← at_index (levelShift pt) d;
      idx ← extractVPNFromVirtualAddress virtualAddress mask shift;
      if isLeafDepth pt d then
        let arr :=
          match mapArray curr with
          | Some a => a
          | None => replicate (Z.to_nat (entryCount curr)) (mkMap (-1) false)
          end in
        _ ← at_index arr idx;
        Some (set_mapArray curr
                (<[Z.to_nat idx := mkMap frameNumber (0 <=? frameNumber)]> arr))
      else
        let arr :=
          match nextLevelArray curr with
          | Some a => a
          | None => replicate (Z.to_nat (entryCount curr)) None
          end in
        slot ← at_index arr idx;
        child ← match slot with
                | Some c => Some c
                | None =>
                    bits ← at_index (levelBits pt) (d + 1);
                    childEntries ← shl32 1 bits;
                    Some (allocateLevel (d + 1) childEntries)
                end;
        child' ← insertWalk pt virtualAddress frameNumber n' (d + 1) child;
        Some (set_nextLevelArray curr (<[Z.to_nat idx := Some child']> arr))
  end.

Definition insertMapForVpn2Pfn (pageTable : PageTable)
           (virtualAddress frameNumber : Z) : option PageTable :=
  root ← insertWalk pageTable virtualAddress frameNumber
                    (Z.to_nat (levelCount pageTable)) 0 (rootLevel pageTable);
  Some (set_rootLevel pageTable root).

Definition getFullVPN (pt : PageTable) (virtualAddress : Z) : option Z :=
  if offsetBits pt =? 32 then Some 0
  else shr32 virtualAddress (offsetBits pt).

Definition getOffsetFromVA (pt : PageTable) (virtualAddress : Z) : Z :=
  Z.land virtualAddress (offsetMask pt).

Definition composePhysicalAddress (pt : PageTable) (frameNumber offset : Z)
  : option Z :=
  hi ← shl32 (to_unsigned frameNumber) (offsetBits pt);
  Some (Z.lor hi offset).

(** First loop of the interior case of the counting functions: one unit per
    non-null child pointer among the first [n] slots. *)
Fixpoint countChildSlots (n : nat) (arr : list (option Level)) (sum : Z)
  : option Z :=
  match n with
  | O => Some sum
  | S n' =>
      match arr with
      | [] => None
      | slot :: rest =>
          countChildSlots n' rest
            (match slot with Some _ => wrap32 (sum + 1) | None => sum end)
      end
  end.

(** Loop of the leaf case of [countEntriesRecursive]: one unit per mapping
    that is valid and holds a non-negative frame. *)
Fixpoint countValidMaps (n : nat) (arr : list Map) (sum : Z) : option Z :=
  match n with
  | O => Some sum
  | S n' =>
      match arr with
      | [] => None
      | m :: rest =>
          countValidMaps n' rest
            (if valid m && (0 <=? frameNumber m) then wrap32 (sum + 1) else sum)
      end
  end.

(** Second loop of the interior case of the counting functions: adds the
    count of every child among the first [n] slots; a null child counts
    zero. *)
Definition sumOverChildren (count : Level -> option Z)
  : nat -> list (option Level) -> Z -> option Z :=
  fix children (n : nat) (l : list (option Level)) (sum : Z) {struct l}
    : option Z :=
    match n with
    | O => Some sum
    | S n' =>
        match l with
        | [] => None
        | slot :: rest =>
            c ← match slot with
                | None => Some 0
                | Some child => count child
                end;
            children n' rest (wrap32 (sum + c))
        end
    end.

(** The counting function of [pagetable.cpp]; nothing calls it. *)
Fixpoint countEntriesRecursive (pt : PageTable) (lvl : Level) {struct lvl}
  : option Z :=
  match lvl with
  | mkLevel depth entryCount nextLevelArray mapArray =>
      if isLeafDepth pt depth then
        match mapArray with
        | None => Some 0
        | Some arr => countValidMaps (Z.to_nat entryCount) arr 0
        end
      else
        match nextLevelArray with
        | None => Some 0
        | Some arr =>
            sum ← countChildSlots (Z.to_nat entryCount) arr 0;
            sumOverChildren (countEntriesRecursive pt)
                            (Z.to_nat entryCount) arr sum
        end
  end.

(** ** replacement.h *)

(** [info_frameNumber] is the field [frameNumber] of [LoadedPageInfo]; the
    plain name is taken by the field of [Map]. *)
Record LoadedPageInfo := mkLoadedPageInfo {
  fullVPN : Z;
  info_frameNumber : Z;
  ageBits : Z;
  lastAccessTime : Z;
  accessedThisInterval : bool
}.

Record ReplacementState := mkReplacementState {
  maxFrames : Z;
  bitstringInterval : Z;
  accessesSinceAging : Z;
  currentTime : Z;
  nextFreeFrame : Z;
  loaded : list LoadedPageInfo
}.

Definition set_loaded (rs : ReplacementState) (l : list LoadedPageInfo)
  : ReplacementState :=
  mkReplacementState (maxFrames rs) (bitstringInterval rs)
    (accessesSinceAging rs) (currentTime rs) (nextFreeFrame rs) l.

(** ** replacement.cpp *)

Definition initReplacementState (rs : ReplacementState)
           (maxFrames bitInterval : Z) : ReplacementState :=
  mkReplacementState maxFrames bitInterval 0 0 0 [].

(** Loop of [findLoadedVPN] from index [i]. *)
Fixpoint findLoadedFrom (l : list LoadedPageInfo) (vpn : Z) (i : Z) : Z :=
  match l with
  | [] => -1
  | e :: rest =>
      if fullVPN e =? vpn then to_int i else findLoadedFrom rest vpn (i + 1)
  end.

Definition findLoadedVPN (rs : ReplacementState) (vpn : Z) : Z :=
  findLoadedFrom (loaded rs) vpn 0.

(** Body of the loop of [performAgingUpdate]. *)
Definition ageEntry (entry : LoadedPageInfo) : LoadedPageInfo :=
  let shifted := wrap16 (Z.shiftr (ageBits entry) 1) in
  let aged :=
    if accessedThisInterval entry then wrap16 (Z.lor shifted (Z.shiftl 1 15))
    else shifted in
  mkLoadedPageInfo (fullVPN entry) (info_frameNumber entry) aged
                   (lastAccessTime entry) false.

Definition performAgingUpdate (rs : ReplacementState) : ReplacementState :=
  set_loaded rs (fmap ageEntry (loaded rs)).

Definition tickReplacementClock (rs : ReplacementState) : ReplacementState :=
  let time := wrap32 (currentTime rs + 1) in
  let since := wrap32 (accessesSinceAging rs + 1) in
  if bitstringInterval rs <=? since then
    let aged := performAgingUpdate rs in
    mkReplacementState (maxFrames rs) (bitstringInterval rs) 0 time
                       (nextFreeFrame rs) (loaded aged)
  else
    mkReplacementState (maxFrames rs) (bitstringInterval rs) since time
                       (nextFreeFrame rs) (loaded rs).

(** Loop of [noteFrameAccess]: the first matching entry is updated and the
    function returns. *)
Fixpoint noteFrameAccessIn (l : list LoadedPageInfo) (now vpn frame : Z)
  : list LoadedPageInfo :=
  match l with
  | [] => []
  | entry :: rest =>
      if (fullVPN entry =? vpn) && (info_frameNumber entry =? frame) then
        mkLoadedPageInfo (fullVPN entry) (info_frameNumber entry)
                         (ageBits entry) now true :: rest
      else entry :: noteFrameAccessIn rest now vpn frame
  end.

Definition noteFrameAccess (rs : ReplacementState) (vpn frameNumber : Z)
  : ReplacementState :=
  set_loaded rs (noteFrameAccessIn (loaded rs) (currentTime rs)
                                   vpn frameNumber).

(** Loop of [chooseVictimIndex] from index [i] with the running best. *)
Fixpoint chooseVictimFrom (l : list LoadedPageInfo) (i : Z)
         (bestAge bestLast bestIdx : Z) : Z :=
  match l with
  | [] => bestIdx
  | e :: rest =>
      if (ageBits e <? bestAge)
         || ((ageBits e =? bestAge) && (lastAccessTime e <? bestLast))
      then chooseVictimFrom rest (i + 1) (ageBits e) (lastAccessTime e)
                            (to_int i)
      else chooseVictimFrom rest (i + 1) bestAge bestLast bestIdx
  end.

Definition chooseVictimIndex (rs : ReplacementState) : Z :=
  match loaded rs with
  | [] => -1
  | _ => chooseVictimFrom (loaded rs) 0 UINT16_MAX UINT_MAX (-1)
  end.

(** The value returned by [ensureResidentPage] together with its four
    output parameters. *)
Record FaultResult := mkFaultResult {
  pfn : Z;
  didFault : bool;
  didEvict : bool;
  evictedVPN : Z;
  evictedAgeBits : Z
}.

Definition ensureResidentPage (pt : PageTable) (rs : ReplacementState)
           (virtualAddress vpn : Z)
  : option (FaultResult * PageTable * ReplacementState) :=
  let idx := findLoadedVPN rs vpn in
  if 0 <=? idx then
    e ← at_index (loaded rs) idx;
    Some (mkFaultResult (info_frameNumber e) false false 0 0, pt, rs)
  else if Z.of_nat (length (loaded rs)) <? maxFrames rs then
    let newPFN := to_int (nextFreeFrame rs) in
    pt' ← insertMapForVpn2Pfn pt virtualAddress newPFN;
    let info := mkLoadedPageInfo vpn newPFN (Z.shiftl 1 15)
                                 (currentTime rs) true in
    Some (mkFaultResult newPFN true false 0 0, pt',
          mkReplacementState (maxFrames rs) (bitstringInterval rs)
            (accessesSinceAging rs) (currentTime rs)
            (wrap32 (nextFreeFrame rs + 1)) (loaded rs ++ [info]))
  else
    let victimIdx := chooseVictimIndex rs in
    victim ← at_index (loaded rs) victimIdx;
    let reusedPFN := info_frameNumber victim in
    victimVA ← shl32 (fullVPN victim) (offsetBits pt);
    pt1 ← insertMapForVpn2Pfn pt victimVA (-1);
    let victim' := mkLoadedPageInfo vpn reusedPFN (Z.shiftl 1 15)
                                    (currentTime rs) true in
    pt2 ← insertMapForVpn2Pfn pt1 virtualAddress reusedPFN;
    Some (mkFaultResult reusedPFN true true (fullVPN victim)
                        (ageBits victim), pt2,
          set_loaded rs (<[Z.to_nat victimIdx := victim']> (loaded rs))).

(** ** main.cpp *)

Record Stats := mkStats {
  addressesProcessed : Z;
  hits : Z;
  misses : Z;
  evictions : Z
}.

Definition initStats (s : Stats) : Stats := mkStats 0 0 0 0.

(** The counting function whose result [main] passes to [log_summary]: an
    allocated terminal array counts with all its [entryCount] slots. *)
Fixpoint countEntriesRecursiveLocal (pt : PageTable) (lvl : Level)
         {struct lvl} : option Z :=
  match lvl with
  | mkLevel depth entryCount nextLevelArray mapArray =>
      if isLeafDepth pt depth then
        match mapArray with
        | None => Some 0
        | Some _ => Some entryCount
        end
      else
        match nextLevelArray with
        | None => Some 0
        | Some arr =>
            sum ← countChildSlots (Z.to_nat entryCount) arr 0;
            sumOverChildren (countEntriesRecursiveLocal pt)
                            (Z.to_nat entryCount) arr sum
        end
  end.

(** *** Command line and configuration checks

    A command line is given by its parsed pieces: the options in the order
    [getopt] yields them, each numeric argument being the [int] that [atoi]
    returns for its text; whether a trace path is present and whether
    [fopen] succeeds on it; the remaining arguments, again as [atoi] reads
    them. *)

Inductive CliOption :=
| OptN (value : Z)
| OptF (value : Z)
| OptB (value : Z)
| OptL (mode : string)
| OptOther.

Inductive TracePath := NoTracePath | TraceUnreadable | TraceOpened.

Inductive Fatal :=
| BadAccessLimit
| BadFrameCount
| BadInterval
| BadArgument
| MissingTraceFile
| UnableToOpen
| MissingLevelBits
| LevelTooSmall (level : Z)
| TooManyBits.

Record Options := mkOptions {
  limitN : Z;
  haveLimitN : bool;
  optMaxFrames : Z;
  optBitInterval : Z;
  logMode : string
}.

Definition defaultOptions : Options :=
  mkOptions 0 false UINT_MAX 10 "summary".

(** The [getopt] loop. *)
Fixpoint parseOptions (opts : list CliOption) (o : Options)
  : Fatal + Options :=
  match opts with
  | [] => inr o
  | OptN v :: rest =>
      let n := to_unsigned v in
      if n <? 1 then inl BadAccessLimit
      else parseOptions rest
             (mkOptions n true (optMaxFrames o) (optBitInterval o) (logMode o))
  | OptF v :: rest =>
      let f := to_unsigned v in
      if f <? 1 then inl BadFrameCount
      else parseOptions rest
             (mkOptions (limitN o) (haveLimitN o) f (optBitInterval o)
                        (logMode o))
  | OptB v :: rest =>
      let b := to_unsigned v in
      if b <? 1 then inl BadInterval
      else parseOptions rest
             (mkOptions (limitN o) (haveLimitN o) (optMaxFrames o) b
                        (logMode o))
  | OptL mode :: rest =>
      parseOptions rest
        (mkOptions (limitN o) (haveLimitN o) (optMaxFrames o)
                   (optBitInterval o) mode)
  | OptOther :: rest => inl BadArgument
  end.

(** The loop that collects the level widths into [tempBits[32]]; writing
    past the 32nd element is outside the array. *)
Fixpoint collectLevelBits (args : list Z) (tempBits : list Z)
         (levelCount sumBits : Z) : option (Fatal + (list Z * Z * Z)) :=
  match args with
  | [] => Some (inr (tempBits, levelCount, sumBits))
  | a :: rest =>
      let bits := to_unsigned a in
      if bits <? 1 then Some (inl (LevelTooSmall levelCount))
      else if 32 <=? levelCount then None
      else collectLevelBits rest (tempBits ++ [bits])
                            (wrap32 (levelCount + 1)) (wrap32 (sumBits + bits))
  end.

Record Config := mkConfig {
  cfgOptions : Options;
  cfgLevelCount : Z;
  cfgLevelBits : list Z
}.

(** Everything [main] checks before it calls [createPageTable]. *)
Definition checkConfiguration (opts : list CliOption) (trace : TracePath)
           (levelArgs : list Z) : option (Fatal + Config) :=
  match parseOptions opts defaultOptions with
  | inl e => Some (inl e)
  | inr o =>
      match trace with
      | NoTracePath => Some (inl MissingTraceFile)
      | TraceUnreadable => Some (inl UnableToOpen)
      | TraceOpened =>
          match levelArgs with
          | [] => Some (inl MissingLevelBits)
          | _ =>
              r ← collectLevelBits levelArgs [] 0 0;
              match r with
              | inl e => Some (inl e)
              | inr (tempBits, levelCount, sumBits) =>
                  if 28 <? sumBits then Some (inl TooManyBits)
                  else Some (inr (mkConfig o levelCount tempBits))
              end
          end
      end
  end.

(** *** One iteration of the main loop *)

Record Sim := mkSim {
  simTable : PageTable;
  simReplacement : ReplacementState;
  simStats : Stats
}.

(** What one iteration hands to the logging functions. *)
Record Access := mkAccess {
  accHit : bool;
  accFault : FaultResult;
  accOffset : Z;
  accPhysical : Z
}.

Definition processAddress (st : Sim) (va : Z) : option (Access * Sim) :=
  let stats := simStats st in
  let processed := wrap32 (addressesProcessed stats + 1) in
  let rs := tickReplacementClock (simReplacement st) in
  '(m, pt) ← searchMappedPfn (simTable st) va;
  vpn ← getFullVPN pt va;
  '(res, pt, rs, stats) ←
     match m with
     | Some m =>
         Some (mkFaultResult (frameNumber m) false false 0 0, pt, rs,
               mkStats processed (wrap32 (hits stats + 1)) (misses stats)
                       (evictions stats))
     | None =>
         '(res, pt, rs) ← ensureResidentPage pt rs va vpn;
         Some (res, pt, rs,
               mkStats processed (hits stats) (wrap32 (misses stats + 1))
                       (if didEvict res then wrap32 (evictions stats + 1)
                        else evictions stats))
     end;
  let rs := noteFrameAccess rs vpn (pfn res) in
  let offset := getOffsetFromVA pt va in
  pa ← composePhysicalAddress pt (pfn res) offset;
  Some (mkAccess (bool_decide (is_Some m)) res offset pa, mkSim pt rs stats).

(** The main loop over the addresses the trace reader delivers; it stops
    at the end of the trace or when the [-n] limit is reached. *)
Fixpoint processTrace (o : Options) (trace : list Z) (st : Sim)
  : option (list Access * Sim) :=
  match trace with
  | [] => Some ([], st)
  | va :: rest =>
      if haveLimitN o && (limitN o <=? addressesProcessed (simStats st))
      then Some ([], st)
      else
        '(a, st) ← processAddress st va;
        '(log, st) ← processTrace o rest st;
        Some (a :: log, st)
  end.

Definition initialSim (pt : PageTable) (o : Options) : Sim :=
  mkSim pt
        (initReplacementState (mkReplacementState 0 0 0 0 0 [])
                              (optMaxFrames o) (optBitInterval o))
        (initStats (mkStats 0 0 0 0)).

(** The arguments [main] passes to [log_summary]. *)
Record Summary := mkSummary {
  sumPageSize : Z;
  sumReplacements : Z;
  sumHits : Z;
  sumAddresses : Z;
  sumFramesAllocated : Z;
  sumEntries : Z
}.

Definition summarize (st : Sim) : option Summary :=
  let pt := simTable st in
  pageTableEntries ← countEntriesRecursiveLocal pt (rootLevel pt);
  pageSize ← shl32 1 (offsetBits pt);
  Some (mkSummary pageSize (evictions (simStats st)) (hits (simStats st))
                  (addressesProcessed (simStats st))
                  (nextFreeFrame (simReplacement st)) pageTableEntries).


(** *** The level indices of the [vpns_pfn] mode *)

(** The loop of the [vpns_pfn] logging mode of [main]: the index of the
    address at every level, from level [i] on with [n] levels left. *)
Fixpoint levelVPNsFrom (pt : PageTable) (va : Z) (n : nat) (i : Z)
  : option (list Z) :=
  match n with
  | O => Some []
  | S n' =>
      mask ← at_index (levelMask pt) i;
      shift ← at_index (levelShift pt) i;
      v ← extractVPNFromVirtualAddress va mask shift;
      rest ← levelVPNsFrom pt va n' (i + 1);
      Some (v :: rest)
  end.

Definition levelVPNs (pt : PageTable) (va : Z) : option (list Z) :=
  levelVPNsFrom pt va (Z.to_nat (levelCount pt)) 0.

(** *** Logging and the whole of [main]

    The logging functions are external; a call is recorded with the
    arguments it receives.  Messages on [stderr] are not recorded. *)





(** * Vocabulary of the specification *)

(** ** Address layout *)

(** Sum of a list of integers, without wrap-around. *)
Definition sumZ (l : list Z) : Z := foldr Z.add 0 l.

(** A configuration [createPageTable] is meant for: at least one level,
    positive widths, at most 32 bits in all. *)
Definition validLevels (bits : list Z) : Prop :=
  bits <> [] /\ Forall (fun b => 1 <= b) bits /\ sumZ bits <= 32.

#[global] Instance validLevels_dec bits : Decision (validLevels bits).
Proof. unfold validLevels. apply _. Defined.

(** The contiguous slice of [width] bits whose lowest bit is [shift]. *)
Definition slice (width shift : Z) : Z := (2 ^ width - 1) * 2 ^ shift.

(** Shifts and masks of the levels that follow [acc] consumed bits. *)
Fixpoint shiftsFrom (bits : list Z) (acc : Z) : list Z :=
  match bits with
  | [] => []
  | b :: rest => (32 - (acc + b)) :: shiftsFrom rest (acc + b)
  end.

Fixpoint masksFrom (bits : list Z) (acc : Z) : list Z :=
  match bits with
  | [] => []
  | b :: rest => slice b (32 - (acc + b)) :: masksFrom rest (acc + b)
  end.


(** The table of the level widths [bits] with the trie [root]. *)
Definition createdTable (bits : list Z) (root : Level) : PageTable :=
  mkPageTable (Z.of_nat (length bits)) bits (masksFrom bits 0)
              (shiftsFrom bits 0) (32 - sumZ bits)
              (slice (32 - sumZ bits) 0) root.

(** ** Tables in use *)

(** The layout fields of a table that [createPageTable] built, whatever
    its trie has become since. *)
Definition geometry (pt : PageTable) : Prop :=
  validLevels (levelBits pt) /\
  Forall (fun b => b < 32) (levelBits pt) /\
  pt = createdTable (levelBits pt) (rootLevel pt).

(** Position of the lowest bit of the slice of level [d]. *)
Definition shiftAt (pt : PageTable) (d : nat) : Z :=
  32 - sumZ (take (S d) (levelBits pt)).

(** The index the walks compute at level [d]. *)
Definition levelIndex (pt : PageTable) (va : Z) (d : nat) : Z :=
  (va / 2 ^ shiftAt pt d) mod 2 ^ default 0 (levelBits pt !! d).

(** Shape of a node with [n] levels from depth [d] downwards: its arrays,
    once allocated, have [entryCount] elements, which is two to the width
    of its level, and its children have the same shape one level down. *)
Fixpoint wf_level (pt : PageTable) (n d : nat) (lvl : Level) : Prop :=
  match n with
  | O => False
  | S n' =>
      depth lvl = Z.of_nat d /\
      (exists b, levelBits pt !! d = Some b /\ entryCount lvl = 2 ^ b) /\
      match mapArray lvl with
      | None => True
      | Some arr => length arr = Z.to_nat (entryCount lvl)
      end /\
      match nextLevelArray lvl with
      | None => True
      | Some arr =>
          length arr = Z.to_nat (entryCount lvl) /\
          Forall (fun slot => match slot with
                              | None => True
                              | Some c => wf_level pt n' (S d) c
                              end) arr
      end
  end.

(** A table with the layout of its widths and a well-shaped trie. *)
Definition wf_table (pt : PageTable) : Prop :=
  geometry pt /\ wf_level pt (length (levelBits pt)) 0 (rootLevel pt).

(** *** One iteration of the walks on a well-formed node *)

(** The arrays of a node as an insert sees them: allocated on demand. *)
Definition leafArray (lvl : Level) : list Map :=
  match mapArray lvl with
  | Some a => a
  | None => replicate (Z.to_nat (entryCount lvl)) (mkMap (-1) false)
  end.

Definition childArray (lvl : Level) : list (option Level) :=
  match nextLevelArray lvl with
  | Some a => a
  | None => replicate (Z.to_nat (entryCount lvl)) None
  end.

(** The child an insert descends into: the one in slot [idx], or a fresh
    node when the slot is null. *)
Definition childAt (pt : PageTable) (lvl : Level) (d : nat) (idx : Z) : Level :=
  match childArray lvl !! Z.to_nat idx with
  | Some (Some c) => c
  | _ => allocateLevel (Z.of_nat (S d)) (2 ^ default 0 (levelBits pt !! S d))
  end.

(** What a terminal slot yields to a lookup. *)
Definition readMap (m : Map) : option Map :=
  if negb (valid m) || (frameNumber m <? 0) then None else Some m.

(** ** Victim selection *)

(** [keyLt a l a' l']: the key (age [a], last access [l]) comes strictly
    before the key ([a'], [l']). *)
Definition keyLt (a l a' l' : Z) : Prop := a < a' \/ (a = a' /\ l < l').

(** The order of victim selection on records. *)
Definition entryLt (e e' : LoadedPageInfo) : Prop :=
  keyLt (ageBits e) (lastAccessTime e) (ageBits e') (lastAccessTime e').

(** ** Resident records *)

(** Page number and frame number of a record. *)
Definition residentKey (e : LoadedPageInfo) : Z * Z :=
  (fullVPN e, info_frameNumber e).

(** ** Page table and resident set *)

(** [mapped pt va f]: the page of [va] has a valid mapping to frame [f]. *)
Definition mapped (pt : PageTable) (va f : Z) : Prop :=
  exists m, searchMappedPfn pt va = Some (Some m, pt) /\ frameNumber m = f.

(** [resident l vpn f]: a record of [l] holds page [vpn] in frame [f]. *)
Definition resident (l : list LoadedPageInfo) (vpn f : Z) : Prop :=
  (vpn, f) ∈ fmap residentKey l.

(** The virtual page number of an address. *)
Definition pageOf (pt : PageTable) (va : Z) : Z := va / 2 ^ offsetBits pt.

(** *** Lists of resident keys *)

(** The resident set as the driver maintains it: the record in slot [i]
    holds frame [i], no page is held twice, pages are page numbers. *)
Definition residents_ok (off : Z) (K : list (Z * Z)) : Prop :=
  K.*2 = seqZ 0 (Z.of_nat (length K)) /\ NoDup K.*1 /\
  Forall (fun v => 0 <= v < 2 ^ (32 - off)) K.*1.

(** ** The invariant of the main loop *)

(** The resident set of a replacement state, in storage order. *)
Definition keys (rs : ReplacementState) : list (Z * Z) :=
  residentKey <$> loaded rs.

(** What holds between two iterations of the main loop, [t] being the
    number of addresses processed so far. *)
Record state_inv (t : Z) (pt : PageTable) (rs : ReplacementState) : Prop := {
  inv_table : wf_table pt;
  inv_off : 1 <= offsetBits pt;
  inv_max : 1 <= maxFrames rs;
  inv_budget : Z.of_nat (length (loaded rs)) <= maxFrames rs;
  inv_next : nextFreeFrame rs = Z.of_nat (length (loaded rs));
  inv_residents : residents_ok (offsetBits pt) (keys rs);
  inv_bounds :
    Forall (fun e => 0 <= ageBits e < 2 ^ 16 /\ 0 <= lastAccessTime e <= t)
           (loaded rs);
  inv_time : currentTime rs = t /\ 0 <= t <= UINT_MAX;
  inv_consistent :
    forall va f, 0 <= va < 2 ^ 32 ->
      mapped pt va f <-> resident (loaded rs) (pageOf pt va) f
}.

Definition sim_inv (t : Z) (st : Sim) : Prop :=
  state_inv t (simTable st) (simReplacement st).

(** ** Worked configuration: levels of 4, 8 and 8 bits *)

Definition exampleBits : list Z := [4; 8; 8].

(** The table [createPageTable] builds for these widths. *)
Definition exampleTable : PageTable :=
  createdTable exampleBits (allocateLevel 0 16).

(** A sequence of inserts, each given by its address and frame number. *)
Fixpoint insertAll (pt : PageTable) (ops : list (Z * Z)) : option PageTable :=
  match ops with
  | [] => Some pt
  | (va, f) :: rest => pt' ← insertMapForVpn2Pfn pt va f; insertAll pt' rest
  end.

(** ** Eviction *)

(** The example table once page 0 is mapped to frame 0, and the
    replacement state of the driver at that point with a budget of one
    frame. *)
Definition exampleTableAfter : PageTable :=
  default exampleTable (insertMapForVpn2Pfn exampleTable 0 0).

Definition exampleFullState : ReplacementState :=
  mkReplacementState 1 10 2 2 1 [mkLoadedPageInfo 0 0 32768 1 true].

(** ** Aging decay *)

(** [agedFrom e e']: record [e'] is record [e] after one decay. *)
Definition agedFrom (e e' : LoadedPageInfo) : Prop :=
  fullVPN e' = fullVPN e /\ info_frameNumber e' = info_frameNumber e /\
  lastAccessTime e' = lastAccessTime e /\ accessedThisInterval e' = false /\
  0 <= ageBits e' < 2 ^ 16 /\
  Z.testbit (ageBits e') 15 = accessedThisInterval e /\
  (forall k, 0 <= k < 15 ->
     Z.testbit (ageBits e') k = Z.testbit (ageBits e) (k + 1)) /\
  (accessedThisInterval e = false -> ageBits e' = Z.shiftr (ageBits e) 1).

(** A state one tick before the end of an interval of ten accesses. *)
Definition exampleAgingState : ReplacementState :=
  mkReplacementState 4 10 9 19 2
    [mkLoadedPageInfo 0 0 49152 12 false; mkLoadedPageInfo 1 1 32768 19 true].

(** ** Victim selection at the sentinel *)

(** A resident set whose only record has the greatest age and the greatest
    timestamp, the values the scan starts from. *)
Definition saturatedState : ReplacementState :=
  mkReplacementState 1 10 0 0 1
    [mkLoadedPageInfo 7 0 UINT16_MAX UINT_MAX true].

(** ** Configuration checks *)

(** The number [atoi] read for an option, if the option has one. *)
Definition optionValue (o : CliOption) : Z :=
  match o with
  | OptN v | OptF v | OptB v => v
  | OptL _ | OptOther => 0
  end.

(** An option that the [getopt] loop lets pass. *)
Definition optionAccepted (o : CliOption) : Prop :=
  match o with
  | OptN v | OptF v | OptB v => 1 <= v
  | OptL _ => True
  | OptOther => False
  end.

(** Outcomes of the checks. *)
Definition accepted (r : option (Fatal + Config)) : Prop :=
  exists c, r = Some (inr c).

Definition rejected (r : option (Fatal + Config)) : Prop :=
  exists e, r = Some (inl e).

(** ** The census of the trie *)

(** Contribution of a child slot to a count: one unit if it is not null,
    and what [g] finds in the child. *)
Definition slotUnit (slot : option Level) : Z :=
  match slot with Some _ => 1 | None => 0 end.

Definition slotCount (g : Level -> Z) (slot : option Level) : Z :=
  match slot with Some c => g c | None => 0 end.

(** The count the summary is meant to report, in unbounded integers: one
    unit per non-null child slot of every interior node, and [leafUnits]
    units per terminal node whose mapping array is allocated.  [n] is the
    number of levels from the node downwards. *)
Fixpoint census (leafUnits : Level -> Z) (n : nat) (lvl : Level) : Z :=
  match n with
  | O => 0
  | S n' =>
      match n' with
      | O => match mapArray lvl with Some _ => leafUnits lvl | None => 0 end
      | S _ =>
          match nextLevelArray lvl with
          | None => 0
          | Some arr =>
              sumZ (slotCount (fun c => 1 + census leafUnits n' c) <$> arr)
          end
      end
  end.

(** All interior nodes and the mapping array on the path of [va] exist. *)
Fixpoint pathAllocated (pt : PageTable) (va : Z) (n d : nat) (lvl : Level)
  : Prop :=
  match n with
  | O => False
  | S n' =>
      match n' with
      | O => is_Some (mapArray lvl)
      | S _ =>
          exists arr c, nextLevelArray lvl = Some arr /\
            arr !! Z.to_nat (levelIndex pt va d) = Some (Some c) /\
            pathAllocated pt va n' (S d) c
      end
  end.

(** Number of address bits consumed by the levels from [d] on. *)
Definition bitsFrom (pt : PageTable) (d : nat) : Z :=
  sumZ (drop d (levelBits pt)).

(** ** A run that reaches the sentinel *)

(** The driver with one frame and aging at every access ([-f 1 -b 1]) on
    the levels 4, 8 and 8. *)
Definition oneFrameOptions : Options := mkOptions 0 false 1 1 "summary".

(** The state after [n] accesses to address 0, for [n] at least 16: page
    0 is resident, its age has saturated, its timestamp is the clock. *)
Definition hotPageState (n : Z) : Sim :=
  mkSim exampleTableAfter
        (mkReplacementState 1 1 0 n 1
           [mkLoadedPageInfo 0 0 UINT16_MAX n true])
        (mkStats n (n - 1) 1 0).

(** ** Level indices *)

(** The number whose digits, most significant first, are [digits], the
    digit in position [i] being [widths !! i] bits wide. *)
Fixpoint concatBits (acc : Z) (digits widths : list Z) : Z :=
  match digits, widths with
  | v :: digits', b :: widths' => concatBits (acc * 2 ^ b + v) digits' widths'
  | _, _ => acc
  end.

(** ** The counters of a run *)

(** What the four counters of [main] satisfy between two iterations, [t]
    being the number of addresses processed so far. *)
Definition stats_inv (t : Z) (st : Sim) : Prop :=
  let s := simStats st in
  addressesProcessed s = t /\ hits s + misses s = t /\ 0 <= hits s /\
  0 <= evictions s <= misses s /\
  misses s - evictions s = Z.of_nat (length (loaded (simReplacement st))).

(** Number of accesses of a log that were hits, and that evicted. *)
Definition hitCount (log : list Access) : Z :=
  Z.of_nat (length (List.filter accHit log)).

Definition evictionCount (log : list Access) : Z :=
  Z.of_nat (length (List.filter (fun a => didEvict (accFault a)) log)).

(** The options [o] without the [-n] limit. *)
Definition withoutLimit (o : Options) : Options :=
  mkOptions (limitN o) false (optMaxFrames o) (optBitInterval o) (logMode o).

(** The distinct pages of a trace in the order of their first access,
    after the pages [seen]. *)
Fixpoint firstTouches (seen : list Z) (pages : list Z) : list Z :=
  match pages with
  | [] => seen
  | p :: rest =>
      if bool_decide (p ∈ seen) then firstTouches seen rest
      else firstTouches (seen ++ [p]) rest
  end.

(** ** Aging at every access *)

(** What the age of a record says when the aging update runs at every
    access and the record was last accessed [d] accesses before the one
    being processed: its highest set bit is bit [15 - d], and nothing is
    left of it after sixteen accesses. *)
Definition ageBand (d a : Z) : Prop :=
  (d < 16 -> 2 ^ (15 - d) <= a < 2 ^ (16 - d)) /\ (16 <= d -> a = 0).

(** A record after the access numbered [t]: it was accessed then and is
    flagged, or it was not and its age tells how long ago it was. *)
Definition recent (t : Z) (e : LoadedPageInfo) : Prop :=
  (lastAccessTime e = t /\ accessedThisInterval e = true /\
   0 <= ageBits e < 2 ^ 16) \/
  (lastAccessTime e < t /\ accessedThisInterval e = false /\
   ageBand (t - 1 - lastAccessTime e) (ageBits e)).

(** The same record once the tick of access [t + 1] has aged it. *)
Definition aged (t : Z) (e : LoadedPageInfo) : Prop :=
  lastAccessTime e <= t /\ accessedThisInterval e = false /\
  ageBand (t - lastAccessTime e) (ageBits e).

Definition lru_inv (t : Z) (rs : ReplacementState) : Prop :=
  bitstringInterval rs = 1 /\ accessesSinceAging rs = 0 /\
  NoDup (lastAccessTime <$> loaded rs) /\
  Forall (recent t) (loaded rs).

(** ** The census of valid mappings *)

(** One unit for a terminal slot that a lookup would return. *)
Definition validUnit (m : Map) : Z :=
  if valid m && (0 <=? frameNumber m) then 1 else 0.

(** Number of such slots in the mapping array of a terminal node. *)
Definition validUnits (lvl : Level) : Z :=
  match mapArray lvl with
  | Some arr => sumZ (validUnit <$> arr)
  | None => 0
  end.

(** Number of non-null child slots in the subtree of a node. *)
Definition interiorSlots (n : nat) (lvl : Level) : Z :=
  census (fun _ => 0) n lvl.

(** Number of valid mappings in the subtree of a node with [n] levels
    from the node downwards. *)
Fixpoint mappingCount (n : nat) (lvl : Level) : Z :=
  match n with
  | O => 0
  | S n' =>
      match n' with
      | O => validUnits lvl
      | S _ =>
          match nextLevelArray lvl with
          | None => 0
          | Some arr => sumZ (slotCount (mappingCount n') <$> arr)
          end
      end
  end.

(** One unit when a walk of [searchMappedPfn] ends on a mapping. *)
Definition found (r : option (option Map)) : Z :=
  match r with Some (Some _) => 1 | _ => 0 end.

(** Number of valid mappings of a table. *)
Definition mappingsOf (pt : PageTable) : Z :=
  mappingCount (length (levelBits pt)) (rootLevel pt).

(** ** Logging modes *)



(** * Verification *)

(** ** Machine arithmetic *)

Lemma pow2_32 : 2 ^ 32 = 4294967296.
Proof. reflexivity. Qed.

Lemma wrap32_small z : 0 <= z < 2 ^ 32 -> wrap32 z = z.
Proof. intros H. unfold wrap32. apply Z.mod_small. exact H. Qed.

Lemma pow2_pos n : 0 <= n -> 0 < 2 ^ n.
Proof. intros. apply Z.pow_pos_nonneg; lia. Qed.

Lemma pow2_le_mono a b : 0 <= a <= b -> 2 ^ a <= 2 ^ b.
Proof. intros. apply Z.pow_le_mono_r; lia. Qed.

Lemma pow2_lt_32 n : 0 <= n < 32 -> 0 < 2 ^ n < 2 ^ 32.
Proof.
  intros. split; [apply pow2_pos; lia|].
  apply Z.pow_lt_mono_r; lia.
Qed.

Lemma shl32_defined x n :
  0 <= n < 32 -> shl32 x n = Some (wrap32 (x * 2 ^ n)).
Proof.
  intros H. unfold shl32.
  destruct (Z.leb_spec 0 n); [|lia]. destruct (Z.ltb_spec n 32); [|lia].
  simpl. by rewrite Z.shiftl_mul_pow2 by lia.
Qed.

Lemma shl32_one n : 0 <= n < 32 -> shl32 1 n = Some (2 ^ n).
Proof.
  intros H. rewrite shl32_defined by done. f_equal.
  rewrite Z.mul_1_l. apply wrap32_small. pose proof (pow2_lt_32 n H). lia.
Qed.

Lemma shr32_defined x n : 0 <= n < 32 -> shr32 x n = Some (x / 2 ^ n).
Proof.
  intros H. unfold shr32.
  destruct (Z.leb_spec 0 n); [|lia]. destruct (Z.ltb_spec n 32); [|lia].
  simpl. by rewrite Z.shiftr_div_pow2 by lia.
Qed.

Lemma at_index_nat {A} (l : list A) (i : nat) :
  at_index l (Z.of_nat i) = l !! i.
Proof.
  unfold at_index. destruct (Z.ltb_spec (Z.of_nat i) 0); [lia|].
  by rewrite Nat2Z.id.
Qed.

Lemma at_index_lookup {A} (l : list A) i :
  0 <= i -> at_index l i = l !! Z.to_nat i.
Proof. intros. unfold at_index. destruct (Z.ltb_spec i 0); [lia|done]. Qed.

(** ** Address layout *)

Lemma sumZ_nonneg bits : Forall (fun b => 1 <= b) bits -> 0 <= sumZ bits.
Proof. induction 1; simpl; lia. Qed.

Lemma sumZ_app l k : sumZ (l ++ k) = sumZ l + sumZ k.
Proof. induction l; simpl; lia. Qed.

Lemma sumZ_take_le bits n :
  Forall (fun b => 1 <= b) bits -> sumZ (take n bits) <= sumZ bits.
Proof.
  intros H. rewrite <- (take_drop n bits) at 2. rewrite sumZ_app.
  assert (0 <= sumZ (drop n bits)); [|lia].
  apply sumZ_nonneg. by apply Forall_drop.
Qed.

Lemma copyLevelBits_all bits s :
  copyLevelBits (length bits) bits s = Some (bits, wrap32 (s + sumZ bits)) \/
  copyLevelBits (length bits) bits s = Some (bits, s) /\ bits = [].
Proof.
  revert s. induction bits as [|b bits IH]; intros s; simpl.
  - by right.
  - left. destruct (IH (wrap32 (s + b))) as [->|[-> ->]]; simpl.
    + do 2 f_equal. unfold wrap32. rewrite Zplus_mod_idemp_l. f_equal. lia.
    + do 2 f_equal. by rewrite Z.add_0_r.
Qed.

Lemma copyLevelBits_valid bits :
  validLevels bits ->
  copyLevelBits (length bits) bits 0 = Some (bits, sumZ bits).
Proof.
  intros (Hne & Hpos & Hsum).
  destruct (copyLevelBits_all bits 0) as [->|[_ ?]]; [|done].
  do 2 f_equal. apply wrap32_small. pose proof (sumZ_nonneg _ Hpos).
  rewrite pow2_32. lia.
Qed.

Lemma levelMaskShift_valid acc b :
  0 <= acc -> 1 <= b -> acc + b <= 32 ->
  levelMaskShift acc b = Some (slice b (32 - (acc + b)), 32 - (acc + b)).
Proof.
  intros Hacc Hb Hle. unfold levelMaskShift.
  rewrite (wrap32_small (acc + b)) by (rewrite pow2_32; lia).
  rewrite (wrap32_small (32 - _)) by (rewrite pow2_32; lia).
  destruct (Z.eqb_spec b 32) as [->|Hne]; simpl.
  - replace acc with 0 by lia. reflexivity.
  - rewrite shl32_one by lia. simpl.
    pose proof (pow2_lt_32 b ltac:(lia)).
    rewrite wrap32_small by lia.
    rewrite shl32_defined by lia. simpl. do 2 f_equal.
    apply wrap32_small. unfold slice.
    assert (2 ^ b * 2 ^ (32 - (acc + b)) <= 2 ^ 32).
    { rewrite <- Z.pow_add_r by lia. apply pow2_le_mono. lia. }
    pose proof (pow2_pos (32 - (acc + b)) ltac:(lia)). nia.
Qed.

Lemma computeMasks_valid bits acc :
  0 <= acc -> Forall (fun b => 1 <= b) bits -> acc + sumZ bits <= 32 ->
  computeMasks bits acc = Some (masksFrom bits acc, shiftsFrom bits acc).
Proof.
  intros Hacc Hpos. revert acc Hacc.
  induction Hpos as [|b bits Hb Hpos IH]; intros acc Hacc Hle; simpl in *.
  - done.
  - pose proof (sumZ_nonneg _ Hpos).
    rewrite levelMaskShift_valid by lia. simpl.
    rewrite (wrap32_small (acc + b)) by (rewrite pow2_32; lia).
    rewrite IH by lia. done.
Qed.

Lemma slice_shiftl b s : 0 <= b -> 0 <= s -> slice b s = Z.shiftl (Z.ones b) s.
Proof.
  intros. unfold slice. rewrite Z.shiftl_mul_pow2 by lia.
  rewrite Z.ones_equiv. f_equal; lia.
Qed.


Lemma extract_slice va b s :
  0 <= va -> 0 <= b -> 0 <= s < 32 ->
  extractVPNFromVirtualAddress va (slice b s) s = Some ((va / 2 ^ s) mod 2 ^ b).
Proof.
  intros Hva Hb Hs. unfold extractVPNFromVirtualAddress.
  rewrite shr32_defined by lia. f_equal.
  rewrite <- Z.shiftr_div_pow2 by lia.
  rewrite slice_shiftl by lia. rewrite Z.shiftr_land.
  rewrite Z.shiftr_shiftl_l by lia. rewrite Z.sub_diag, Z.shiftl_0_r.
  rewrite Z.land_ones by lia. by rewrite Z.shiftr_div_pow2 by lia.
Qed.



Lemma shiftsFrom_lookup bits acc i b :
  bits !! i = Some b ->
  shiftsFrom bits acc !! i = Some (32 - (acc + sumZ (take (S i) bits))) /\
  masksFrom bits acc !! i = Some (slice b (32 - (acc + sumZ (take (S i) bits)))).
Proof.
  revert acc i. induction bits as [|b0 bits IH]; intros acc i Hi; [done|].
  destruct i as [|i]; simpl in *.
  - inversion Hi; subst. destruct bits; simpl; by rewrite Z.add_0_r.
  - destruct (IH (acc + b0) i Hi) as [-> ->].
    replace (acc + b0 + sumZ (take (S i) bits))
      with (acc + (b0 + sumZ (take (S i) bits))) by lia.
    done.
Qed.

Lemma validLevels_head bits :
  validLevels bits -> exists b0, bits !! 0%nat = Some b0 /\ 1 <= b0 <= 32.
Proof.
  intros (Hne & Hpos & Hsum). destruct bits as [|b0 bits]; [done|].
  exists b0. split; [done|]. inversion Hpos; subst.
  pose proof (sumZ_nonneg bits ltac:(done)). simpl in Hsum. lia.
Qed.

(** Construction succeeds on every valid configuration whose first level
    is narrower than the address. *)
Lemma createPageTable_valid bits b0 :
  validLevels bits -> bits !! 0%nat = Some b0 -> b0 < 32 ->
  createPageTable (Z.of_nat (length bits)) bits =
  Some (createdTable bits (allocateLevel 0 (2 ^ b0))).
Proof.
  intros Hv Hb0 Hlt. pose proof Hv as (Hne & Hpos & Hsum).
  destruct (validLevels_head _ Hv) as (b0' & Hb0' & Hr).
  assert (b0' = b0) as -> by congruence.
  assert (1 <= sumZ bits).
  { destruct bits as [|x bits]; [done|]. inversion Hpos; subst.
    pose proof (sumZ_nonneg bits ltac:(done)). simpl. lia. }
  unfold createPageTable. rewrite Nat2Z.id, copyLevelBits_valid by done.
  simpl. rewrite (wrap32_small (32 - _)) by (rewrite pow2_32; lia).
  destruct (Z.eqb_spec (32 - sumZ bits) 32); [lia|].
  rewrite shl32_one by lia. simpl.
  pose proof (pow2_lt_32 (32 - sumZ bits) ltac:(lia)).
  rewrite wrap32_small by lia.
  rewrite computeMasks_valid by (done || lia). simpl.
  rewrite Hb0. simpl. rewrite shl32_one by lia. simpl.
  unfold createdTable, slice. do 2 f_equal. change (2 ^ 0) with 1. lia.
Qed.


(** ** Tables in use *)

Lemma geometry_fields pt :
  geometry pt ->
  levelCount pt = Z.of_nat (length (levelBits pt)) /\
  levelMask pt = masksFrom (levelBits pt) 0 /\
  levelShift pt = shiftsFrom (levelBits pt) 0 /\
  offsetBits pt = 32 - sumZ (levelBits pt) /\
  offsetMask pt = slice (32 - sumZ (levelBits pt)) 0.
Proof.
  intros (_ & _ & Heq). destruct pt; simpl in *.
  injection Heq as -> -> -> -> ->. done.
Qed.

Lemma geometry_count pt :
  geometry pt ->
  levelCount pt = Z.of_nat (length (levelBits pt)) /\
  (1 <= length (levelBits pt) <= 32)%nat.
Proof.
  intros Hg. pose proof (geometry_fields _ Hg) as (Hc & _).
  destruct Hg as ((Hne & Hpos & Hsum) & _ & Heq). split; [done|].
  - split; [destruct (levelBits pt); [done|simpl; lia]|].
    assert (Z.of_nat (length (levelBits pt)) <= sumZ (levelBits pt)); [|lia].
    clear -Hpos. induction Hpos; simpl length; simpl sumZ; lia.
Qed.

Lemma geometry_offset pt :
  geometry pt ->
  offsetBits pt = 32 - sumZ (levelBits pt) /\ 0 <= offsetBits pt < 32.
Proof.
  intros Hg. pose proof (geometry_fields _ Hg) as (_ & _ & _ & Ho & _).
  destruct Hg as ((Hne & Hpos & Hsum) & _ & Heq). split; [done|].
  rewrite Ho. destruct (levelBits pt) as [|b l]; [done|].
  inversion Hpos; subst. pose proof (sumZ_nonneg l ltac:(done)).
  simpl in *. lia.
Qed.

Lemma geometry_shift pt d b :
  geometry pt -> levelBits pt !! d = Some b ->
  1 <= b < 32 /\ offsetBits pt <= shiftAt pt d /\ shiftAt pt d + b <= 32 /\
  shiftAt pt d + b = 32 - sumZ (take d (levelBits pt)).
Proof.
  intros Hg Hb. pose proof (geometry_offset _ Hg) as [Hoff _].
  destruct Hg as ((Hne & Hpos & Hsum) & Hlt & Heq).
  pose proof (Forall_lookup_1 _ _ _ _ Hpos Hb).
  pose proof (Forall_lookup_1 _ _ _ _ Hlt Hb).
  pose proof (sumZ_take_le _ (S d) Hpos).
  unfold shiftAt. rewrite (take_S_r _ _ _ Hb), sumZ_app. simpl.
  pose proof (sumZ_nonneg (take d (levelBits pt)) ltac:(by apply Forall_take)).
  rewrite (take_S_r _ _ _ Hb), sumZ_app in H1. simpl in *.
  lia.
Qed.

Lemma geometry_leaf pt d :
  geometry pt -> (d < length (levelBits pt))%nat ->
  isLeafDepth pt (Z.of_nat d) = bool_decide (S d = length (levelBits pt)).
Proof.
  intros Hg Hd. destruct (geometry_count _ Hg) as [Hc Hr].
  unfold isLeafDepth. rewrite Hc.
  rewrite wrap32_small by (rewrite pow2_32; lia).
  case_bool_decide; [apply Z.eqb_eq|apply Z.eqb_neq]; lia.
Qed.

(** What the three reads at the head of a loop iteration yield. *)
Lemma walk_step pt va d b :
  geometry pt -> 0 <= va -> levelBits pt !! d = Some b ->
  at_index (levelMask pt) (Z.of_nat d) = Some (slice b (shiftAt pt d)) /\
  at_index (levelShift pt) (Z.of_nat d) = Some (shiftAt pt d) /\
  extractVPNFromVirtualAddress va (slice b (shiftAt pt d)) (shiftAt pt d)
    = Some (levelIndex pt va d) /\
  0 <= levelIndex pt va d < 2 ^ b.
Proof.
  intros Hg Hva Hb. pose proof (geometry_shift _ _ _ Hg Hb) as (? & ? & ? & ?).
  pose proof (geometry_offset _ Hg) as [_ ?].
  destruct (shiftsFrom_lookup _ 0 _ _ Hb) as [Hs Hm].
  rewrite Z.add_0_l in Hs, Hm. fold (shiftAt pt d) in Hs, Hm.
  rewrite !at_index_nat.
  pose proof (geometry_fields _ Hg) as (_ & -> & -> & _).
  rewrite Hs, Hm. unfold levelIndex. rewrite Hb. simpl.
  rewrite extract_slice by lia. repeat split; try done.
  - apply Z.mod_pos_bound, pow2_pos; lia.
  - apply Z.mod_pos_bound, pow2_pos; lia.
Qed.

Lemma geometry_set_root pt r : geometry pt -> geometry (set_rootLevel pt r).
Proof.
  intros (Hv & Hlt & Heq). repeat split; try apply Hv; try done.
  rewrite Heq at 1. done.
Qed.

Lemma wf_level_set_root pt r n d lvl :
  wf_level (set_rootLevel pt r) n d lvl <-> wf_level pt n d lvl.
Proof.
  revert d lvl. induction n as [|n IH]; intros d lvl; [done|]. simpl.
  destruct (nextLevelArray lvl) as [arr|]; [|done].
  assert (Forall (fun slot => match slot with
                     | Some c => wf_level (set_rootLevel pt r) n (S d) c
                     | None => True end) arr <->
          Forall (fun slot => match slot with
                     | Some c => wf_level pt n (S d) c
                     | None => True end) arr) as ->; [|done].
  apply Forall_proper; [|done]. intros [c|]; [apply IH|done].
Qed.

Lemma searchWalk_set_root pt r va n d lvl :
  searchWalk (set_rootLevel pt r) va n d lvl = searchWalk pt va n d lvl.
Proof.
  revert d lvl. induction n as [|n IH]; intros d lvl; [done|]. simpl.
  unfold isLeafDepth. simpl.
  repeat (apply option_bind_ext_fun; intros ?).
  destruct (_ =? _); [done|]. destruct (nextLevelArray lvl); [|done].
  apply option_bind_ext_fun. intros [c|]; [apply IH|done].
Qed.

Lemma insertWalk_set_root pt r va f n d lvl :
  insertWalk (set_rootLevel pt r) va f n d lvl = insertWalk pt va f n d lvl.
Proof.
  revert d lvl. induction n as [|n IH]; intros d lvl; [done|]. simpl.
  unfold isLeafDepth. simpl.
  repeat (apply option_bind_ext_fun; intros ?).
  destruct (_ =? _); [done|].
  repeat (apply option_bind_ext_fun; intros ?). by rewrite IH.
Qed.

Lemma wf_level_fresh pt n d b :
  levelBits pt !! d = Some b ->
  wf_level pt (S n) d (allocateLevel (Z.of_nat d) (2 ^ b)).
Proof. intros Hb. simpl. eauto 10. Qed.

Lemma createdTable_wf bits b0 :
  validLevels bits -> bits !! 0%nat = Some b0 -> b0 < 32 ->
  wf_table (createdTable bits (allocateLevel 0 (2 ^ b0))).
Proof.
  intros Hv Hb0 Hlt. split.
  - split; [done|]. split; [|done]. simpl.
    destruct Hv as (Hne & Hpos & Hsum).
    destruct bits as [|x [|y bits]]; [done|..].
    + constructor; [|done]. simpl in Hb0. congruence.
    + clear Hb0 Hlt. inversion Hpos as [|?? Hx Hpos']; subst.
      inversion Hpos' as [|?? Hy Hpos'']; subst.
      pose proof (sumZ_nonneg _ Hpos''). simpl in Hsum.
      constructor; [lia|]. constructor; [lia|].
      apply Forall_forall. intros z Hz.
      apply list_elem_of_split in Hz as (l1 & l2 & ->).
      rewrite sumZ_app in Hsum. simpl in Hsum.
      apply Forall_app in Hpos'' as [H1 H2]. inversion H2; subst.
      pose proof (sumZ_nonneg _ H1). pose proof (sumZ_nonneg l2 ltac:(done)).
      lia.
  - simpl. destruct bits as [|x bits]; [done|].
    simpl in Hb0. inversion Hb0; subst. by apply (wf_level_fresh _ _ 0).
Qed.

(** *** One iteration of the walks on a well-formed node *)

Lemma wf_level_arrays pt n d lvl :
  wf_level pt (S n) d lvl ->
  exists b, levelBits pt !! d = Some b /\ entryCount lvl = 2 ^ b /\
    length (leafArray lvl) = Z.to_nat (2 ^ b) /\
    length (childArray lvl) = Z.to_nat (2 ^ b).
Proof.
  intros (_ & (b & Hb & He) & Hm & Hc). exists b.
  unfold leafArray, childArray. rewrite <- He.
  repeat split; try done.
  - destruct (mapArray lvl); [done|]. by rewrite length_replicate.
  - destruct (nextLevelArray lvl); [apply Hc|]. by rewrite length_replicate.
Qed.

Lemma index_in_range {A} (arr : list A) idx b :
  length arr = Z.to_nat (2 ^ b) -> 0 <= idx < 2 ^ b ->
  exists x, arr !! Z.to_nat idx = Some x /\ at_index arr idx = Some x.
Proof.
  intros Hl Hi. destruct (lookup_lt_is_Some_2 arr (Z.to_nat idx)) as [x Hx].
  { lia. }
  exists x. split; [done|]. by rewrite at_index_lookup by lia.
Qed.

Lemma wf_level_childAt pt n d lvl idx b' :
  wf_level pt (S (S n)) d lvl -> levelBits pt !! S d = Some b' ->
  wf_level pt (S n) (S d) (childAt pt lvl d idx).
Proof.
  intros (_ & _ & _ & Hc) Hb'. unfold childAt, childArray.
  rewrite Hb'. simpl default.
  destruct (nextLevelArray lvl) as [arr|].
  - destruct Hc as [_ Hc].
    destruct (arr !! Z.to_nat idx) as [[c|]|] eqn:E.
    + by apply (Forall_lookup_1 _ _ _ _ Hc E).
    + by apply wf_level_fresh.
    + by apply wf_level_fresh.
  - destruct (replicate _ _ !! _) as [[c|]|] eqn:E.
    + apply lookup_replicate in E as [? _]. done.
    + by apply wf_level_fresh.
    + by apply wf_level_fresh.
Qed.

Lemma insertWalk_leaf pt va f n d lvl :
  geometry pt -> 0 <= va -> wf_level pt (S n) d lvl ->
  S d = length (levelBits pt) ->
  insertWalk pt va f (S n) (Z.of_nat d) lvl =
  Some (set_mapArray lvl
          (<[Z.to_nat (levelIndex pt va d) := mkMap f (0 <=? f)]>
             (leafArray lvl))).
Proof.
  intros Hg Hva Hwf Hd.
  destruct (wf_level_arrays _ _ _ _ Hwf) as (b & Hb & He & Hl & _).
  destruct (walk_step _ va _ _ Hg Hva Hb) as (Hm & Hs & Hx & Hr).
  destruct (index_in_range _ _ _ Hl Hr) as (x & _ & Hat).
  simpl. rewrite Hm, Hs. simpl. rewrite Hx. simpl.
  rewrite geometry_leaf by (done || lia). rewrite bool_decide_true by done.
  fold (leafArray lvl). rewrite Hat. done.
Qed.

Lemma insertWalk_interior pt va f n d lvl :
  geometry pt -> 0 <= va -> wf_level pt (S n) d lvl ->
  (S d < length (levelBits pt))%nat ->
  insertWalk pt va f (S n) (Z.of_nat d) lvl =
  child' ← insertWalk pt va f n (Z.of_nat (S d))
             (childAt pt lvl d (levelIndex pt va d));
  Some (set_nextLevelArray lvl
          (<[Z.to_nat (levelIndex pt va d) := Some child']> (childArray lvl))).
Proof.
  intros Hg Hva Hwf Hd.
  destruct (wf_level_arrays _ _ _ _ Hwf) as (b & Hb & He & _ & Hl).
  destruct (walk_step _ va _ _ Hg Hva Hb) as (Hm & Hs & Hx & Hr).
  destruct (index_in_range _ _ _ Hl Hr) as (x & Hlk & Hat).
  destruct (lookup_lt_is_Some_2 (levelBits pt) (S d) Hd) as [b' Hb'].
  destruct (geometry_shift _ _ _ Hg Hb') as (Hb'r & _).
  simpl. rewrite Hm, Hs. simpl. rewrite Hx. simpl.
  rewrite geometry_leaf by (done || lia). rewrite bool_decide_false by lia.
  fold (childArray lvl). rewrite Hat. simpl.
  replace (Z.of_nat d + 1) with (Z.of_nat (S d)) by lia.
  unfold childAt. rewrite Hlk, Hb'. simpl default.
  destruct x as [c|]; simpl; [done|].
  rewrite at_index_nat, Hb'. simpl. rewrite shl32_one by lia. done.
Qed.

Lemma searchWalk_leaf pt va n d lvl :
  geometry pt -> 0 <= va -> wf_level pt (S n) d lvl ->
  S d = length (levelBits pt) ->
  searchWalk pt va (S n) (Z.of_nat d) lvl =
  Some (arr ← mapArray lvl; m ← arr !! Z.to_nat (levelIndex pt va d);
        readMap m).
Proof.
  intros Hg Hva Hwf Hd.
  destruct (wf_level_arrays _ _ _ _ Hwf) as (b & Hb & He & Hl & _).
  destruct (walk_step _ va _ _ Hg Hva Hb) as (Hm & Hs & Hx & Hr).
  simpl. rewrite Hm, Hs. simpl. rewrite Hx. simpl.
  rewrite geometry_leaf by (done || lia). rewrite bool_decide_true by done.
  unfold leafArray in Hl. destruct (mapArray lvl) as [arr|]; [|done].
  destruct (index_in_range _ _ _ Hl Hr) as (x & Hlk & Hat).
  rewrite Hat. simpl. rewrite Hlk. simpl. unfold readMap.
  by destruct (negb (valid x) || (frameNumber x <? 0)).
Qed.

Lemma searchWalk_interior pt va n d lvl :
  geometry pt -> 0 <= va -> wf_level pt (S n) d lvl ->
  (S d < length (levelBits pt))%nat ->
  searchWalk pt va (S n) (Z.of_nat d) lvl =
  match nextLevelArray lvl with
  | None => Some None
  | Some arr =>
      match arr !! Z.to_nat (levelIndex pt va d) with
      | Some (Some c) => searchWalk pt va n (Z.of_nat (S d)) c
      | _ => Some None
      end
  end.
Proof.
  intros Hg Hva Hwf Hd.
  destruct (wf_level_arrays _ _ _ _ Hwf) as (b & Hb & He & _ & Hl).
  destruct (walk_step _ va _ _ Hg Hva Hb) as (Hm & Hs & Hx & Hr).
  simpl. rewrite Hm, Hs. simpl. rewrite Hx. simpl.
  rewrite geometry_leaf by (done || lia). rewrite bool_decide_false by lia.
  unfold childArray in Hl. destruct (nextLevelArray lvl) as [arr|]; [|done].
  destruct (index_in_range _ _ _ Hl Hr) as (x & Hlk & Hat).
  rewrite Hat. simpl. rewrite Hlk.
  replace (Z.of_nat d + 1) with (Z.of_nat (S d)) by lia.
  by destruct x.
Qed.

(** The insert walk is defined on every well-formed node and leaves a
    well-formed node. *)
Lemma insertWalk_wf pt va f n d lvl :
  geometry pt -> 0 <= va -> wf_level pt n d lvl ->
  (d + n = length (levelBits pt))%nat ->
  exists lvl', insertWalk pt va f n (Z.of_nat d) lvl = Some lvl' /\
               wf_level pt n d lvl'.
Proof.
  intros Hg Hva. revert d lvl.
  induction n as [|n IH]; intros d lvl Hwf Hd; [done|].
  destruct (wf_level_arrays _ _ _ _ Hwf) as (b & Hb & He & Hl & Hc).
  destruct (walk_step _ va _ _ Hg Hva Hb) as (_ & _ & _ & Hr).
  destruct n as [|n].
  - rewrite insertWalk_leaf by (done || lia). eexists; split; [done|].
    destruct Hwf as (Hdep & Hbits & _ & Hnext). simpl.
    repeat split; try done. rewrite length_insert, Hl, He. done.
  - rewrite insertWalk_interior by (done || lia).
    destruct (lookup_lt_is_Some_2 (levelBits pt) (S d)) as [b' Hb']; [lia|].
    pose proof (wf_level_childAt _ _ _ _ (levelIndex pt va d) _ Hwf Hb') as Hch.
    destruct (IH (S d) _ Hch ltac:(lia)) as (c' & -> & Hc').
    simpl. eexists; split; [done|].
    destruct Hwf as (Hdep & Hbits & Hmap & Hnext).
    split; [done|]. split; [done|]. split; [done|]. simpl.
    split; [by rewrite length_insert, Hc, He|].
    apply Forall_insert; [|done].
    unfold childArray. destruct (nextLevelArray lvl); [apply Hnext|].
    apply Forall_replicate. done.
Qed.

Ltac simpl_fields :=
  cbn [nextLevelArray mapArray set_nextLevelArray set_mapArray depth
       entryCount mbind option_bind].

Lemma searchWalk_fresh pt vb n d b :
  geometry pt -> 0 <= vb -> levelBits pt !! d = Some b ->
  (d + S n = length (levelBits pt))%nat ->
  searchWalk pt vb (S n) (Z.of_nat d) (allocateLevel (Z.of_nat d) (2 ^ b))
  = Some None.
Proof.
  intros Hg Hvb Hb Hd.
  pose proof (wf_level_fresh pt n d b Hb) as Hwf.
  destruct n.
  - by rewrite searchWalk_leaf by (done || lia).
  - by rewrite searchWalk_interior by (done || lia).
Qed.

(** A lookup is defined on every well-formed node, and what it returns is
    a valid mapping with a non-negative frame. *)
Lemma searchWalk_defined pt va n d lvl :
  geometry pt -> 0 <= va -> wf_level pt n d lvl ->
  (d + n = length (levelBits pt))%nat ->
  exists r, searchWalk pt va n (Z.of_nat d) lvl = Some r /\
            forall m, r = Some m -> valid m = true /\ 0 <= frameNumber m.
Proof.
  intros Hg Hva. revert d lvl.
  induction n as [|n IH]; intros d lvl Hwf Hd; [done|].
  destruct n as [|n].
  - rewrite searchWalk_leaf by (done || lia). eexists; split; [done|].
    intros m Hm. destruct (mapArray lvl) as [arr|]; [|done]. simpl in Hm.
    destruct (arr !! _) as [x|]; [|done]. simpl in Hm. unfold readMap in Hm.
    destruct (valid x) eqn:Ev; simpl in Hm; [|done].
    destruct (Z.ltb_spec (frameNumber x) 0); [done|].
    inversion Hm; subst. split; [done|lia].
  - rewrite searchWalk_interior by (done || lia).
    destruct Hwf as (_ & _ & _ & Hnext).
    destruct (nextLevelArray lvl) as [arr|]; [|by eexists].
    destruct (arr !! _) as [[c|]|] eqn:E; [|by eexists..].
    apply IH; [|lia]. destruct Hnext as [_ Hall].
    by apply (Forall_lookup_1 _ _ _ _ Hall E).
Qed.

(** Lookup along the path of an insert finds what the insert stored. *)
Lemma searchWalk_insert_same pt va vb f n d lvl lvl' :
  geometry pt -> 0 <= va -> 0 <= vb -> wf_level pt n d lvl ->
  (d + n = length (levelBits pt))%nat ->
  (forall k, (d <= k < length (levelBits pt))%nat ->
             levelIndex pt vb k = levelIndex pt va k) ->
  insertWalk pt va f n (Z.of_nat d) lvl = Some lvl' ->
  searchWalk pt vb n (Z.of_nat d) lvl' = Some (readMap (mkMap f (0 <=? f))).
Proof.
  intros Hg Hva Hvb. revert d lvl lvl'.
  induction n as [|n IH]; intros d lvl lvl' Hwf Hd Hsame Hins; [done|].
  destruct (insertWalk_wf pt va f _ _ _ Hg Hva Hwf Hd) as (l2 & Hl2 & Hwf').
  assert (l2 = lvl') as -> by congruence.
  destruct (wf_level_arrays _ _ _ _ Hwf) as (b & Hb & He & Hl & Hc).
  destruct (walk_step _ va _ _ Hg Hva Hb) as (_ & _ & _ & Hr).
  destruct n as [|n].
  - rewrite insertWalk_leaf in Hins by (done || lia).
    inversion Hins; subst; clear Hins.
    rewrite searchWalk_leaf by (done || lia). simpl_fields.
    rewrite Hsame by lia. rewrite list_lookup_insert_eq by lia. done.
  - rewrite insertWalk_interior in Hins by (done || lia).
    destruct (lookup_lt_is_Some_2 (levelBits pt) (S d)) as [b' Hb']; [lia|].
    pose proof (wf_level_childAt _ _ _ _ (levelIndex pt va d) _ Hwf Hb') as Hch.
    destruct (insertWalk pt va f (S n) _ _) as [c'|] eqn:Ec; [|done].
    simpl in Hins. inversion Hins; subst; clear Hins.
    rewrite searchWalk_interior by (done || lia). simpl_fields.
    rewrite Hsame by lia. rewrite list_lookup_insert_eq by lia.
    apply (IH (S d) _ _ Hch); [lia| |done].
    intros k Hk. apply Hsame. lia.
Qed.

(** Lookup along any other path is not affected by an insert. *)
Lemma searchWalk_insert_other pt va vb f n d lvl lvl' :
  geometry pt -> 0 <= va -> 0 <= vb -> wf_level pt n d lvl ->
  (d + n = length (levelBits pt))%nat ->
  (exists k, (d <= k < length (levelBits pt))%nat /\
             levelIndex pt vb k <> levelIndex pt va k) ->
  insertWalk pt va f n (Z.of_nat d) lvl = Some lvl' ->
  searchWalk pt vb n (Z.of_nat d) lvl' = searchWalk pt vb n (Z.of_nat d) lvl.
Proof.
  intros Hg Hva Hvb. revert d lvl lvl'.
  induction n as [|n IH]; intros d lvl lvl' Hwf Hd Hdiff Hins; [done|].
  destruct (insertWalk_wf pt va f _ _ _ Hg Hva Hwf Hd) as (l2 & Hl2 & Hwf').
  assert (l2 = lvl') as -> by congruence.
  destruct (wf_level_arrays _ _ _ _ Hwf) as (b & Hb & He & Hl & Hc).
  destruct (walk_step _ va _ _ Hg Hva Hb) as (_ & _ & _ & Hr).
  destruct (walk_step _ vb _ _ Hg Hvb Hb) as (_ & _ & _ & Hrb).
  destruct n as [|n].
  - rewrite insertWalk_leaf in Hins by (done || lia).
    inversion Hins; subst; clear Hins.
    rewrite !searchWalk_leaf by (done || lia). simpl_fields.
    destruct Hdiff as (k & Hk & Hne). assert (k = d) as -> by lia.
    rewrite list_lookup_insert_ne by lia.
    unfold leafArray. destruct (mapArray lvl) as [arr|]; [done|]. simpl.
    rewrite lookup_replicate_2 by lia. done.
  - rewrite insertWalk_interior in Hins by (done || lia).
    destruct (lookup_lt_is_Some_2 (levelBits pt) (S d)) as [b' Hb']; [lia|].
    pose proof (wf_level_childAt _ _ _ _ (levelIndex pt va d) _ Hwf Hb') as Hch.
    destruct (insertWalk pt va f (S n) _ _) as [c'|] eqn:Ec; [|done].
    simpl in Hins. inversion Hins; subst; clear Hins.
    rewrite !searchWalk_interior by (done || lia). simpl_fields.
    destruct (decide (levelIndex pt vb d = levelIndex pt va d)) as [Heq|Hne].
    + rewrite Heq. rewrite list_lookup_insert_eq by lia.
      rewrite (IH (S d) _ c' Hch ltac:(lia)); [| |done].
      * unfold childAt, childArray in Hc |- *. rewrite Hb'. simpl default.
        destruct (nextLevelArray lvl) as [arr|].
        -- destruct (arr !! _) as [[c|]|] eqn:E; [done|..].
           ++ by apply searchWalk_fresh; [..|lia].
           ++ apply lookup_ge_None in E. lia.
        -- rewrite lookup_replicate_2 by (rewrite He; lia).
           by apply searchWalk_fresh; [..|lia].
      * destruct Hdiff as (k & Hk & Hne).
        exists k. split; [|done].
        destruct (decide (k = d)) as [->|]; [done|lia].
    + rewrite list_lookup_insert_ne by lia.
      unfold childArray. destruct (nextLevelArray lvl) as [arr|]; [done|].
      rewrite lookup_replicate_2 by (rewrite He; lia). done.
Qed.

(** *** Paths and page numbers *)

Lemma div_pow2_split x s b :
  0 <= s -> 0 <= b ->
  x / 2 ^ s = 2 ^ b * (x / 2 ^ (s + b)) + (x / 2 ^ s) mod 2 ^ b.
Proof.
  intros Hs Hb. rewrite Z.pow_add_r by lia.
  rewrite <- Z.div_div by (try apply pow2_pos; lia).
  apply Z.div_mod. pose proof (pow2_pos b Hb). lia.
Qed.

Lemma path_prefix_div pt va vb k :
  geometry pt -> 0 <= va < 2 ^ 32 -> 0 <= vb < 2 ^ 32 ->
  (k <= length (levelBits pt))%nat ->
  (forall j, (j < k)%nat -> levelIndex pt vb j = levelIndex pt va j) ->
  va / 2 ^ (32 - sumZ (take k (levelBits pt))) =
  vb / 2 ^ (32 - sumZ (take k (levelBits pt))).
Proof.
  intros Hg Hva Hvb. induction k as [|k IH]; intros Hk Hsame.
  - rewrite take_0. simpl sumZ. rewrite Z.sub_0_r.
    rewrite !Z.div_small by lia. done.
  - destruct (lookup_lt_is_Some_2 (levelBits pt) k) as [b Hb]; [lia|].
    destruct (geometry_shift _ _ _ Hg Hb) as (Hbr & Hoff & Hle & Hsum).
    pose proof (geometry_offset _ Hg) as [_ Ho].
    fold (shiftAt pt k).
    rewrite (div_pow2_split va (shiftAt pt k) b) by lia.
    rewrite (div_pow2_split vb (shiftAt pt k) b) by lia.
    rewrite Hsum. rewrite IH by (lia || (intros; apply Hsame; lia)).
    f_equal. specialize (Hsame k ltac:(lia)).
    unfold levelIndex in Hsame. rewrite Hb in Hsame. simpl in Hsame.
    done.
Qed.

Lemma levelIndex_of_vpn pt va k b :
  geometry pt -> levelBits pt !! k = Some b ->
  levelIndex pt va k =
  (va / 2 ^ offsetBits pt / 2 ^ (shiftAt pt k - offsetBits pt)) mod 2 ^ b.
Proof.
  intros Hg Hb.
  destruct (geometry_shift _ _ _ Hg Hb) as (Hbr & Hoff & Hle & Hsum).
  pose proof (geometry_offset _ Hg) as [_ Ho].
  unfold levelIndex. rewrite Hb. simpl. f_equal.
  rewrite Z.div_div by (try apply pow2_pos; lia).
  rewrite <- Z.pow_add_r by lia. do 2 f_equal. lia.
Qed.

(** Two addresses take the same path through the trie exactly when they
    have the same virtual page number. *)
Lemma same_path_iff_same_vpn pt va vb :
  geometry pt -> 0 <= va < 2 ^ 32 -> 0 <= vb < 2 ^ 32 ->
  (forall k, (k < length (levelBits pt))%nat ->
             levelIndex pt vb k = levelIndex pt va k) <->
  va / 2 ^ offsetBits pt = vb / 2 ^ offsetBits pt.
Proof.
  intros Hg Hva Hvb. split.
  - intros Hsame. pose proof (geometry_offset _ Hg) as [-> _].
    pose proof (path_prefix_div pt va vb (length (levelBits pt))
                  Hg Hva Hvb ltac:(lia) Hsame) as H.
    by rewrite firstn_all in H.
  - intros Heq k Hk.
    destruct (lookup_lt_is_Some_2 (levelBits pt) k Hk) as [b Hb].
    rewrite !(levelIndex_of_vpn _ _ _ _ Hg Hb). by rewrite Heq.
Qed.

Lemma getFullVPN_defined pt va :
  geometry pt -> getFullVPN pt va = Some (va / 2 ^ offsetBits pt).
Proof.
  intros Hg. pose proof (geometry_offset _ Hg) as [_ Ho].
  unfold getFullVPN. destruct (Z.eqb_spec (offsetBits pt) 32); [lia|].
  by apply shr32_defined.
Qed.

(** *** Whole-table statements *)

Lemma createPageTable_full_width :
  createPageTable 1 [32] = None /\ computeMasks [32] 0 = Some ([UINT_MAX], [0]).
Proof. split; reflexivity. Qed.

Lemma createPageTable_wf bits pt :
  validLevels bits ->
  createPageTable (Z.of_nat (length bits)) bits = Some pt ->
  wf_table pt /\ levelBits pt = bits.
Proof.
  intros Hv Hc. destruct (validLevels_head _ Hv) as (b0 & Hb0 & Hr).
  destruct (decide (b0 = 32)) as [->|Hne].
  - destruct Hv as (_ & Hpos & Hsum). destruct bits as [|x [|y bits]].
    + done.
    + simpl in Hb0. inversion Hb0; subst.
      change (createPageTable 1 [32] = Some pt) in Hc.
      by rewrite (proj1 createPageTable_full_width) in Hc.
    + simpl in Hb0. inversion Hb0; subst.
      inversion Hpos as [|?? _ Hp]; subst. inversion Hp as [|?? Hy Hp']; subst.
      pose proof (sumZ_nonneg _ Hp'). simpl in Hsum. lia.
  - rewrite (createPageTable_valid bits b0) in Hc by (done || lia).
    inversion Hc; subst. split; [|done]. apply createdTable_wf; done || lia.
Qed.

Lemma insertMapForVpn2Pfn_wf pt va f :
  wf_table pt -> 0 <= va ->
  exists root, insertMapForVpn2Pfn pt va f = Some (set_rootLevel pt root) /\
               wf_table (set_rootLevel pt root).
Proof.
  intros [Hg Hwf] Hva. unfold insertMapForVpn2Pfn.
  destruct (geometry_count _ Hg) as [-> _]. rewrite Nat2Z.id.
  destruct (insertWalk_wf pt va f _ 0 _ Hg Hva Hwf ltac:(lia))
    as (root & Hroot & Hwf').
  change (Z.of_nat 0) with 0 in Hroot. rewrite Hroot. simpl.
  exists root. split; [done|]. split; [by apply geometry_set_root|].
  by apply wf_level_set_root.
Qed.

Lemma searchMappedPfn_walk pt va :
  geometry pt ->
  searchMappedPfn pt va =
  m ← searchWalk pt va (length (levelBits pt)) 0 (rootLevel pt); Some (m, pt).
Proof.
  intros Hg. unfold searchMappedPfn.
  destruct (geometry_count _ Hg) as [-> _]. by rewrite Nat2Z.id.
Qed.

Lemma path_cases pt va vb n :
  (forall k, (k < n)%nat -> levelIndex pt vb k = levelIndex pt va k) \/
  (exists k, (k < n)%nat /\ levelIndex pt vb k <> levelIndex pt va k).
Proof.
  induction n as [|n [IH|(k & Hk & Hne)]].
  - left. intros k Hk. lia.
  - destruct (decide (levelIndex pt vb n = levelIndex pt va n)) as [Heq|Hne].
    + left. intros k Hk. destruct (decide (k = n)) as [->|]; [done|].
      apply IH. lia.
    + right. exists n. split; [lia|done].
  - right. exists k. split; [lia|done].
Qed.

(** After an insert, a lookup in the same page finds the inserted frame
    (or nothing when the insert was an invalidation). *)
Lemma search_insert_same_page pt va vb f pt' :
  wf_table pt -> 0 <= va < 2 ^ 32 -> 0 <= vb < 2 ^ 32 ->
  va / 2 ^ offsetBits pt = vb / 2 ^ offsetBits pt ->
  insertMapForVpn2Pfn pt va f = Some pt' ->
  searchMappedPfn pt' vb = Some (readMap (mkMap f (0 <=? f)), pt').
Proof.
  intros Hwt Hva Hvb Hvpn Hins. pose proof Hwt as [Hg Hwf].
  destruct (insertMapForVpn2Pfn_wf pt va f Hwt ltac:(lia))
    as (root & Hroot & [Hg' Hwf']).
  assert (pt' = set_rootLevel pt root) as -> by congruence.
  rewrite searchMappedPfn_walk by done.
  rewrite searchWalk_set_root. simpl levelBits. simpl rootLevel.
  unfold insertMapForVpn2Pfn in Hroot.
  destruct (geometry_count _ Hg) as [Hc _]. rewrite Hc, Nat2Z.id in Hroot.
  destruct (insertWalk pt va f _ 0 _) as [r|] eqn:Er; [|done].
  simpl in Hroot. inversion Hroot; subst.
  rewrite (searchWalk_insert_same pt va vb f _ 0 (rootLevel pt) root);
    try done; try lia.
  intros k Hk. apply same_path_iff_same_vpn; try done. lia.
Qed.

(** After an insert, lookups in every other page are as before. *)
Lemma search_insert_other_page pt va vb f pt' :
  wf_table pt -> 0 <= va < 2 ^ 32 -> 0 <= vb < 2 ^ 32 ->
  va / 2 ^ offsetBits pt <> vb / 2 ^ offsetBits pt ->
  insertMapForVpn2Pfn pt va f = Some pt' ->
  fst <$> searchMappedPfn pt' vb = fst <$> searchMappedPfn pt vb.
Proof.
  intros Hwt Hva Hvb Hvpn Hins. pose proof Hwt as [Hg Hwf].
  destruct (insertMapForVpn2Pfn_wf pt va f Hwt ltac:(lia))
    as (root & Hroot & [Hg' Hwf']).
  assert (pt' = set_rootLevel pt root) as -> by congruence.
  rewrite !searchMappedPfn_walk by done.
  rewrite searchWalk_set_root. simpl levelBits. simpl rootLevel.
  unfold insertMapForVpn2Pfn in Hroot.
  destruct (geometry_count _ Hg) as [Hc _]. rewrite Hc, Nat2Z.id in Hroot.
  destruct (insertWalk pt va f _ 0 _) as [r|] eqn:Er; [|done].
  simpl in Hroot. inversion Hroot; subst.
  rewrite (searchWalk_insert_other pt va vb f _ 0 (rootLevel pt) root);
    try done; try lia.
  - by destruct (searchWalk pt vb _ _ _).
  - destruct (path_cases pt va vb (length (levelBits pt)))
      as [Hsame|(k & Hk & Hne)].
    + exfalso. apply Hvpn. by apply same_path_iff_same_vpn.
    + exists k. split; [lia|done].
Qed.

Lemma searchMappedPfn_defined pt va :
  wf_table pt -> 0 <= va ->
  exists r, searchMappedPfn pt va = Some (r, pt) /\
            forall m, r = Some m -> valid m = true /\ 0 <= frameNumber m.
Proof.
  intros [Hg Hwf] Hva. rewrite searchMappedPfn_walk by done.
  destruct (searchWalk_defined pt va _ 0 _ Hg Hva Hwf ltac:(lia))
    as (r & Hr & Hm).
  change (Z.of_nat 0) with 0 in Hr. rewrite Hr. by exists r.
Qed.

(** ** Aging *)

Lemma wrap16_small z : 0 <= z < 2 ^ 16 -> wrap16 z = z.
Proof. intros. unfold wrap16. by apply Z.mod_small. Qed.

Lemma ageEntry_value e :
  0 <= ageBits e < 2 ^ 16 ->
  ageBits (ageEntry e) =
  Z.shiftr (ageBits e) 1 + (if accessedThisInterval e then 2 ^ 15 else 0) /\
  0 <= Z.shiftr (ageBits e) 1 < 2 ^ 15.
Proof.
  intros Hr.
  assert (0 <= Z.shiftr (ageBits e) 1 < 2 ^ 15) as Hs.
  { rewrite Z.shiftr_div_pow2 by lia. change (2 ^ 1) with 2.
    change (2 ^ 16) with 65536 in Hr. change (2 ^ 15) with 32768.
    split; [apply Z.div_pos; lia|]. apply Z.div_lt_upper_bound; lia. }
  split; [|done]. unfold ageEntry. simpl.
  change (2 ^ 15) with 32768 in *.
  rewrite (wrap16_small (Z.shiftr _ _)) by (change (2 ^ 16) with 65536; lia).
  destruct (accessedThisInterval e); [|lia].
  change (Z.shiftl 1 15) with (2 ^ 15).
  rewrite <- Z.add_nocarry_lor.
  - apply wrap16_small. change (2 ^ 16) with 65536.
    change (2 ^ 15) with 32768. lia.
  - apply Z.bits_inj'. intros k Hk. rewrite Z.land_spec, Z.bits_0.
    rewrite Z.pow2_bits_eqb by lia.
    destruct (Z.eqb_spec 15 k) as [<-|]; [|apply andb_false_r].
    rewrite andb_true_r.
    destruct (decide (Z.shiftr (ageBits e) 1 = 0)) as [->|];
      [apply Z.bits_0|].
    apply Z.bits_above_log2; [lia|].
    apply Z.log2_lt_pow2; [lia|]. change (2 ^ 15) with 32768. lia.
Qed.

Lemma ageEntry_bits e :
  0 <= ageBits e < 2 ^ 16 ->
  Z.testbit (ageBits (ageEntry e)) 15 = accessedThisInterval e /\
  (forall k, 0 <= k < 15 ->
     Z.testbit (ageBits (ageEntry e)) k = Z.testbit (ageBits e) (k + 1)) /\
  0 <= ageBits (ageEntry e) < 2 ^ 16.
Proof.
  intros Hr. destruct (ageEntry_value e Hr) as [Hv Hs].
  assert (forall k, 15 <= k -> Z.testbit (Z.shiftr (ageBits e) 1) k = false)
    as Hhigh.
  { intros k Hk.
    destruct (decide (Z.shiftr (ageBits e) 1 = 0)) as [->|];
      [apply Z.bits_0|].
    apply Z.bits_above_log2; [lia|].
    apply Z.log2_lt_pow2; [lia|].
    pose proof (pow2_le_mono 15 k ltac:(lia)). lia. }
  assert (ageBits (ageEntry e) =
          Z.lor (Z.shiftr (ageBits e) 1)
                (if accessedThisInterval e then 2 ^ 15 else 0)) as Hlor.
  { rewrite Hv. apply Z.add_nocarry_lor.
    apply Z.bits_inj'. intros k Hk. rewrite Z.land_spec, Z.bits_0.
    destruct (accessedThisInterval e);
      [|rewrite Z.bits_0; apply andb_false_r].
    rewrite Z.pow2_bits_eqb by lia.
    destruct (Z.eqb_spec 15 k) as [<-|]; [|apply andb_false_r].
    rewrite Hhigh by lia. done. }
  split; [|split].
  - rewrite Hlor, Z.lor_spec, Hhigh by lia.
    destruct (accessedThisInterval e); [|by rewrite Z.bits_0].
    by rewrite Z.pow2_bits_eqb by lia.
  - intros k Hk. rewrite Hlor, Z.lor_spec, Z.shiftr_spec by lia.
    destruct (accessedThisInterval e).
    + rewrite Z.pow2_bits_eqb by lia.
      destruct (Z.eqb_spec 15 k); [lia|]. apply orb_false_r.
    + rewrite Z.bits_0. apply orb_false_r.
  - rewrite Hv. change (2 ^ 16) with 65536. change (2 ^ 15) with 32768 in *.
    destruct (accessedThisInterval e); lia.
Qed.

Lemma tick_at rs :
  0 <= accessesSinceAging rs -> 0 <= currentTime rs < UINT_MAX ->
  accessesSinceAging rs + 1 = bitstringInterval rs ->
  bitstringInterval rs <= UINT_MAX ->
  tickReplacementClock rs =
  mkReplacementState (maxFrames rs) (bitstringInterval rs) 0
    (currentTime rs + 1) (nextFreeFrame rs) (fmap ageEntry (loaded rs)).
Proof.
  intros Hc Ht Hlt Hi. unfold tickReplacementClock, UINT_MAX in *.
  rewrite !wrap32_small by (rewrite pow2_32; lia).
  destruct (Z.leb_spec (bitstringInterval rs) (accessesSinceAging rs + 1));
    [done|lia].
Qed.

Lemma tick_fields rs :
  let rs' := tickReplacementClock rs in
  maxFrames rs' = maxFrames rs /\
  bitstringInterval rs' = bitstringInterval rs /\
  nextFreeFrame rs' = nextFreeFrame rs /\
  currentTime rs' = wrap32 (currentTime rs + 1).
Proof.
  unfold tickReplacementClock. by destruct (_ <=? _).
Qed.

Lemma tick_counter rs :
  0 <= accessesSinceAging rs < bitstringInterval rs ->
  bitstringInterval rs <= UINT_MAX ->
  let rs' := tickReplacementClock rs in
  (accessesSinceAging rs + 1 = bitstringInterval rs ->
   accessesSinceAging rs' = 0 /\ loaded rs' = fmap ageEntry (loaded rs)) /\
  (accessesSinceAging rs + 1 <> bitstringInterval rs ->
   accessesSinceAging rs' = accessesSinceAging rs + 1 /\
   loaded rs' = loaded rs).
Proof.
  intros Hc Hi. unfold tickReplacementClock, UINT_MAX in *.
  rewrite (wrap32_small (accessesSinceAging rs + 1))
    by (rewrite pow2_32; lia).
  destruct (Z.leb_spec (bitstringInterval rs) (accessesSinceAging rs + 1));
    simpl; split; intros; done || lia.
Qed.

(** From any point of an interval, the ticks up to its end age every
    record exactly once. *)
Lemma ticks_to_interval k rs :
  0 <= accessesSinceAging rs ->
  accessesSinceAging rs + Z.of_nat (S k) = bitstringInterval rs ->
  bitstringInterval rs <= UINT_MAX ->
  let rs' := Nat.iter (S k) tickReplacementClock rs in
  accessesSinceAging rs' = 0 /\ loaded rs' = fmap ageEntry (loaded rs) /\
  bitstringInterval rs' = bitstringInterval rs.
Proof.
  revert rs. induction k as [|k IH]; intros rs Hc Hk Hi.
  - simpl. destruct (tick_counter rs ltac:(lia) Hi) as [[? ?] _]; [lia|].
    split; [done|]. split; [done|]. apply tick_fields.
  - cbn zeta. rewrite Nat.iter_succ_r.
    destruct (tick_counter rs ltac:(lia) Hi) as [_ [Hc' Hl']]; [lia|].
    pose proof (tick_fields rs) as (_ & Hi' & _).
    destruct (IH (tickReplacementClock rs)) as (? & ? & ?);
      [lia|lia|lia|].
    split; [done|]. split; [congruence|congruence].
Qed.

(** ** Victim selection *)

Lemma to_int_small z : 0 <= z < 2 ^ 31 -> to_int z = z.
Proof.
  intros H. unfold to_int. change (2 ^ 31) with 2147483648 in *.
  rewrite wrap32_small by (rewrite pow2_32; lia).
  destruct (Z.ltb_spec z 2147483648); lia.
Qed.

(** The scan either finds no record strictly before the running best and
    keeps it, or returns the first record that no record comes before. *)
Lemma chooseVictimFrom_spec l i bestAge bestLast bestIdx :
  0 <= i -> i + Z.of_nat (length l) <= 2 ^ 31 ->
  let r := chooseVictimFrom l i bestAge bestLast bestIdx in
  (Forall (fun e => ~ keyLt (ageBits e) (lastAccessTime e) bestAge bestLast) l
   /\ r = bestIdx) \/
  (exists j e, l !! j = Some e /\ r = i + Z.of_nat j /\
     keyLt (ageBits e) (lastAccessTime e) bestAge bestLast /\
     forall j' e', l !! j' = Some e' ->
       ~ entryLt e' e /\ ((j' < j)%nat -> entryLt e e')).
Proof.
  revert i bestAge bestLast bestIdx.
  induction l as [|e l IH]; intros i bA bL bI Hi Hlen; simpl.
  - left. done.
  - simpl length in Hlen.
    destruct ((ageBits e <? bA)
              || (ageBits e =? bA) && (lastAccessTime e <? bL)) eqn:Hcmp.
    + assert (keyLt (ageBits e) (lastAccessTime e) bA bL) as Hlt.
      { unfold keyLt. apply orb_true_iff in Hcmp as [H|H].
        - left. by apply Z.ltb_lt.
        - apply andb_true_iff in H as [H1 H2]. right.
          split; [by apply Z.eqb_eq|by apply Z.ltb_lt]. }
      right. rewrite to_int_small by lia.
      destruct (IH (i + 1) (ageBits e) (lastAccessTime e) i
                   ltac:(lia) ltac:(lia))
        as [[Hall ->]|(j & ej & Hj & -> & Hej & Hmin)].
      * exists 0%nat, e. rewrite Z.add_0_r.
        split; [done|]. split; [done|]. split; [done|].
        intros j' e' H. destruct j' as [|j']; simpl in H.
        -- inversion H; subst. unfold entryLt, keyLt. lia.
        -- split; [|lia]. apply (Forall_lookup_1 _ _ _ _ Hall H).
      * exists (S j), ej.
        split; [done|]. split; [lia|].
        split; [unfold keyLt in *; lia|].
        intros j' e' H. destruct j' as [|j']; simpl in H.
        -- inversion H; subst. unfold entryLt, keyLt in *. lia.
        -- destruct (Hmin j' e' H) as [H1 H2].
           split; [done|]. intros ?. apply H2. lia.
    + assert (~ keyLt (ageBits e) (lastAccessTime e) bA bL) as Hnlt.
      { unfold keyLt. apply orb_false_iff in Hcmp as [H1 H2].
        apply Z.ltb_ge in H1. apply andb_false_iff in H2 as [H2|H2].
        - apply Z.eqb_neq in H2. lia.
        - apply Z.ltb_ge in H2. lia. }
      destruct (IH (i + 1) bA bL bI ltac:(lia) ltac:(lia))
        as [[Hall ->]|(j & ej & Hj & -> & Hej & Hmin)].
      * left. split; [|done]. by constructor.
      * right. exists (S j), ej.
        split; [done|]. split; [lia|]. split; [done|].
        intros j' e' H. destruct j' as [|j']; simpl in H.
        -- inversion H; subst. unfold entryLt, keyLt in *. lia.
        -- destruct (Hmin j' e' H) as [H1 H2].
           split; [done|]. intros ?. apply H2. lia.
Qed.

Lemma chooseVictimIndex_spec rs :
  Z.of_nat (length (loaded rs)) <= 2 ^ 31 ->
  Exists (fun e => keyLt (ageBits e) (lastAccessTime e) UINT16_MAX UINT_MAX)
         (loaded rs) ->
  exists j e, loaded rs !! j = Some e /\ chooseVictimIndex rs = Z.of_nat j /\
    forall j' e', loaded rs !! j' = Some e' ->
      ~ entryLt e' e /\ ((j' < j)%nat -> entryLt e e').
Proof.
  intros Hlen Hex. unfold chooseVictimIndex.
  destruct (chooseVictimFrom_spec (loaded rs) 0 UINT16_MAX UINT_MAX (-1)
              ltac:(lia) ltac:(lia)) as [[Hall _]|(j & e & Hj & Hr & _ & Hmin)].
  - exfalso. apply Exists_exists in Hex as (e & He & Hlt).
    rewrite Forall_forall in Hall. by apply (Hall e).
  - exists j, e. rewrite Z.add_0_l in Hr.
    destruct (loaded rs); [done|]. done.
Qed.

(** ** Resident records *)

Lemma findLoadedFrom_spec l vpn i :
  0 <= i -> i + Z.of_nat (length l) <= 2 ^ 31 ->
  (findLoadedFrom l vpn i = -1 /\ Forall (fun e => fullVPN e <> vpn) l) \/
  (exists j e, l !! j = Some e /\ fullVPN e = vpn /\
               findLoadedFrom l vpn i = i + Z.of_nat j).
Proof.
  revert i. induction l as [|e l IH]; intros i Hi Hlen; simpl.
  - left. done.
  - simpl length in Hlen. destruct (Z.eqb_spec (fullVPN e) vpn) as [Heq|Hne].
    + right. exists 0%nat, e. rewrite to_int_small by lia.
      split; [done|]. split; [done|lia].
    + destruct (IH (i + 1) ltac:(lia) ltac:(lia))
        as [[-> Hall]|(j & e' & Hj & He' & ->)].
      * left. split; [done|]. by constructor.
      * right. exists (S j), e'. split; [done|]. split; [done|lia].
Qed.

Lemma noteFrameAccessIn_keys l now vpn frame :
  fmap residentKey (noteFrameAccessIn l now vpn frame) = fmap residentKey l.
Proof.
  induction l as [|e l IH]; [done|]. simpl noteFrameAccessIn.
  destruct (_ && _); rewrite !fmap_cons; [done|]. by rewrite IH.
Qed.

Lemma noteFrameAccessIn_bounds l now vpn frame (P : Z -> Z -> Prop) :
  Forall (fun e => P (ageBits e) (lastAccessTime e)) l ->
  (forall a t, P a t -> P a now) ->
  Forall (fun e => P (ageBits e) (lastAccessTime e))
         (noteFrameAccessIn l now vpn frame).
Proof.
  intros Hall Hnow. induction Hall as [|e l He Hall IH]; simpl; [done|].
  destruct (_ && _); constructor; simpl; eauto.
Qed.

(** A note for a page and frame that no record holds changes nothing. *)
Lemma noteFrameAccessIn_absent l now vpn frame :
  Forall (fun e => ~ (fullVPN e = vpn /\ info_frameNumber e = frame)) l ->
  noteFrameAccessIn l now vpn frame = l.
Proof.
  induction 1 as [|e l He Hall IH]; simpl; [done|].
  destruct (Z.eqb_spec (fullVPN e) vpn), (Z.eqb_spec (info_frameNumber e) frame);
    simpl; try (by rewrite IH). tauto.
Qed.

(** A note for a page and frame that a record holds stamps the first
    such record with the clock and the accessed flag. *)
Lemma noteFrameAccessIn_present l now vpn frame :
  Exists (fun e => fullVPN e = vpn /\ info_frameNumber e = frame) l ->
  exists i e, l !! i = Some e /\ fullVPN e = vpn /\
    info_frameNumber e = frame /\
    noteFrameAccessIn l now vpn frame =
    <[i := mkLoadedPageInfo vpn frame (ageBits e) now true]> l.
Proof.
  induction l as [|e l IH]; intros Hex; [by apply Exists_nil in Hex|].
  simpl.
  destruct (Z.eqb_spec (fullVPN e) vpn) as [Hv|Hv],
           (Z.eqb_spec (info_frameNumber e) frame) as [Hf|Hf]; simpl.
  - exists 0%nat, e. simpl. by rewrite Hv, Hf.
  - apply Exists_cons in Hex as [[? ?]|Hex]; [done|].
    destruct (IH Hex) as (i & e' & ? & ? & ? & ->). by exists (S i), e'.
  - apply Exists_cons in Hex as [[? ?]|Hex]; [done|].
    destruct (IH Hex) as (i & e' & ? & ? & ? & ->). by exists (S i), e'.
  - apply Exists_cons in Hex as [[? ?]|Hex]; [done|].
    destruct (IH Hex) as (i & e' & ? & ? & ? & ->). by exists (S i), e'.
Qed.

Lemma map_ageEntry_keys (l : list LoadedPageInfo) :
  residentKey <$> (ageEntry <$> l) = residentKey <$> l.
Proof. rewrite <- list_fmap_compose. done. Qed.

Lemma distinct_bounded_length (l : list Z) n :
  NoDup l -> Forall (fun x => 0 <= x < n) l -> Z.of_nat (length l) <= Z.max 0 n.
Proof.
  intros Hnd Hall.
  assert (l ⊆+ seqZ 0 n) as Hsub.
  { apply NoDup_submseteq; [done|]. intros x Hx.
    rewrite Forall_forall in Hall. apply elem_of_seqZ. specialize (Hall x Hx).
    lia. }
  apply submseteq_length in Hsub. rewrite length_seqZ in Hsub. lia.
Qed.

(** ** Page table and resident set *)

Lemma insert_keeps_wf pt va f pt' :
  wf_table pt -> 0 <= va -> insertMapForVpn2Pfn pt va f = Some pt' ->
  wf_table pt'.
Proof.
  intros Hwf Hva Hins.
  destruct (insertMapForVpn2Pfn_wf pt va f Hwf Hva) as (r & Hr & Hwf').
  congruence.
Qed.

Lemma mapped_insert_same pt va vb f pt' g :
  wf_table pt -> 0 <= va < 2 ^ 32 -> 0 <= vb < 2 ^ 32 ->
  va / 2 ^ offsetBits pt = vb / 2 ^ offsetBits pt ->
  insertMapForVpn2Pfn pt va f = Some pt' ->
  mapped pt' vb g <-> 0 <= f /\ g = f.
Proof.
  intros Hwf Hva Hvb Hvpn Hins. unfold mapped.
  rewrite (search_insert_same_page pt va vb f pt') by done.
  unfold readMap. simpl.
  destruct (Z.leb_spec 0 f), (Z.ltb_spec f 0); try lia; simpl.
  - split.
    + intros (m & [= <-] & <-). done.
    + intros [_ ->]. by eexists.
  - split; [by intros (m & ? & _)|lia].
Qed.

Lemma mapped_insert_other pt va vb f pt' g :
  wf_table pt -> 0 <= va < 2 ^ 32 -> 0 <= vb < 2 ^ 32 ->
  va / 2 ^ offsetBits pt <> vb / 2 ^ offsetBits pt ->
  insertMapForVpn2Pfn pt va f = Some pt' ->
  mapped pt' vb g <-> mapped pt vb g.
Proof.
  intros Hwf Hva Hvb Hvpn Hins. unfold mapped.
  pose proof (insert_keeps_wf pt va f pt' Hwf ltac:(lia) Hins) as Hwf'.
  pose proof (search_insert_other_page _ _ _ _ _ Hwf Hva Hvb Hvpn Hins) as Ho.
  destruct (searchMappedPfn_defined pt vb Hwf ltac:(lia)) as (r & Hr & _).
  destruct (searchMappedPfn_defined pt' vb Hwf' ltac:(lia)) as (r' & Hr' & _).
  rewrite Hr, Hr' in *. simpl in Ho. inversion Ho; subst.
  split; intros (m & [= ->] & <-); by eexists.
Qed.

Lemma shl32_vpn pt vpn :
  geometry pt -> 0 <= vpn < 2 ^ (32 - offsetBits pt) ->
  shl32 vpn (offsetBits pt) = Some (vpn * 2 ^ offsetBits pt) /\
  0 <= vpn * 2 ^ offsetBits pt < 2 ^ 32 /\
  vpn * 2 ^ offsetBits pt / 2 ^ offsetBits pt = vpn.
Proof.
  intros Hg Hv. pose proof (geometry_offset _ Hg) as [_ Ho].
  pose proof (pow2_pos (offsetBits pt) ltac:(lia)).
  assert (vpn * 2 ^ offsetBits pt < 2 ^ 32).
  { assert (2 ^ 32 = 2 ^ (32 - offsetBits pt) * 2 ^ offsetBits pt) as ->.
    { rewrite <- Z.pow_add_r by lia. f_equal. lia. }
    nia. }
  rewrite shl32_defined by lia. rewrite wrap32_small by nia.
  split; [done|]. split; [nia|]. apply Z.div_mul. lia.
Qed.

(** The eviction branch of [ensureResidentPage]. *)
Lemma ensureResidentPage_evict pt rs va vpn j victim :
  wf_table pt -> 0 <= va < 2 ^ 32 -> vpn = pageOf pt va ->
  Z.of_nat (length (loaded rs)) <= 2 ^ 31 ->
  findLoadedVPN rs vpn = -1 ->
  maxFrames rs <= Z.of_nat (length (loaded rs)) ->
  chooseVictimIndex rs = Z.of_nat j -> loaded rs !! j = Some victim ->
  0 <= fullVPN victim < 2 ^ (32 - offsetBits pt) ->
  0 <= info_frameNumber victim ->
  exists victimVA pt1 pt2,
    shl32 (fullVPN victim) (offsetBits pt) = Some victimVA /\
    insertMapForVpn2Pfn pt victimVA (-1) = Some pt1 /\
    insertMapForVpn2Pfn pt1 va (info_frameNumber victim) = Some pt2 /\
    wf_table pt2 /\ offsetBits pt2 = offsetBits pt /\
    ensureResidentPage pt rs va vpn =
    Some (mkFaultResult (info_frameNumber victim) true true
                        (fullVPN victim) (ageBits victim),
          pt2,
          set_loaded rs
            (<[j := mkLoadedPageInfo vpn (info_frameNumber victim) 32768
                                     (currentTime rs) true]> (loaded rs))) /\
    fullVPN victim <> vpn /\
    forall vb g, 0 <= vb < 2 ^ 32 ->
      mapped pt2 vb g <->
      (pageOf pt vb = vpn /\ g = info_frameNumber victim) \/
      (pageOf pt vb <> vpn /\ pageOf pt vb <> fullVPN victim /\ mapped pt vb g).
Proof.
  intros Hwf Hva -> Hlen Hfind Hfull Hj Hv Hvr Hf.
  pose proof Hwf as [Hg _].
  destruct (shl32_vpn pt _ Hg Hvr) as (Hshl & Hvar & Hvpn).
  set (victimVA := fullVPN victim * 2 ^ offsetBits pt) in *.
  destruct (insertMapForVpn2Pfn_wf pt victimVA (-1) Hwf ltac:(lia))
    as (r1 & Hi1 & Hwf1).
  destruct (insertMapForVpn2Pfn_wf _ va (info_frameNumber victim) Hwf1
              ltac:(lia)) as (r2 & Hi2 & Hwf2).
  assert (fullVPN victim <> pageOf pt va) as Hne.
  { unfold findLoadedVPN in Hfind.
    destruct (findLoadedFrom_spec (loaded rs) (pageOf pt va) 0
                ltac:(lia) ltac:(lia)) as [[_ Hall]|(i & e & _ & _ & Hr)].
    - apply (Forall_lookup_1 _ _ _ _ Hall Hv).
    - lia. }
  exists victimVA, (set_rootLevel pt r1),
         (set_rootLevel (set_rootLevel pt r1) r2).
  split; [done|]. split; [done|]. split; [done|]. split; [done|].
  split; [done|]. split.
  - unfold ensureResidentPage. rewrite Hfind. simpl.
    destruct (Z.ltb_spec (Z.of_nat (length (loaded rs))) (maxFrames rs));
      [lia|].
    rewrite Hj, at_index_nat, Hv. simpl. rewrite Hshl. simpl.
    rewrite Hi1. simpl. rewrite Hi2. simpl. by rewrite Nat2Z.id.
  - split; [done|]. intros vb g Hvb. unfold pageOf in *.
    destruct (decide (vb / 2 ^ offsetBits pt = va / 2 ^ offsetBits pt))
      as [Heq|Hneq].
    + rewrite (mapped_insert_same _ va vb _ _ g Hwf1 Hva Hvb) by done.
      split; [intros [_ ->]; by left|].
      intros [[_ ->]|[? _]]; done.
    + rewrite (mapped_insert_other _ va vb _ _ g Hwf1 Hva Hvb)
        by (done || (simpl; congruence)).
      destruct (decide (vb / 2 ^ offsetBits pt = fullVPN victim))
        as [Heqv|Hneqv].
      * rewrite (mapped_insert_same _ victimVA vb _ _ g Hwf Hvar Hvb)
          by (done || congruence).
        split; [lia|]. intros [[? _]|(_ & ? & _)]; done.
      * rewrite (mapped_insert_other _ victimVA vb _ _ g Hwf Hvar Hvb)
          by (done || congruence).
        split; [by right|]. intros [[? _]|(_ & _ & ?)]; done.
Qed.

(** The allocation branch of [ensureResidentPage]. *)
Lemma ensureResidentPage_allocate pt rs va vpn :
  wf_table pt -> 0 <= va < 2 ^ 32 -> vpn = pageOf pt va ->
  Z.of_nat (length (loaded rs)) < 2 ^ 31 ->
  nextFreeFrame rs = Z.of_nat (length (loaded rs)) ->
  findLoadedVPN rs vpn = -1 ->
  Z.of_nat (length (loaded rs)) < maxFrames rs ->
  exists pt',
    insertMapForVpn2Pfn pt va (nextFreeFrame rs) = Some pt' /\
    wf_table pt' /\ offsetBits pt' = offsetBits pt /\
    ensureResidentPage pt rs va vpn =
    Some (mkFaultResult (nextFreeFrame rs) true false 0 0, pt',
          mkReplacementState (maxFrames rs) (bitstringInterval rs)
            (accessesSinceAging rs) (currentTime rs) (nextFreeFrame rs + 1)
            (loaded rs ++ [mkLoadedPageInfo vpn (nextFreeFrame rs) 32768
                                            (currentTime rs) true])) /\
    forall vb g, 0 <= vb < 2 ^ 32 ->
      mapped pt' vb g <->
      (pageOf pt vb = vpn /\ g = nextFreeFrame rs) \/
      (pageOf pt vb <> vpn /\ mapped pt vb g).
Proof.
  intros Hwf Hva -> Hlen Hnext Hfind Hroom.
  destruct (insertMapForVpn2Pfn_wf pt va (nextFreeFrame rs) Hwf ltac:(lia))
    as (r & Hi & Hwf').
  exists (set_rootLevel pt r).
  split; [done|]. split; [done|]. split; [done|]. split.
  - unfold ensureResidentPage. rewrite Hfind. simpl.
    destruct (Z.ltb_spec (Z.of_nat (length (loaded rs))) (maxFrames rs));
      [|lia].
    rewrite to_int_small by lia. rewrite Hi. simpl.
    rewrite wrap32_small; [done|]. change (2 ^ 31) with 2147483648 in Hlen.
    rewrite pow2_32. lia.
  - intros vb g Hvb. unfold pageOf in *.
    destruct (decide (vb / 2 ^ offsetBits pt = va / 2 ^ offsetBits pt))
      as [Heq|Hneq].
    + rewrite (mapped_insert_same _ va vb _ _ g Hwf Hva Hvb) by done.
      split; [intros [_ ->]; by left|].
      intros [[_ ->]|[? _]]; [lia|done].
    + rewrite (mapped_insert_other _ va vb _ _ g Hwf Hva Hvb) by done.
      split; [by right|]. intros [[? _]|[_ ?]]; done.
Qed.

(** *** Lists of resident keys *)

Lemma elem_of_insert_inv {A} (l : list A) j x y :
  y ∈ <[j:=x]> l -> y = x \/ y ∈ l.
Proof.
  intros Hy. apply list_elem_of_lookup in Hy as [i Hi].
  apply list_lookup_insert_Some in Hi as [(_ & -> & _)|[_ Hi]]; [by left|].
  right. by apply list_elem_of_lookup_2 in Hi.
Qed.

Lemma NoDup_insert_fresh {A} (l : list A) j x :
  NoDup l -> x ∉ l -> NoDup (<[j:=x]> l).
Proof.
  intros Hnd. revert j. induction Hnd as [|a l Ha Hnd IH]; intros j Hx.
  - destruct j; constructor.
  - apply not_elem_of_cons in Hx as [Hxa Hxl]. destruct j as [|j]; simpl.
    + by constructor.
    + constructor; [|by apply IH].
      intros Hin. apply elem_of_insert_inv in Hin as [->|Hin]; done.
Qed.

Lemma elem_of_insert_keyed (K : list (Z * Z)) j v f v' f' p g :
  NoDup K.*1 -> K !! j = Some (v, f) ->
  (p, g) ∈ <[j := (v', f')]> K <->
  (p = v' /\ g = f') \/ (p <> v /\ (p, g) ∈ K).
Proof.
  intros Hnd Hj. pose proof (lookup_lt_Some _ _ _ Hj) as Hlt. split.
  - intros Hin. apply list_elem_of_lookup in Hin as [i Hi].
    apply list_lookup_insert_Some in Hi as [(_ & [= <- <-] & _)|[Hne Hi]];
      [by left|].
    right. split; [|by apply list_elem_of_lookup_2 in Hi].
    intros ->. apply Hne.
    apply (NoDup_lookup K.*1 j i v Hnd).
    + by rewrite list_lookup_fmap, Hj.
    + by rewrite list_lookup_fmap, Hi.
  - intros [[-> ->]|[Hne Hin]].
    + by apply list_elem_of_insert.
    + apply list_elem_of_lookup in Hin as [i Hi].
      apply list_elem_of_lookup. exists i.
      rewrite list_lookup_insert_ne; [done|]. intros <-. congruence.
Qed.

Lemma residents_ok_length off K :
  1 <= off <= 32 -> residents_ok off K -> Z.of_nat (length K) <= 2 ^ 31.
Proof.
  intros Hoff (_ & Hnd & Hr).
  pose proof (distinct_bounded_length K.*1 (2 ^ (32 - off)) Hnd Hr) as H.
  rewrite length_fmap in H.
  pose proof (pow2_le_mono (32 - off) 31 ltac:(lia)).
  pose proof (pow2_pos (32 - off) ltac:(lia)). lia.
Qed.

Lemma residents_ok_snoc off K vpn :
  residents_ok off K -> vpn ∉ K.*1 -> 0 <= vpn < 2 ^ (32 - off) ->
  residents_ok off (K ++ [(vpn, Z.of_nat (length K))]) /\
  Z.of_nat (length K) < 2 ^ 31 \/ off < 1 \/ 32 < off.
Proof.
  intros (Hf & Hnd & Hr) Hfresh Hv.
  destruct (decide (1 <= off <= 32)) as [Hoff|]; [left|lia].
  assert (residents_ok off (K ++ [(vpn, Z.of_nat (length K))])) as Hok.
  { split; [|split].
    - rewrite fmap_app, length_app, Hf. simpl.
      replace (length K + 1)%nat with (S (length K)) by lia.
      by rewrite seqZ_S.
    - rewrite fmap_app. apply NoDup_app. split; [done|]. split.
      + intros x Hx. simpl. intros ->%list_elem_of_singleton. done.
      + apply NoDup_singleton.
    - rewrite fmap_app. apply Forall_app. split; [done|].
      by constructor. }
  split; [done|]. apply residents_ok_length in Hok; [|done].
  rewrite length_app in Hok. simpl in Hok. lia.
Qed.

Lemma residents_ok_replace off K j v f vpn :
  residents_ok off K -> K !! j = Some (v, f) -> vpn ∉ K.*1 ->
  0 <= vpn < 2 ^ (32 - off) ->
  residents_ok off (<[j := (vpn, f)]> K).
Proof.
  intros (Hf & Hnd & Hr) Hj Hfresh Hv. split; [|split].
  - rewrite list_fmap_insert, length_insert. simpl.
    rewrite list_insert_id; [done|]. by rewrite list_lookup_fmap, Hj.
  - rewrite list_fmap_insert. simpl. by apply NoDup_insert_fresh.
  - rewrite list_fmap_insert. simpl. by apply Forall_insert.
Qed.

(** ** The invariant of the main loop *)

Lemma tick_loaded rs :
  loaded (tickReplacementClock rs) = loaded rs \/
  loaded (tickReplacementClock rs) = ageEntry <$> loaded rs.
Proof. unfold tickReplacementClock. destruct (_ <=? _); simpl; auto. Qed.

Lemma tick_keys rs : keys (tickReplacementClock rs) = keys rs.
Proof.
  unfold keys. destruct (tick_loaded rs) as [->| ->]; [done|].
  apply map_ageEntry_keys.
Qed.

Lemma tick_length rs :
  length (loaded (tickReplacementClock rs)) = length (loaded rs).
Proof.
  destruct (tick_loaded rs) as [->| ->]; [done|]. by rewrite length_fmap.
Qed.

Lemma tick_bounds rs t :
  Forall (fun e => 0 <= ageBits e < 2 ^ 16 /\ 0 <= lastAccessTime e <= t)
         (loaded rs) ->
  Forall (fun e => 0 <= ageBits e < 2 ^ 16 /\ 0 <= lastAccessTime e <= t)
         (loaded (tickReplacementClock rs)).
Proof.
  intros Hall. destruct (tick_loaded rs) as [->| ->]; [done|].
  apply Forall_fmap. eapply Forall_impl; [exact Hall|].
  intros e [Ha Hl]. simpl. split; [|done].
  by apply (ageEntry_bits e Ha).
Qed.

Lemma resident_keys l vpn f :
  resident l vpn f <-> (vpn, f) ∈ residentKey <$> l.
Proof. done. Qed.

Lemma tick_inv t pt rs :
  state_inv t pt rs -> t < UINT_MAX ->
  state_inv (t + 1) pt (tickReplacementClock rs) /\
  Forall (fun e => lastAccessTime e < UINT_MAX)
         (loaded (tickReplacementClock rs)).
Proof.
  intros [Hwf Hoff Hmax Hbud Hnext Hres Hb [Ht Htr] Hcons] Hlt.
  pose proof (tick_fields rs) as (Hm & _ & Hn & Hc).
  pose proof (tick_bounds rs t Hb) as Hb'.
  split.
  - split; try done.
    + by rewrite Hm.
    + by rewrite Hm, tick_length.
    + by rewrite Hn, tick_length.
    + by rewrite tick_keys.
    + eapply Forall_impl; [exact Hb'|]. simpl. intros e ?. lia.
    + rewrite Hc, Ht. unfold UINT_MAX in *.
      rewrite wrap32_small by (rewrite pow2_32; lia). lia.
    + intros va f Hva. rewrite (Hcons va f Hva).
      unfold resident. fold (keys (tickReplacementClock rs)).
      by rewrite tick_keys.
  - eapply Forall_impl; [exact Hb'|]. simpl. intros e ?. lia.
Qed.

Lemma note_inv t pt rs vpn f :
  state_inv t pt rs -> state_inv t pt (noteFrameAccess rs vpn f).
Proof.
  intros [Hwf Hoff Hmax Hbud Hnext Hres Hb [Ht Htr] Hcons].
  assert (keys (noteFrameAccess rs vpn f) = keys rs) as Hk.
  { unfold keys. simpl. apply noteFrameAccessIn_keys. }
  assert (length (loaded (noteFrameAccess rs vpn f)) = length (loaded rs))
    as Hl.
  { rewrite <- (length_fmap residentKey). fold (keys (noteFrameAccess rs vpn f)).
    rewrite Hk. apply length_fmap. }
  split; try done.
  - by rewrite Hl.
  - by rewrite Hl.
  - by rewrite Hk.
  - simpl.
    apply (noteFrameAccessIn_bounds _ _ _ _
             (fun a l => 0 <= a < 2 ^ 16 /\ 0 <= l <= t)); [done|].
    intros a l [? ?]. lia.
  - intros va g Hva. rewrite (Hcons va g Hva).
    unfold resident. fold (keys (noteFrameAccess rs vpn f)) (keys rs).
    by rewrite Hk.
Qed.

(** The access note always finds its record when the pair is resident. *)
Lemma note_stamps rs vpn f :
  resident (loaded rs) vpn f ->
  Exists (fun e => fullVPN e = vpn /\ info_frameNumber e = f /\
                   lastAccessTime e = currentTime rs /\
                   accessedThisInterval e = true)
         (loaded (noteFrameAccess rs vpn f)).
Proof.
  intros Hres. apply list_elem_of_fmap in Hres as (e & He & Hin).
  inversion He; subst; clear He.
  destruct (noteFrameAccessIn_present (loaded rs) (currentTime rs)
              (fullVPN e) (info_frameNumber e)) as (i & e' & Hi & _ & _ & Hn).
  { apply Exists_exists. by exists e. }
  simpl. rewrite Hn. apply Exists_exists. eexists. split.
  - apply list_elem_of_insert. by apply lookup_lt_Some in Hi.
  - done.
Qed.

Lemma pageOf_range pt va :
  geometry pt -> 0 <= va < 2 ^ 32 ->
  0 <= pageOf pt va < 2 ^ (32 - offsetBits pt).
Proof.
  intros Hg Hva. pose proof (geometry_offset _ Hg) as [_ Ho].
  unfold pageOf. pose proof (pow2_pos (offsetBits pt) ltac:(lia)).
  split; [apply Z.div_pos; lia|].
  apply Z.div_lt_upper_bound; [lia|].
  rewrite <- Z.pow_add_r by lia.
  replace (offsetBits pt + (32 - offsetBits pt)) with 32 by lia. lia.
Qed.

Lemma key_in_keys rs j e :
  loaded rs !! j = Some e -> keys rs !! j = Some (fullVPN e, info_frameNumber e).
Proof. intros H. unfold keys. by rewrite list_lookup_fmap, H. Qed.

(** A miss in the page table means that the page has no record. *)
Lemma miss_not_resident t pt rs va :
  state_inv t pt rs -> 0 <= va < 2 ^ 32 ->
  searchMappedPfn pt va = Some (None, pt) ->
  (pageOf pt va ∉ (keys rs).*1) /\ findLoadedVPN rs (pageOf pt va) = -1.
Proof.
  intros [Hwf Hoff Hmax Hbud Hnext Hres Hb [Ht Htr] Hcons] Hva Hmiss.
  assert (pageOf pt va ∉ (keys rs).*1) as Hfresh.
  { intros Hin. apply list_elem_of_fmap in Hin as ([v f] & Hv & Hin).
    simpl in Hv. subst v.
    apply (Hcons va f Hva) in Hin as (m & Hm & _). congruence. }
  split; [done|].
  pose proof Hwf as [Hg _]. pose proof (geometry_offset _ Hg) as [_ Ho].
  pose proof (residents_ok_length (offsetBits pt) (keys rs) ltac:(lia) Hres)
    as Hlen.
  unfold keys in Hlen. rewrite length_fmap in Hlen.
  unfold findLoadedVPN.
  destruct (findLoadedFrom_spec (loaded rs) (pageOf pt va) 0
              ltac:(lia) ltac:(lia)) as [[? _]|(j & e & Hj & He & _)];
    [done|].
  exfalso. apply Hfresh. apply list_elem_of_fmap.
  exists (fullVPN e, info_frameNumber e). split; [done|].
  apply list_elem_of_lookup. exists j. by apply key_in_keys.
Qed.

(** Fault handling keeps the invariant, is always defined, and leaves the
    faulting page resident in the frame it returns. *)
Lemma fault_inv t pt rs va :
  state_inv t pt rs ->
  Forall (fun e => lastAccessTime e < UINT_MAX) (loaded rs) ->
  0 <= va < 2 ^ 32 ->
  searchMappedPfn pt va = Some (None, pt) ->
  exists res pt' rs',
    ensureResidentPage pt rs va (pageOf pt va) = Some (res, pt', rs') /\
    state_inv t pt' rs' /\ offsetBits pt' = offsetBits pt /\
    resident (loaded rs') (pageOf pt va) (pfn res) /\
    currentTime rs' = currentTime rs /\ maxFrames rs' = maxFrames rs.
Proof.
  intros Hinv Hlast Hva Hmiss.
  destruct (miss_not_resident _ _ _ _ Hinv Hva Hmiss) as [Hfresh Hfind].
  destruct Hinv as [Hwf Hoff Hmax Hbud Hnext Hres Hb [Ht Htr] Hcons].
  pose proof Hwf as [Hg _]. pose proof (geometry_offset _ Hg) as [_ Ho].
  pose proof (pageOf_range _ _ Hg Hva) as Hpr.
  pose proof (residents_ok_length (offsetBits pt) (keys rs) ltac:(lia) Hres)
    as Hlen.
  assert (length (keys rs) = length (loaded rs)) as Hkl
    by apply length_fmap.
  rewrite Hkl in Hlen.
  destruct (Z.lt_ge_cases (Z.of_nat (length (loaded rs))) (maxFrames rs))
    as [Hroom|Hfull].
  - (* a frame is still free *)
    destruct (residents_ok_snoc _ _ _ Hres Hfresh Hpr) as [[Hok Hl31]|?];
      [|lia].
    rewrite Hkl in Hok, Hl31.
    destruct (ensureResidentPage_allocate pt rs va _ Hwf Hva eq_refl
                Hl31 Hnext Hfind Hroom) as (pt' & Hins & Hwf' & Hoff' & He & Hm).
    eexists _, pt', _. split; [exact He|].
    assert (residentKey <$>
              (loaded rs ++ [mkLoadedPageInfo (pageOf pt va) (nextFreeFrame rs)
                               32768 (currentTime rs) true])
            = keys rs ++ [(pageOf pt va, Z.of_nat (length (loaded rs)))])
      as Hk.
    { rewrite fmap_app. simpl. unfold residentKey at 2. simpl.
      by rewrite Hnext. }
    split; [split|]; unfold keys; cbn [loaded maxFrames nextFreeFrame
                                       currentTime]; try done.
    + lia.
    + rewrite length_app. simpl. lia.
    + rewrite length_app. simpl. lia.
    + rewrite Hoff', Hk. done.
    + apply Forall_app. split; [done|]. constructor; [|done]. simpl.
      change (2 ^ 16) with 65536. lia.
    + intros vb g Hvb. rewrite (Hm vb g Hvb).
      replace (pageOf pt' vb) with (pageOf pt vb)
        by (unfold pageOf; by rewrite Hoff').
      rewrite resident_keys.
      rewrite Hk, elem_of_app, list_elem_of_singleton, (Hcons vb g Hvb).
      rewrite resident_keys. fold (keys rs). rewrite Hnext.
      split.
      * intros [[-> ->]|[_ ?]]; [by right|by left].
      * intros [Hin|[= -> ->]]; [|by left]. right. split; [|done].
        intros Heq. apply Hfresh. rewrite <- Heq.
        apply list_elem_of_fmap. by exists (pageOf pt vb, g).
    + split; [done|]. split; [|done].
      rewrite resident_keys, Hk. apply elem_of_app. right.
      apply list_elem_of_singleton. cbn [pfn]. by rewrite Hnext.
  - (* the budget is exhausted *)
    destruct (chooseVictimIndex_spec rs Hlen) as (j & victim & Hj & Hv & _).
    { destruct (loaded rs) as [|e l] eqn:El; [simpl in *; lia|].
      apply Exists_cons_hd.
      inversion Hb as [|?? [Ha _]]; subst. inversion Hlast; subst.
      unfold keyLt, UINT16_MAX. change (2 ^ 16) with 65536 in Ha. lia. }
    pose proof (key_in_keys _ _ _ Hj) as Hkj.
    destruct Hres as (Hfr & Hnd & Hrange).
    assert (info_frameNumber victim = Z.of_nat j) as Hfv.
    { assert ((keys rs).*2 !! j = Some (info_frameNumber victim)) as H
        by (by rewrite list_lookup_fmap, Hkj).
      rewrite Hfr in H. apply lookup_seqZ in H. lia. }
    assert (0 <= fullVPN victim < 2 ^ (32 - offsetBits pt)) as Hvr.
    { apply (Forall_lookup_1 _ _ j _ Hrange).
      by rewrite list_lookup_fmap, Hkj. }
    destruct (ensureResidentPage_evict pt rs va _ j victim Hwf Hva eq_refl
                Hlen Hfind Hfull Hv Hj Hvr ltac:(lia))
      as (vva & pt1 & pt2 & _ & _ & _ & Hwf2 & Hoff2 & He & Hne & Hm).
    eexists _, pt2, _. split; [exact He|].
    assert (residentKey <$>
              (<[j := mkLoadedPageInfo (pageOf pt va) (info_frameNumber victim)
                        32768 (currentTime rs) true]> (loaded rs))
            = <[j := (pageOf pt va, info_frameNumber victim)]> (keys rs))
      as Hk.
    { by rewrite list_fmap_insert. }
    split; [split|]; unfold keys; cbn [loaded maxFrames nextFreeFrame
                                       currentTime set_loaded]; try done.
    + lia.
    + by rewrite length_insert.
    + by rewrite length_insert.
    + rewrite Hoff2, Hk.
      by apply (residents_ok_replace _ _ _ (fullVPN victim)).
    + apply Forall_insert; [done|]. simpl. change (2 ^ 16) with 65536. lia.
    + intros vb g Hvb. rewrite (Hm vb g Hvb).
      replace (pageOf pt2 vb) with (pageOf pt vb)
        by (unfold pageOf; by rewrite Hoff2).
      rewrite resident_keys.
      rewrite Hk.
      rewrite (elem_of_insert_keyed _ _ _ _ _ _ _ _ Hnd Hkj).
      rewrite (Hcons vb g Hvb), resident_keys. fold (keys rs).
      split.
      * intros [[-> ->]|(? & ? & ?)]; [by left|by right].
      * intros [[-> ->]|[? Hin]]; [by left|]. right.
        split; [|done]. intros Heq. apply Hfresh. rewrite <- Heq.
        apply list_elem_of_fmap. by exists (pageOf pt vb, g).
    + split; [done|]. split; [|done].
      rewrite resident_keys, Hk.
      apply list_elem_of_insert. unfold keys. rewrite length_fmap.
      by apply lookup_lt_Some in Hj.
Qed.

Lemma composePhysicalAddress_defined pt f offset :
  geometry pt -> is_Some (composePhysicalAddress pt f offset).
Proof.
  intros Hg. pose proof (geometry_offset _ Hg) as [_ Ho].
  unfold composePhysicalAddress. rewrite shl32_defined by lia. by eexists.
Qed.

(** One iteration of the main loop: it is defined, it keeps the
    invariant, it reports a hit exactly for a resident page, and it leaves
    the record of the accessed page stamped with the new clock value. *)
Lemma processAddress_inv t st va :
  sim_inv t st -> t < UINT_MAX -> 0 <= va < 2 ^ 32 ->
  exists a st', processAddress st va = Some (a, st') /\
    sim_inv (t + 1) st' /\
    offsetBits (simTable st') = offsetBits (simTable st) /\
    maxFrames (simReplacement st') = maxFrames (simReplacement st) /\
    (accHit a = true <->
     exists f, resident (loaded (simReplacement st))
                        (pageOf (simTable st) va) f) /\
    Exists (fun e => fullVPN e = pageOf (simTable st) va /\
                     info_frameNumber e = pfn (accFault a) /\
                     lastAccessTime e = t + 1 /\
                     accessedThisInterval e = true)
           (loaded (simReplacement st')).
Proof.
  intros Hinv Hlt Hva. destruct st as [pt rs stats]. unfold sim_inv in *.
  simpl in *.
  destruct (tick_inv _ _ _ Hinv Hlt) as [Hinv1 Hlast].
  pose proof (inv_table _ _ _ Hinv) as Hwf. pose proof Hwf as [Hg _].
  destruct (searchMappedPfn_defined pt va Hwf ltac:(lia)) as (r & Hr & Hvalid).
  pose proof (tick_fields rs) as (Hmx & _ & _ & _).
  pose proof (proj1 (inv_time _ _ _ Hinv1)) as Htime.
  assert (forall f, resident (loaded (tickReplacementClock rs)) (pageOf pt va) f
                    <-> resident (loaded rs) (pageOf pt va) f) as Hsame.
  { intros f. rewrite !resident_keys.
    fold (keys (tickReplacementClock rs)) (keys rs). by rewrite tick_keys. }
  unfold processAddress. simpl. rewrite Hr. simpl.
  rewrite getFullVPN_defined by done. simpl. fold (pageOf pt va).
  destruct r as [m|].
  - (* page-table hit *)
    assert (resident (loaded (tickReplacementClock rs)) (pageOf pt va)
                     (frameNumber m)) as Hres.
    { apply (inv_consistent _ _ _ Hinv1 va _ Hva). by exists m. }
    simpl.
    destruct (composePhysicalAddress_defined pt (frameNumber m)
                (getOffsetFromVA pt va) Hg) as [pa ->].
    simpl. eexists _, _. split; [done|]. simpl.
    split; [by apply note_inv|]. split; [done|]. split; [done|]. split.
    + split; [|done]. intros _. exists (frameNumber m). by apply Hsame.
    + pose proof (note_stamps _ _ _ Hres) as Hst. rewrite Htime in Hst.
      exact Hst.
  - (* page-table miss *)
    destruct (fault_inv _ _ _ va Hinv1 Hlast Hva Hr)
      as (res & pt' & rs' & -> & Hinv' & Hoff' & Hres & Hct & Hmx').
    simpl.
    pose proof (inv_table _ _ _ Hinv') as [Hg' _].
    destruct (composePhysicalAddress_defined pt' (pfn res)
                (getOffsetFromVA pt' va) Hg') as [pa ->].
    simpl. eexists _, _. split; [done|]. simpl.
    split; [by apply note_inv|]. split; [done|]. split.
    + congruence.
    + split.
      * split; [done|]. intros [f Hf%Hsame].
        apply (inv_consistent _ _ _ Hinv1 va _ Hva) in Hf as (m & Hm & _).
        congruence.
      * pose proof (note_stamps _ _ _ Hres) as Hst.
        rewrite Hct, Htime in Hst. exact Hst.
Qed.

(** The whole loop, over any trace the 32-bit clock can count. *)
Lemma processTrace_inv o trace :
  forall t st,
  sim_inv t st -> t + Z.of_nat (length trace) <= UINT_MAX ->
  Forall (fun va => 0 <= va < 2 ^ 32) trace ->
  exists log st' t', processTrace o trace st = Some (log, st') /\
    sim_inv t' st' /\ t <= t' <= t + Z.of_nat (length trace) /\
    offsetBits (simTable st') = offsetBits (simTable st) /\
    maxFrames (simReplacement st') = maxFrames (simReplacement st).
Proof.
  induction trace as [|va trace IH]; intros t st Hinv Hlen Hall.
  - exists [], st, t. simpl.
    split; [done|]. split; [done|]. split; [lia|done].
  - simpl length in Hlen. simpl.
    destruct (haveLimitN o && (limitN o <=? addressesProcessed (simStats st))).
    { exists [], st, t. split; [done|]. split; [done|]. split; [lia|done]. }
    inversion Hall as [|?? Hva Hall']; subst.
    destruct (processAddress_inv t st va Hinv ltac:(lia) Hva)
      as (a & st1 & -> & Hinv1 & Hoff1 & Hmx1 & _).
    simpl.
    destruct (IH (t + 1) st1 Hinv1 ltac:(lia) Hall')
      as (log & st' & t' & -> & Hinv' & Ht' & Hoff' & Hmx').
    simpl. exists (a :: log), st', t'.
    split; [done|]. split; [done|]. split; [lia|]. split; congruence.
Qed.

Lemma createdTable_unmapped bits pt va f :
  validLevels bits ->
  createPageTable (Z.of_nat (length bits)) bits = Some pt ->
  0 <= va -> ~ mapped pt va f.
Proof.
  intros Hv Hc Hva (m & Hm & _).
  destruct (createPageTable_wf _ _ Hv Hc) as [[Hg Hwf] Hb].
  destruct (validLevels_head _ Hv) as (b0 & Hb0 & Hr).
  destruct (decide (b0 = 32)) as [->|Hne].
  - destruct Hg as (_ & Hlt & _). rewrite Hb in Hlt.
    pose proof (Forall_lookup_1 _ _ _ _ Hlt Hb0). simpl in *. lia.
  - rewrite (createPageTable_valid bits b0) in Hc by (done || lia).
    inversion Hc; subst pt; clear Hc.
    rewrite searchMappedPfn_walk in Hm by done. simpl levelBits in Hm.
    simpl rootLevel in Hm.
    destruct bits as [|x bits]; [done|]. simpl in Hb0.
    inversion Hb0; subst x.
    change 0 with (Z.of_nat 0) in Hm.
    rewrite (searchWalk_fresh _ va (length bits) 0 b0) in Hm; done.
Qed.

Lemma initial_inv bits o pt :
  validLevels bits -> sumZ bits <= 31 ->
  createPageTable (Z.of_nat (length bits)) bits = Some pt ->
  1 <= optMaxFrames o ->
  sim_inv 0 (initialSim pt o).
Proof.
  intros Hv Hsum Hc Hmax.
  destruct (createPageTable_wf _ _ Hv Hc) as [Hwf Hb].
  pose proof Hwf as [Hg _].
  pose proof (geometry_offset _ Hg) as [Ho _]. rewrite Hb in Ho.
  unfold sim_inv, initialSim. simpl. split; simpl; try done.
  - lia.
  - lia.
  - split; [done|]. split; [constructor|constructor].
  - intros va f Hva. split.
    + intros Hm. exfalso.
      apply (createdTable_unmapped bits pt va f Hv Hc); [lia|done].
    + intros Hr. unfold resident in Hr. simpl in Hr.
      by apply elem_of_nil in Hr.
Qed.

(** ** Worked configuration: levels of 4, 8 and 8 bits *)

Lemma exampleBits_valid : validLevels exampleBits.
Proof. by apply (bool_decide_unpack _). Qed.

Lemma exampleTable_created : createPageTable 3 exampleBits = Some exampleTable.
Proof. reflexivity. Qed.

Lemma exampleTable_wf : wf_table exampleTable.
Proof.
  apply (createdTable_wf exampleBits 4); [apply exampleBits_valid|done|lia].
Qed.

(** ** The round trip *)

Lemma insertAll_other_pages pt va others :
  wf_table pt -> 0 <= va < 2 ^ 32 ->
  Forall (fun op => 0 <= op.1 < 2 ^ 32 /\ pageOf pt op.1 <> pageOf pt va)
         others ->
  exists pt', insertAll pt others = Some pt' /\ wf_table pt' /\
    offsetBits pt' = offsetBits pt /\
    forall g, mapped pt' va g <-> mapped pt va g.
Proof.
  intros Hwf Hva Hall. revert pt Hwf Hall.
  induction others as [|[vb f] others IH]; intros pt Hwf Hall.
  - exists pt. by simpl.
  - inversion Hall as [|?? [Hvb Hne] Hall']; subst. simpl in Hvb, Hne.
    destruct (insertMapForVpn2Pfn_wf pt vb f Hwf ltac:(lia))
      as (r & Hins & Hwf1).
    simpl. rewrite Hins. simpl.
    destruct (IH (set_rootLevel pt r) Hwf1) as (pt' & -> & Hwf' & Hoff & Hm).
    { eapply Forall_impl; [exact Hall'|]. intros op Hop. exact Hop. }
    exists pt'. split; [done|]. split; [done|]. split; [done|].
    intros g. rewrite Hm.
    by apply (mapped_insert_other pt vb va f).
Qed.

(** C4 — Round trip.  On every well-formed table, for every address [va]
    and every frame number [f] (frames are the non-negative numbers, the
    negative ones are the unmapped sentinel), inserting [va -> f] and then
    translating [va] returns a valid mapping holding [f]; this stays true
    across any later inserts or invalidations that touch other pages. *)
Theorem insert_then_translate pt va f others :
  wf_table pt -> 0 <= va < 2 ^ 32 -> 0 <= f ->
  Forall (fun op => 0 <= op.1 < 2 ^ 32 /\ pageOf pt op.1 <> pageOf pt va)
         others ->
  exists pt1 pt2,
    insertMapForVpn2Pfn pt va f = Some pt1 /\
    insertAll pt1 others = Some pt2 /\
    searchMappedPfn pt2 va = Some (Some (mkMap f true), pt2).
Proof.
  intros Hwf Hva Hf Hall.
  destruct (insertMapForVpn2Pfn_wf pt va f Hwf ltac:(lia))
    as (r & Hins & Hwf1).
  destruct (insertAll_other_pages (set_rootLevel pt r) va others Hwf1 Hva Hall)
    as (pt2 & Hall2 & Hwf2 & Hoff & Hm).
  exists (set_rootLevel pt r), pt2. split; [done|]. split; [done|].
  assert (mapped pt2 va f) as (m & Hs & Hfm).
  { apply Hm. by apply (mapped_insert_same pt va va f). }
  destruct (searchMappedPfn_defined pt2 va Hwf2 ltac:(lia)) as (r' & Hr & Hv).
  rewrite Hs in Hr. inversion Hr; subst r'.
  destruct (Hv m eq_refl) as [Hvalid _]. rewrite Hs.
  destruct m as [fm vm]. simpl in *. by subst.
Qed.

Lemma insert_then_translate_witness :
  exists pt1 pt2,
    insertMapForVpn2Pfn exampleTable 4096 5 = Some pt1 /\
    insertAll pt1 [(0, 1); (8192, -1)] = Some pt2 /\
    searchMappedPfn pt2 4096 = Some (Some (mkMap 5 true), pt2).
Proof.
  apply (insert_then_translate exampleTable 4096 5 [(0, 1); (8192, -1)]).
  - exact exampleTable_wf.
  - rewrite pow2_32. lia.
  - lia.
  - repeat constructor; simpl; try (rewrite pow2_32; lia); discriminate.
Defined.

(** C9 — Translation has no side effect.  On every well-formed table and
    for every address the lookup is defined, hands back the very table it
    was given, and returns either nothing or a mapping that is valid and
    holds a non-negative frame. *)
Theorem translation_is_side_effect_free pt va :
  wf_table pt -> 0 <= va < 2 ^ 32 ->
  exists r, searchMappedPfn pt va = Some (r, pt) /\
    match r with
    | Some m => valid m = true /\ 0 <= frameNumber m
    | None => True
    end.
Proof.
  intros Hwf Hva.
  destruct (searchMappedPfn_defined pt va Hwf ltac:(lia)) as (r & Hr & Hv).
  exists r. split; [done|]. destruct r as [m|]; [|done]. by apply Hv.
Qed.

Lemma translation_is_side_effect_free_witness :
  exists r, searchMappedPfn exampleTable 4096 = Some (r, exampleTable) /\
    match r with
    | Some m => valid m = true /\ 0 <= frameNumber m
    | None => True
    end.
Proof.
  apply (translation_is_side_effect_free exampleTable 4096).
  - exact exampleTable_wf.
  - rewrite pow2_32. lia.
Defined.

(** ** The resident set along a run *)

Lemma residents_ok_distinct off rs :
  residents_ok off (keys rs) ->
  NoDup (info_frameNumber <$> loaded rs) /\ NoDup (fullVPN <$> loaded rs).
Proof.
  intros (Hf & Hnd & _). unfold keys in *.
  rewrite <- !list_fmap_compose in *. split.
  - change (NoDup ((snd ∘ residentKey) <$> loaded rs)). rewrite Hf.
    apply NoDup_seqZ.
  - exact Hnd.
Qed.

(** C5 — The resident set.  Start from the empty state of a table built
    for a valid configuration that leaves at least one offset bit (the
    driver admits at most 28 level bits) with a frame budget of at least
    one, and process any trace of 32-bit addresses that the 32-bit clock
    can count.  The run is defined, the number of resident records never
    exceeds the frame budget, and the frame numbers as well as the page
    numbers of the resident records are pairwise distinct.  As the trace
    is arbitrary, this holds after every processed address. *)
Theorem resident_set_invariant bits o trace pt :
  validLevels bits -> sumZ bits <= 31 ->
  createPageTable (Z.of_nat (length bits)) bits = Some pt ->
  1 <= optMaxFrames o ->
  Forall (fun va => 0 <= va < 2 ^ 32) trace ->
  Z.of_nat (length trace) <= UINT_MAX ->
  exists log st, processTrace o trace (initialSim pt o) = Some (log, st) /\
    let l := loaded (simReplacement st) in
    Z.of_nat (length l) <= optMaxFrames o /\
    NoDup (info_frameNumber <$> l) /\
    NoDup (fullVPN <$> l).
Proof.
  intros Hv Hsum Hc Hmax Hall Hlen.
  pose proof (initial_inv bits o pt Hv Hsum Hc Hmax) as Hinv.
  destruct (processTrace_inv o trace 0 _ Hinv ltac:(lia) Hall)
    as (log & st & t & Hrun & Hinv' & _ & _ & Hmx).
  exists log, st. split; [done|]. simpl in Hmx. cbn zeta.
  split; [|by apply (residents_ok_distinct _ _ (inv_residents _ _ _ Hinv'))].
  rewrite <- Hmx. apply (inv_budget _ _ _ Hinv').
Qed.

Lemma resident_set_invariant_witness :
  exists log st,
    processTrace (mkOptions 0 false 1 10 "summary") [0; 4096; 0; 8192]
                 (initialSim exampleTable (mkOptions 0 false 1 10 "summary"))
    = Some (log, st) /\
    let l := loaded (simReplacement st) in
    Z.of_nat (length l) <= 1 /\
    NoDup (info_frameNumber <$> l) /\
    NoDup (fullVPN <$> l).
Proof.
  apply (resident_set_invariant exampleBits
           (mkOptions 0 false 1 10 "summary") [0; 4096; 0; 8192] exampleTable).
  - exact exampleBits_valid.
  - simpl. lia.
  - reflexivity.
  - simpl. lia.
  - repeat (constructor; [rewrite pow2_32; lia|]). constructor.
  - unfold UINT_MAX. simpl. lia.
Defined.

(** C10 — Page table and resident set agree.  Under the assumptions of
    C5, after the trace and one more address: the iteration is defined; in
    the state it leaves, an address has a valid mapping to frame [f]
    exactly when a resident record holds its page in frame [f]; the
    iteration reported a hit exactly when the page had a resident record
    before it; the access note found its record, which now carries the
    current clock value and the accessed flag.  Moreover a note for a page
    and frame that no record holds changes nothing. *)
Theorem table_agrees_with_resident_set bits o trace va pt :
  validLevels bits -> sumZ bits <= 31 ->
  createPageTable (Z.of_nat (length bits)) bits = Some pt ->
  1 <= optMaxFrames o ->
  Forall (fun va => 0 <= va < 2 ^ 32) (trace ++ [va]) ->
  Z.of_nat (length (trace ++ [va])) <= UINT_MAX ->
  exists log st a st',
    processTrace o trace (initialSim pt o) = Some (log, st) /\
    processAddress st va = Some (a, st') /\
    (forall vb f, 0 <= vb < 2 ^ 32 ->
       mapped (simTable st') vb f <->
       resident (loaded (simReplacement st')) (pageOf (simTable st') vb) f) /\
    (accHit a = true <->
     exists f, resident (loaded (simReplacement st))
                        (pageOf (simTable st) va) f) /\
    Exists (fun e => fullVPN e = pageOf (simTable st) va /\
                     info_frameNumber e = pfn (accFault a) /\
                     lastAccessTime e = currentTime (simReplacement st') /\
                     accessedThisInterval e = true)
           (loaded (simReplacement st')) /\
    (forall rs vpn f, ~ resident (loaded rs) vpn f ->
                      noteFrameAccess rs vpn f = rs).
Proof.
  intros Hv Hsum Hc Hmax Hall Hlen.
  apply Forall_app in Hall as [Hall Hva]. inversion Hva as [|?? Hva' _]; subst.
  rewrite length_app in Hlen. simpl in Hlen.
  pose proof (initial_inv bits o pt Hv Hsum Hc Hmax) as Hinv.
  destruct (processTrace_inv o trace 0 _ Hinv ltac:(lia) Hall)
    as (log & st & t & Hrun & Hinv' & Ht & _ & _).
  destruct (processAddress_inv t st va Hinv' ltac:(lia) Hva')
    as (a & st' & Hstep & Hinv'' & _ & _ & Hhit & Hstamp).
  exists log, st, a, st'. split; [done|]. split; [done|].
  split; [apply (inv_consistent _ _ _ Hinv'')|]. split; [done|]. split.
  - rewrite (proj1 (inv_time _ _ _ Hinv'')). exact Hstamp.
  - intros rs vpn f Hnr. unfold noteFrameAccess.
    rewrite noteFrameAccessIn_absent; [by destruct rs|].
    apply Forall_forall. intros e He [Hv1 Hf1]. apply Hnr.
    apply list_elem_of_fmap. exists e. split; [|done].
    unfold residentKey. by rewrite Hv1, Hf1.
Qed.

Lemma table_agrees_with_resident_set_witness :
  exists log st a st',
    processTrace (mkOptions 0 false 1 10 "summary") [0; 4096]
                 (initialSim exampleTable (mkOptions 0 false 1 10 "summary"))
    = Some (log, st) /\
    processAddress st 4100 = Some (a, st') /\
    (forall vb f, 0 <= vb < 2 ^ 32 ->
       mapped (simTable st') vb f <->
       resident (loaded (simReplacement st')) (pageOf (simTable st') vb) f) /\
    (accHit a = true <->
     exists f, resident (loaded (simReplacement st))
                        (pageOf (simTable st) 4100) f) /\
    Exists (fun e => fullVPN e = pageOf (simTable st) 4100 /\
                     info_frameNumber e = pfn (accFault a) /\
                     lastAccessTime e = currentTime (simReplacement st') /\
                     accessedThisInterval e = true)
           (loaded (simReplacement st')) /\
    (forall rs vpn f, ~ resident (loaded rs) vpn f ->
                      noteFrameAccess rs vpn f = rs).
Proof.
  apply (table_agrees_with_resident_set exampleBits
           (mkOptions 0 false 1 10 "summary") [0; 4096] 4100 exampleTable).
  - exact exampleBits_valid.
  - simpl. lia.
  - reflexivity.
  - simpl. lia.
  - repeat (constructor; [rewrite pow2_32; lia|]). constructor.
  - unfold UINT_MAX. simpl. lia.
Defined.

(** ** Eviction *)

Lemma exampleTableAfter_wf : wf_table exampleTableAfter.
Proof.
  apply (insert_keeps_wf exampleTable 0 0);
    [exact exampleTable_wf|lia|reflexivity].
Qed.

(** C8 — Eviction.  On a miss for page [vpn] of address [va] with the
    frame budget exhausted, where the scan selects the record in slot [j]:
    the victim's mapping is invalidated at the address [victimVA], its page
    number shifted left by the offset width; the new page gets the victim's
    frame; the record in slot [j], and no other, is overwritten with the
    new page, the same frame, age 0x8000, the current clock value and the
    accessed flag; the new mapping is inserted; the caller receives the
    frame, the evicted page number and the victim's age as it was.
    Afterwards the new page translates to the reused frame, the evicted
    page translates to nothing, and every other page translates as
    before. *)
Theorem eviction_overwrites_victim_in_place pt rs va vpn j victim :
  wf_table pt -> 0 <= va < 2 ^ 32 -> vpn = pageOf pt va ->
  Z.of_nat (length (loaded rs)) <= 2 ^ 31 ->
  findLoadedVPN rs vpn = -1 ->
  maxFrames rs <= Z.of_nat (length (loaded rs)) ->
  chooseVictimIndex rs = Z.of_nat j -> loaded rs !! j = Some victim ->
  0 <= fullVPN victim < 2 ^ (32 - offsetBits pt) ->
  0 <= info_frameNumber victim ->
  exists victimVA pt1 pt2,
    shl32 (fullVPN victim) (offsetBits pt) = Some victimVA /\
    insertMapForVpn2Pfn pt victimVA (-1) = Some pt1 /\
    insertMapForVpn2Pfn pt1 va (info_frameNumber victim) = Some pt2 /\
    ensureResidentPage pt rs va vpn =
    Some (mkFaultResult (info_frameNumber victim) true true
                        (fullVPN victim) (ageBits victim),
          pt2,
          set_loaded rs
            (<[j := mkLoadedPageInfo vpn (info_frameNumber victim) 32768
                                     (currentTime rs) true]> (loaded rs))) /\
    forall vb g, 0 <= vb < 2 ^ 32 ->
      mapped pt2 vb g <->
      (pageOf pt vb = vpn /\ g = info_frameNumber victim) \/
      (pageOf pt vb <> vpn /\ pageOf pt vb <> fullVPN victim /\ mapped pt vb g).
Proof.
  intros Hwf Hva Hvpn Hlen Hfind Hfull Hj Hv Hvr Hf.
  destruct (ensureResidentPage_evict pt rs va vpn j victim Hwf Hva Hvpn Hlen
              Hfind Hfull Hj Hv Hvr Hf)
    as (vva & pt1 & pt2 & H1 & H2 & H3 & _ & _ & H4 & _ & H5).
  by exists vva, pt1, pt2.
Qed.

Lemma eviction_overwrites_victim_in_place_witness :
  exists victimVA pt1 pt2,
    shl32 0 12 = Some victimVA /\
    insertMapForVpn2Pfn exampleTableAfter victimVA (-1) = Some pt1 /\
    insertMapForVpn2Pfn pt1 4096 0 = Some pt2 /\
    ensureResidentPage exampleTableAfter exampleFullState 4096 1 =
    Some (mkFaultResult 0 true true 0 32768, pt2,
          set_loaded exampleFullState
            [mkLoadedPageInfo 1 0 32768 2 true]) /\
    forall vb g, 0 <= vb < 2 ^ 32 ->
      mapped pt2 vb g <->
      (pageOf exampleTableAfter vb = 1 /\ g = 0) \/
      (pageOf exampleTableAfter vb <> 1 /\ pageOf exampleTableAfter vb <> 0 /\
       mapped exampleTableAfter vb g).
Proof.
  apply (eviction_overwrites_victim_in_place exampleTableAfter
           exampleFullState 4096 1 0 (mkLoadedPageInfo 0 0 32768 1 true)).
  - exact exampleTableAfter_wf.
  - rewrite pow2_32. lia.
  - reflexivity.
  - simpl. lia.
  - reflexivity.
  - simpl. lia.
  - reflexivity.
  - reflexivity.
  - simpl. lia.
  - simpl. lia.
Defined.

(** ** Aging decay *)

Lemma ageEntry_agedFrom e : 0 <= ageBits e < 2 ^ 16 -> agedFrom e (ageEntry e).
Proof.
  intros Hr. destruct (ageEntry_bits e Hr) as (H15 & Hlow & Hrange).
  destruct (ageEntry_value e Hr) as [Hval _].
  repeat split; try done; try apply Hrange.
  intros Hno. rewrite Hval, Hno. lia.
Qed.

Lemma aged_list l :
  Forall (fun e => 0 <= ageBits e < 2 ^ 16) l ->
  Forall2 agedFrom l (ageEntry <$> l).
Proof.
  intros Hall. apply Forall2_fmap_r. apply Forall_Forall2_diag.
  eapply Forall_impl; [exact Hall|]. intros e He. by apply ageEntry_agedFrom.
Qed.

(** C7 — Aging decay.  In a state whose counter is below the interval, a
    clock tick advances the counter; it ages the records exactly when the
    counter thereby reaches the interval, and then resets the counter to
    zero.  Aging a record shifts its 16-bit age right by one, sets bit 15
    exactly when the record was accessed in the interval, clears the
    accessed flag and touches nothing else; for a record that was not
    accessed the new age is the old one shifted right, bit 15 clear.
    Consequently the ticks that complete an interval age every record
    exactly once. *)
Theorem aging_fires_when_counter_reaches_interval rs :
  0 <= accessesSinceAging rs < bitstringInterval rs ->
  bitstringInterval rs <= UINT_MAX ->
  Forall (fun e => 0 <= ageBits e < 2 ^ 16) (loaded rs) ->
  let rs' := tickReplacementClock rs in
  (accessesSinceAging rs + 1 <> bitstringInterval rs ->
   accessesSinceAging rs' = accessesSinceAging rs + 1 /\
   loaded rs' = loaded rs) /\
  (accessesSinceAging rs + 1 = bitstringInterval rs ->
   accessesSinceAging rs' = 0 /\ Forall2 agedFrom (loaded rs) (loaded rs')) /\
  (forall k, accessesSinceAging rs + Z.of_nat (S k) = bitstringInterval rs ->
   let rs'' := Nat.iter (S k) tickReplacementClock rs in
   accessesSinceAging rs'' = 0 /\
   Forall2 agedFrom (loaded rs) (loaded rs'')).
Proof.
  intros Hc Hi Hall. cbn zeta.
  destruct (tick_counter rs Hc Hi) as [Hat Hbelow].
  split; [exact Hbelow|]. split.
  - intros Heq. destruct (Hat Heq) as [-> ->]. split; [done|].
    by apply aged_list.
  - intros k Hk.
    destruct (ticks_to_interval k rs ltac:(lia) Hk Hi) as (-> & -> & _).
    split; [done|]. by apply aged_list.
Qed.

Lemma aging_fires_when_counter_reaches_interval_witness :
  let rs' := tickReplacementClock exampleAgingState in
  (9 + 1 <> 10 ->
   accessesSinceAging rs' = 9 + 1 /\ loaded rs' = loaded exampleAgingState) /\
  (9 + 1 = 10 ->
   accessesSinceAging rs' = 0 /\
   Forall2 agedFrom (loaded exampleAgingState) (loaded rs')) /\
  (forall k, 9 + Z.of_nat (S k) = 10 ->
   let rs'' := Nat.iter (S k) tickReplacementClock exampleAgingState in
   accessesSinceAging rs'' = 0 /\
   Forall2 agedFrom (loaded exampleAgingState) (loaded rs'')).
Proof.
  apply (aging_fires_when_counter_reaches_interval exampleAgingState).
  - simpl. lia.
  - unfold UINT_MAX. simpl. lia.
  - repeat (constructor; [simpl; lia|]). constructor.
Defined.

(** ** The full-width level *)



(** ** Configuration checks *)

Lemma to_unsigned_nonneg v : 0 <= v < 2 ^ 31 -> to_unsigned v = v.
Proof.
  intros H. unfold to_unsigned. apply wrap32_small.
  change (2 ^ 31) with 2147483648 in H. rewrite pow2_32. lia.
Qed.

Lemma parseOptions_spec opts o :
  Forall (fun x => 0 <= optionValue x < 2 ^ 31) opts ->
  (Forall optionAccepted opts /\ exists o', parseOptions opts o = inr o') \/
  (~ Forall optionAccepted opts /\ exists e, parseOptions opts o = inl e).
Proof.
  intros Hall. revert o.
  induction Hall as [|x opts Hx Hall IH]; intros o.
  - left. split; [constructor|by eexists].
  - destruct x as [v|v|v|mode|]; simpl in Hx; simpl;
      try rewrite (to_unsigned_nonneg v Hx).
    1-3: destruct (Z.ltb_spec v 1);
      [right; split; [intros Hf; inversion Hf; subst; simpl in *; lia
                     |by eexists]
      |match goal with |- context [parseOptions _ ?o1] =>
         destruct (IH o1) as [[Hok He]|[Hno He]] end;
       [left; split; [constructor; [simpl; lia|done]|done]
       |right; split; [intros Hf; inversion Hf; subst; done|done]]].
    + destruct (IH (mkOptions (limitN o) (haveLimitN o) (optMaxFrames o)
                              (optBitInterval o) mode))
        as [[Hok He]|[Hno He]].
      * left. split; [by constructor|done].
      * right. split; [intros Hf; inversion Hf; subst; done|done].
    + right. split; [intros Hf; inversion Hf; subst; done|by eexists].
Qed.

Lemma collectLevelBits_spec args tempBits lc s :
  Forall (fun b => 0 <= b < 2 ^ 31) args ->
  0 <= lc -> lc + Z.of_nat (length args) <= 32 ->
  0 <= s -> s + sumZ args < 2 ^ 32 ->
  (Forall (fun b => 1 <= b) args /\
   collectLevelBits args tempBits lc s =
   Some (inr (tempBits ++ args, lc + Z.of_nat (length args), s + sumZ args)))
  \/
  (~ Forall (fun b => 1 <= b) args /\
   exists e, collectLevelBits args tempBits lc s = Some (inl e)).
Proof.
  intros Hall. revert tempBits lc s.
  induction Hall as [|b args Hb Hall IH]; intros tempBits lc s Hlc Hlen Hs Hsum.
  - left. split; [constructor|]. simpl.
    by rewrite app_nil_r, !Z.add_0_r.
  - simpl length in Hlen. simpl sumZ in Hsum. simpl.
    rewrite (to_unsigned_nonneg b Hb).
    destruct (Z.ltb_spec b 1).
    + right. split; [|by eexists]. intros Hf. inversion Hf; subst; lia.
    + destruct (Z.leb_spec 32 lc); [lia|].
      assert (0 <= sumZ args).
      { clear -Hall. induction Hall; simpl; lia. }
      rewrite (wrap32_small (lc + 1)) by (rewrite pow2_32; lia).
      rewrite (wrap32_small (s + b)) by (rewrite pow2_32 in *; lia).
      destruct (IH (tempBits ++ [b]) (lc + 1) (s + b))
        as [[Hok ->]|[Hno He]]; try lia.
      * left. split; [by constructor|].
        rewrite <- app_assoc. simpl.
        replace (lc + 1 + Z.of_nat (length args))
          with (lc + Z.pos (Pos.of_succ_nat (length args))) by lia.
        replace (s + b + sumZ args) with (s + (b + sumZ args)) by lia.
        done.
      * right. split; [|done]. intros Hf. inversion Hf; subst. done.
Qed.

(** C2 — Configuration checks, as the driver makes them.  For a command
    line that names a readable trace and at least one and at most 32 level
    widths, all numbers being non-negative as [atoi] read them and the
    widths not summing beyond the range of [unsigned int]: the checks are
    defined and either reject the command line as fatal or accept it, and
    they accept it exactly when every numeric option (frame budget, aging
    interval, access limit) is at least one, no option is unknown, every
    level width is at least one and the widths sum to at most 28.  The
    accepted configuration holds the widths as given. *)
Theorem configuration_accepted_iff_well_formed opts levels :
  Forall (fun x => 0 <= optionValue x < 2 ^ 31) opts ->
  Forall (fun b => 0 <= b < 2 ^ 31) levels ->
  (1 <= length levels <= 32)%nat ->
  sumZ levels < 2 ^ 32 ->
  let r := checkConfiguration opts TraceOpened levels in
  (rejected r \/ accepted r) /\
  (accepted r <->
   Forall optionAccepted opts /\ Forall (fun b => 1 <= b) levels /\
   sumZ levels <= 28) /\
  (forall c, r = Some (inr c) ->
     cfgLevelBits c = levels /\ cfgLevelCount c = Z.of_nat (length levels)).
Proof.
  intros Hopts Hlev Hlen Hsum. cbn zeta. unfold checkConfiguration.
  destruct (parseOptions_spec opts defaultOptions Hopts)
    as [[Hok [o' ->]]|[Hno [e ->]]].
  2:{ split; [left; by eexists|]. split.
      - split; [by intros [c ?]|by intros [? _]].
      - done. }
  destruct levels as [|b levels]; [simpl in Hlen; lia|].
  destruct (collectLevelBits_spec (b :: levels) [] 0 0 Hlev
              ltac:(lia) ltac:(lia) ltac:(lia) ltac:(lia))
    as [[Hpos ->]|[Hnpos [e ->]]].
  2:{ split; [left; by eexists|]. split.
      - split; [by intros [c ?]|by intros (_ & ? & _)].
      - done. }
  simpl mbind. cbn [option_bind app]. rewrite !Z.add_0_l.
  change (sumZ (b :: levels)) with (b + sumZ levels) in *.
  destruct (Z.ltb_spec 28 (b + sumZ levels)).
  - split; [left; by eexists|]. split.
    + split; [by intros [c ?]|intros (_ & _ & ?); lia].
    + done.
  - split; [right; by eexists|]. split.
    + split; [done|]. intros _. by eexists.
    + intros c [= <-]. done.
Qed.

Lemma configuration_accepted_iff_well_formed_witness :
  let r := checkConfiguration [OptF 2; OptB 5] TraceOpened [4; 8; 8] in
  (rejected r \/ accepted r) /\
  (accepted r <->
   Forall optionAccepted [OptF 2; OptB 5] /\
   Forall (fun b => 1 <= b) [4; 8; 8] /\ sumZ [4; 8; 8] <= 28) /\
  (forall c, r = Some (inr c) ->
     cfgLevelBits c = [4; 8; 8] /\ cfgLevelCount c = Z.of_nat 3).
Proof.
  apply (configuration_accepted_iff_well_formed [OptF 2; OptB 5] [4; 8; 8]).
  - repeat (constructor; [simpl; lia|]). constructor.
  - repeat (constructor; [simpl; lia|]). constructor.
  - simpl. lia.
  - simpl. lia.
Defined.

(** The widths 29 to 32 fit the address and are rejected all the same. *)
Lemma configuration_of_29_bits_rejected :
  validLevels [29] /\
  1 <= optMaxFrames defaultOptions /\ 1 <= optBitInterval defaultOptions /\
  checkConfiguration [] TraceOpened [29] = Some (inl TooManyBits).
Proof.
  split; [|repeat split; (reflexivity || (simpl; unfold UINT_MAX; lia))].
  split; [discriminate|]. split; [repeat constructor; lia|simpl; lia].
Qed.

(** The checks compare after the conversion to [unsigned int]: a negative
    frame budget passes as a huge one. *)
Lemma negative_frame_budget_accepted :
  checkConfiguration [OptF (-5)] TraceOpened [4; 8; 8] =
  Some (inr (mkConfig (mkOptions 0 false 4294967291 10 "summary") 3 [4; 8; 8])).
Proof. reflexivity. Qed.

(** ** The census of the trie *)

Lemma sumZ_bounds (l : list Z) m :
  Forall (fun x => 0 <= x <= m) l ->
  0 <= sumZ l <= Z.of_nat (length l) * m.
Proof.
  induction 1 as [|x l Hx Hall IH]; simpl sumZ; simpl length; [lia|].
  nia.
Qed.

Lemma sumZ_nonneg0 (l : list Z) : Forall (fun x => 0 <= x) l -> 0 <= sumZ l.
Proof. induction 1; simpl; lia. Qed.

Lemma countChildSlots_spec arr s :
  0 <= s -> s + sumZ (slotUnit <$> arr) < 2 ^ 32 ->
  countChildSlots (length arr) arr s = Some (s + sumZ (slotUnit <$> arr)).
Proof.
  revert s. induction arr as [|slot arr IH]; intros s Hs Hlt.
  - simpl. by rewrite Z.add_0_r.
  - rewrite fmap_cons in *. simpl sumZ in *. simpl.
    assert (0 <= sumZ (slotUnit <$> arr)).
    { apply sumZ_nonneg0, Forall_fmap, Forall_forall.
      intros [c|] _; simpl; lia. }
    destruct slot as [c|]; simpl in *.
    + rewrite wrap32_small by lia. rewrite IH by lia. f_equal. lia.
    + rewrite IH by lia. done.
Qed.

Lemma sumOverChildren_spec count (g : Level -> Z) arr s :
  Forall (fun slot => match slot with
                      | Some c => count c = Some (g c) /\ 0 <= g c
                      | None => True
                      end) arr ->
  0 <= s -> s + sumZ (slotCount g <$> arr) < 2 ^ 32 ->
  sumOverChildren count (length arr) arr s =
  Some (s + sumZ (slotCount g <$> arr)).
Proof.
  intros Hall. revert s.
  induction Hall as [|slot arr Hslot Hall IH]; intros s Hs Hlt.
  - simpl. by rewrite Z.add_0_r.
  - rewrite fmap_cons in *. simpl sumZ in *. simpl.
    assert (0 <= sumZ (slotCount g <$> arr)).
    { apply sumZ_nonneg0, Forall_fmap. eapply Forall_impl; [exact Hall|].
      intros [c|]; simpl; [intros [_ ?]; done|done]. }
    destruct slot as [c|]; simpl in *.
    + destruct Hslot as [-> Hg]. simpl.
      rewrite wrap32_small by lia. rewrite IH by lia. f_equal. lia.
    + rewrite Z.add_0_r, (wrap32_small s) by lia.
      rewrite IH by lia. done.
Qed.

Lemma sumZ_units_split (g : Level -> Z) (arr : list (option Level)) :
  sumZ (slotCount (fun c => 1 + g c) <$> arr) =
  sumZ (slotUnit <$> arr) + sumZ (slotCount g <$> arr).
Proof.
  induction arr as [|[c|] arr IH]; [done|..]; rewrite !fmap_cons;
    simpl sumZ; simpl slotCount; simpl slotUnit; lia.
Qed.

Lemma bitsFrom_step pt d b :
  levelBits pt !! d = Some b -> bitsFrom pt d = b + bitsFrom pt (S d).
Proof.
  intros Hb. unfold bitsFrom. by rewrite (drop_S _ _ _ Hb).
Qed.

Lemma bitsFrom_end pt d :
  (length (levelBits pt) <= d)%nat -> bitsFrom pt d = 0.
Proof. intros H. unfold bitsFrom. by rewrite drop_ge. Qed.

(** The census of a well-formed node stays well below two to the number of
    bits of its levels plus one. *)
Lemma census_bound pt n d lvl :
  geometry pt -> wf_level pt n d lvl ->
  (d + n = length (levelBits pt))%nat ->
  0 <= census entryCount n lvl <= 2 ^ (bitsFrom pt d + 1) - 2.
Proof.
  intros Hg. revert d lvl.
  induction n as [|n IH]; intros d lvl Hwf Hd; [done|].
  destruct (wf_level_arrays _ _ _ _ Hwf) as (b & Hb & He & Hl & Hc).
  destruct (geometry_shift _ _ _ Hg Hb) as (Hbr & _).
  rewrite (bitsFrom_step _ _ _ Hb).
  destruct n as [|n].
  - rewrite bitsFrom_end by lia. simpl. rewrite He, Z.add_0_r.
    rewrite Z.pow_add_r by lia. change (2 ^ 1) with 2.
    assert (2 <= 2 ^ b) by (change 2 with (2 ^ 1) at 1; apply pow2_le_mono; lia).
    destruct (mapArray lvl); lia.
  - change (census entryCount (S (S n)) lvl) with
      (match nextLevelArray lvl with
       | None => 0
       | Some arr =>
           sumZ (slotCount (fun c => 1 + census entryCount (S n) c) <$> arr)
       end).
    assert (0 <= bitsFrom pt (S d)) as Hnn.
    { unfold bitsFrom. apply sumZ_nonneg. apply Forall_drop. apply Hg. }
    assert (2 <= 2 ^ b) by (change 2 with (2 ^ 1) at 1; apply pow2_le_mono; lia).
    pose proof (pow2_pos (bitsFrom pt (S d) + 1) ltac:(lia)) as Hp.
    assert (2 ^ (b + bitsFrom pt (S d) + 1) =
            2 ^ b * 2 ^ (bitsFrom pt (S d) + 1)) as Hpow.
    { rewrite <- Z.pow_add_r by lia. f_equal. lia. }
    destruct Hwf as (_ & _ & _ & Hnext). unfold childArray in Hc.
    destruct (nextLevelArray lvl) as [arr|]; [|nia].
    destruct Hnext as [_ Hall].
    pose proof (sumZ_bounds
      (slotCount (fun c => 1 + census entryCount (S n) c) <$> arr)
      (2 ^ (bitsFrom pt (S d) + 1) - 1)) as Hsb.
    rewrite length_fmap, Hc in Hsb.
    rewrite Z2Nat.id in Hsb by lia.
    rewrite Hpow.
    assert (Forall (fun x => 0 <= x <= 2 ^ (bitsFrom pt (S d) + 1) - 1)
              (slotCount (fun c => 1 + census entryCount (S n) c) <$> arr))
      as Hf.
    { apply Forall_fmap. eapply Forall_impl; [exact Hall|].
      intros [c|] Hcw; cbn [slotCount compose]; [|lia].
      pose proof (IH (S d) c Hcw ltac:(lia)). lia. }
    specialize (Hsb Hf). nia.
Qed.

Lemma census_interior leafUnits n lvl :
  census leafUnits (S (S n)) lvl =
  match nextLevelArray lvl with
  | None => 0
  | Some arr =>
      sumZ (slotCount (fun c => 1 + census leafUnits (S n) c) <$> arr)
  end.
Proof. done. Qed.

(** On a well-formed node the summary's counting function is defined and
    returns the census that counts every allocated terminal array with its
    full capacity. *)
Lemma countEntriesRecursiveLocal_census pt n d lvl :
  geometry pt -> 1 <= offsetBits pt -> wf_level pt n d lvl ->
  (d + n = length (levelBits pt))%nat ->
  countEntriesRecursiveLocal pt lvl = Some (census entryCount n lvl).
Proof.
  intros Hg Hoff. revert d lvl.
  induction n as [|n IH]; intros d lvl Hwf Hd; [done|].
  pose proof (census_bound pt (S n) d lvl Hg Hwf Hd) as Hbound.
  assert (2 ^ (bitsFrom pt d + 1) <= 2 ^ 32) as Hcap.
  { apply pow2_le_mono. pose proof (geometry_offset _ Hg) as [Ho _].
    assert (0 <= bitsFrom pt d <= sumZ (levelBits pt)); [|lia].
    unfold bitsFrom. split.
    - apply sumZ_nonneg, Forall_drop, Hg.
    - rewrite <- (take_drop d (levelBits pt)) at 2. rewrite sumZ_app.
      assert (0 <= sumZ (take d (levelBits pt))); [|lia].
      apply sumZ_nonneg, Forall_take, Hg. }
  destruct (wf_level_arrays _ _ _ _ Hwf) as (b & Hb & He & Hl & Hc).
  pose proof Hwf as (Hdep & _ & _ & Hnext).
  destruct lvl as [dp ec nla ma]. simpl in Hdep, He, Hnext. subst dp.
  simpl countEntriesRecursiveLocal.
  rewrite geometry_leaf by (done || lia).
  destruct n as [|n].
  - rewrite bool_decide_true by lia. simpl. by destruct ma.
  - rewrite bool_decide_false by lia. rewrite census_interior in *.
    simpl nextLevelArray in *. destruct nla as [arr|]; [|done].
    destruct Hnext as [Hlen Hall]. rewrite <- Hlen.
    rewrite sumZ_units_split in *.
    assert (0 <= sumZ (slotUnit <$> arr)).
    { apply sumZ_nonneg0, Forall_fmap, Forall_forall.
      intros [c|] _; simpl; lia. }
    assert (Forall (fun slot => match slot with
              | Some c => countEntriesRecursiveLocal pt c
                          = Some (census entryCount (S n) c)
                          /\ 0 <= census entryCount (S n) c
              | None => True
              end) arr) as Hchildren.
    { eapply Forall_impl; [exact Hall|]. intros [c|] Hcw; [|done].
      split; [apply (IH (S d)); [done|lia]|].
      pose proof (census_bound pt (S n) (S d) c Hg Hcw ltac:(lia)). lia. }
    assert (0 <= sumZ (slotCount (census entryCount (S n)) <$> arr)).
    { apply sumZ_nonneg0, Forall_fmap. eapply Forall_impl; [exact Hchildren|].
      intros [c|]; simpl; [intros [_ ?]; done|done]. }
    rewrite countChildSlots_spec by lia. simpl.
    rewrite (sumOverChildren_spec _ (census entryCount (S n))) by (done || lia).
    by rewrite Z.add_0_l.
Qed.

Lemma pathAllocated_interior pt va n d lvl :
  pathAllocated pt va (S (S n)) d lvl <->
  exists arr c, nextLevelArray lvl = Some arr /\
    arr !! Z.to_nat (levelIndex pt va d) = Some (Some c) /\
    pathAllocated pt va (S n) (S d) c.
Proof. done. Qed.

Lemma insertWalk_allocates pt va f n d lvl lvl' :
  geometry pt -> 0 <= va -> wf_level pt n d lvl ->
  (d + n = length (levelBits pt))%nat ->
  insertWalk pt va f n (Z.of_nat d) lvl = Some lvl' ->
  pathAllocated pt va n d lvl'.
Proof.
  intros Hg Hva. revert d lvl lvl'.
  induction n as [|n IH]; intros d lvl lvl' Hwf Hd Hins; [done|].
  destruct (wf_level_arrays _ _ _ _ Hwf) as (b & Hb & He & Hl & Hc).
  destruct (walk_step _ va _ _ Hg Hva Hb) as (_ & _ & _ & Hr).
  destruct n as [|n].
  - rewrite insertWalk_leaf in Hins by (done || lia).
    inversion Hins; subst. simpl. by eexists.
  - rewrite insertWalk_interior in Hins by (done || lia).
    destruct (lookup_lt_is_Some_2 (levelBits pt) (S d)) as [b' Hb']; [lia|].
    pose proof (wf_level_childAt _ _ _ _ (levelIndex pt va d) _ Hwf Hb') as Hch.
    destruct (insertWalk pt va f (S n) _ _) as [c'|] eqn:Ec; [|done].
    simpl in Hins. inversion Hins; subst; clear Hins.
    apply pathAllocated_interior.
    eexists _, c'. split; [done|].
    split; [by rewrite list_lookup_insert_eq by lia|].
    by apply (IH (S d) _ _ Hch ltac:(lia)).
Qed.

Lemma pathAllocated_same_prefix pt va vb n d lvl :
  (d + n = length (levelBits pt))%nat ->
  (forall k, (d <= k)%nat -> (S k < length (levelBits pt))%nat ->
             levelIndex pt vb k = levelIndex pt va k) ->
  pathAllocated pt va n d lvl -> pathAllocated pt vb n d lvl.
Proof.
  revert d lvl. induction n as [|n IH]; intros d lvl Hd Hsame Hpa; [done|].
  destruct n as [|n]; [done|].
  apply pathAllocated_interior in Hpa as (arr & c & Ha & Hc & Hpa).
  apply pathAllocated_interior. exists arr, c. split; [done|].
  split; [by rewrite Hsame by lia|].
  apply IH; [lia| |done]. intros k Hk1 Hk2. apply Hsame; lia.
Qed.

(** An insert along a path that is already allocated adds nothing to the
    census that counts terminal arrays with their capacity. *)
Lemma census_insert_allocated pt vb g n d lvl lvl' :
  geometry pt -> 0 <= vb -> wf_level pt n d lvl ->
  (d + n = length (levelBits pt))%nat ->
  pathAllocated pt vb n d lvl ->
  insertWalk pt vb g n (Z.of_nat d) lvl = Some lvl' ->
  census entryCount n lvl' = census entryCount n lvl.
Proof.
  intros Hg Hvb. revert d lvl lvl'.
  induction n as [|n IH]; intros d lvl lvl' Hwf Hd Hpa Hins; [done|].
  destruct (wf_level_arrays _ _ _ _ Hwf) as (b & Hb & He & Hl & Hc).
  destruct n as [|n].
  - rewrite insertWalk_leaf in Hins by (done || lia).
    inversion Hins; subst. simpl in *. by destruct Hpa as [arr ->].
  - rewrite insertWalk_interior in Hins by (done || lia).
    apply pathAllocated_interior in Hpa as (arr & c & Ha & Hlk & Hpa).
    assert (childAt pt lvl d (levelIndex pt vb d) = c) as Hchild.
    { unfold childAt, childArray. by rewrite Ha, Hlk. }
    rewrite Hchild in Hins. clear Hchild.
    destruct (insertWalk pt vb g (S n) _ c) as [c'|] eqn:Ec; [|done].
    simpl in Hins. injection Hins as <-.
    rewrite !census_interior. simpl nextLevelArray.
    unfold childArray. rewrite Ha.
    rewrite list_fmap_insert. rewrite list_insert_id; [done|].
    rewrite list_lookup_fmap, Hlk. simpl. do 2 f_equal.
    symmetry. apply (IH (S d) c c'); try done; try lia.
    destruct Hwf as (_ & _ & _ & Hnext). rewrite Ha in Hnext.
    destruct Hnext as [_ Hall]. apply (Forall_lookup_1 _ _ _ _ Hall Hlk).
Qed.

Lemma sumZ_single_slot (h : option Level -> Z) m i x :
  h None = 0 -> (i < m)%nat ->
  sumZ (h <$> <[i := x]> (replicate m None)) = h x.
Proof.
  intros Hn. revert i. induction m as [|m IH]; intros i Hi; [lia|].
  destruct i as [|i]; simpl.
  - rewrite fmap_replicate, Hn.
    assert (sumZ (replicate m 0) = 0) as ->; [|lia].
    clear. induction m; simpl; lia.
  - rewrite Hn, IH by lia. lia.
Qed.

(** An insert into a node that was just allocated creates one child slot
    per interior level below it and one terminal array. *)
Lemma census_insert_fresh pt va f n d b lvl' :
  geometry pt -> 0 <= va -> levelBits pt !! d = Some b ->
  (d + S n = length (levelBits pt))%nat ->
  insertWalk pt va f (S n) (Z.of_nat d) (allocateLevel (Z.of_nat d) (2 ^ b))
  = Some lvl' ->
  census entryCount (S n) lvl' =
  Z.of_nat n + 2 ^ default 0 (last (levelBits pt)).
Proof.
  intros Hg Hva. revert d b lvl'.
  induction n as [|n IH]; intros d b lvl' Hb Hd Hins.
  - pose proof (wf_level_fresh pt 0 d b Hb) as Hwf.
    rewrite insertWalk_leaf in Hins by (done || lia).
    inversion Hins; subst. simpl.
    rewrite last_lookup. replace (Init.Nat.pred (length (levelBits pt))) with d by lia.
    by rewrite Hb.
  - pose proof (wf_level_fresh pt (S n) d b Hb) as Hwf.
    destruct (walk_step _ va _ _ Hg Hva Hb) as (_ & _ & _ & Hr).
    destruct (geometry_shift _ _ _ Hg Hb) as (Hbr & _).
    rewrite insertWalk_interior in Hins by (done || lia).
    destruct (lookup_lt_is_Some_2 (levelBits pt) (S d)) as [b' Hb']; [lia|].
    assert (childAt pt (allocateLevel (Z.of_nat d) (2 ^ b)) d
                    (levelIndex pt va d)
            = allocateLevel (Z.of_nat (S d)) (2 ^ b')) as Hchild.
    { unfold childAt, childArray. simpl.
      rewrite lookup_replicate_2 by lia. by rewrite Hb'. }
    rewrite Hchild in Hins.
    destruct (insertWalk pt va f (S n) _ _) as [c'|] eqn:Ec; [|done].
    simpl in Hins. inversion Hins; subst; clear Hins.
    rewrite census_interior. simpl nextLevelArray. unfold childArray.
    cbn [nextLevelArray allocateLevel entryCount].
    rewrite sumZ_single_slot by (done || lia). cbn [slotCount].
    rewrite (IH (S d) b' c' Hb' ltac:(lia) Ec). lia.
Qed.

Lemma summarize_census st t :
  sim_inv t st ->
  exists s, summarize st = Some s /\
    sumEntries s =
    census entryCount (length (levelBits (simTable st)))
           (rootLevel (simTable st)).
Proof.
  intros Hinv. pose proof (inv_table _ _ _ Hinv) as [Hg Hwf].
  pose proof (inv_off _ _ _ Hinv) as Hoff.
  pose proof (geometry_offset _ Hg) as [_ Ho].
  unfold summarize.
  rewrite (countEntriesRecursiveLocal_census _ _ 0 _ Hg Hoff Hwf) by lia.
  simpl. rewrite shl32_one by lia. simpl. by eexists.
Qed.

Lemma two_inserts_census bits pt va vb f g :
  validLevels bits -> sumZ bits <= 31 ->
  createPageTable (Z.of_nat (length bits)) bits = Some pt ->
  0 <= va < 2 ^ 32 -> 0 <= vb < 2 ^ 32 ->
  (forall k, (S k < length bits)%nat ->
             levelIndex pt vb k = levelIndex pt va k) ->
  exists pt2, insertAll pt [(va, f); (vb, g)] = Some pt2 /\
    countEntriesRecursiveLocal pt2 (rootLevel pt2) =
    Some (Z.of_nat (length bits) - 1 + 2 ^ default 0 (last bits)).
Proof.
  intros Hv Hsum Hc Hva Hvb Hsame.
  destruct (createPageTable_wf _ _ Hv Hc) as [Hwt Hbits]. subst bits.
  pose proof Hwt as [Hg Hwf].
  pose proof (geometry_offset _ Hg) as [Hoff _].
  destruct (geometry_count _ Hg) as [Hcnt Hn].
  destruct (validLevels_head _ Hv) as (b0 & Hb0 & Hb0r).
  assert (rootLevel pt = allocateLevel (Z.of_nat 0) (2 ^ b0)) as Hroot.
  { assert (b0 < 32) as Hlt.
    { destruct Hg as (_ & Hlt & _).
      apply (Forall_lookup_1 _ _ _ _ Hlt Hb0). }
    rewrite (createPageTable_valid _ b0 Hv Hb0 Hlt) in Hc.
    by inversion Hc. }
  destruct (insertMapForVpn2Pfn_wf pt va f Hwt ltac:(lia))
    as (r1 & Hi1 & Hwt1).
  destruct (insertMapForVpn2Pfn_wf _ vb g Hwt1 ltac:(lia))
    as (r2 & Hi2 & Hwt2).
  exists (set_rootLevel (set_rootLevel pt r1) r2). split.
  { simpl. rewrite Hi1. simpl. rewrite Hi2. done. }
  unfold insertMapForVpn2Pfn in Hi1, Hi2. simpl in Hi2.
  rewrite Hcnt, Nat2Z.id in Hi1, Hi2. rewrite insertWalk_set_root in Hi2.
  destruct (insertWalk pt va f _ 0 _) as [r1'|] eqn:E1; [|done].
  simpl in Hi1. injection Hi1 as ->.
  destruct (insertWalk pt vb g _ 0 _) as [r2'|] eqn:E2; [|done].
  simpl in Hi2. injection Hi2 as ->.
  destruct Hwt1 as [Hg1 Hwf1]. destruct Hwt2 as [Hg2 Hwf2].
  simpl in Hwf1, Hwf2. apply wf_level_set_root in Hwf1.
  change (rootLevel (set_rootLevel (set_rootLevel pt r1) r2)) with r2.
  rewrite (countEntriesRecursiveLocal_census _ (length (levelBits pt)) 0 _
             Hg2 ltac:(simpl; lia) Hwf2) by done.
  f_equal.
  destruct (length (levelBits pt)) as [|n] eqn:En; [lia|].
  change 0 with (Z.of_nat 0) in E1, E2.
  rewrite (census_insert_allocated pt vb g (S n) 0 r1 r2 Hg ltac:(lia) Hwf1);
    try done; try lia.
  - rewrite Hroot in E1.
    rewrite (census_insert_fresh pt va f n 0 b0 r1 Hg ltac:(lia) Hb0);
      try done; try lia.
  - apply (pathAllocated_same_prefix pt va vb); [lia| |].
    + intros k _ Hk. apply Hsame. lia.
    + apply (insertWalk_allocates pt va f _ 0 (rootLevel pt) r1);
        try done; try lia.
Qed.

(** C1 — The entry count of the summary.  For a table built for a valid
    configuration of at most 31 level bits: at the end of every run the
    summary is defined and its entry count is the census of the trie that
    takes one unit per non-null child slot of every interior node and, per
    terminal node whose mapping array is allocated, the capacity
    [entryCount] of that array; in particular, after inserting two
    mappings whose addresses share every level index except the last, the
    count is the number of interior levels (the child slots on the shared
    path) plus the capacity of the one terminal array, two to the width of
    the last level. *)
Theorem summary_counts_terminal_capacity bits o trace pt va vb f g :
  validLevels bits -> sumZ bits <= 31 ->
  createPageTable (Z.of_nat (length bits)) bits = Some pt ->
  1 <= optMaxFrames o ->
  Forall (fun a => 0 <= a < 2 ^ 32) trace ->
  Z.of_nat (length trace) <= UINT_MAX ->
  0 <= va < 2 ^ 32 -> 0 <= vb < 2 ^ 32 ->
  (forall k, (S k < length bits)%nat ->
             levelIndex pt vb k = levelIndex pt va k) ->
  (exists log st s,
     processTrace o trace (initialSim pt o) = Some (log, st) /\
     summarize st = Some s /\
     sumEntries s =
     census entryCount (length (levelBits (simTable st)))
            (rootLevel (simTable st))) /\
  (exists pt2, insertAll pt [(va, f); (vb, g)] = Some pt2 /\
     countEntriesRecursiveLocal pt2 (rootLevel pt2) =
     Some (Z.of_nat (length bits) - 1 + 2 ^ default 0 (last bits))).
Proof.
  intros Hv Hsum Hc Hmax Hall Hlen Hva Hvb Hsame. split.
  - pose proof (initial_inv bits o pt Hv Hsum Hc Hmax) as Hinv.
    destruct (processTrace_inv o trace 0 _ Hinv ltac:(lia) Hall)
      as (log & st & t & Hrun & Hinv' & _).
    destruct (summarize_census st t Hinv') as (s & Hs & Hcount).
    by exists log, st, s.
  - by apply two_inserts_census.
Qed.

Lemma summary_counts_terminal_capacity_witness :
  (exists log st s,
     processTrace defaultOptions [0; 4096; 0] (initialSim exampleTable defaultOptions)
     = Some (log, st) /\
     summarize st = Some s /\
     sumEntries s =
     census entryCount (length (levelBits (simTable st)))
            (rootLevel (simTable st))) /\
  (exists pt2, insertAll exampleTable [(0, 0); (4096, 1)] = Some pt2 /\
     countEntriesRecursiveLocal pt2 (rootLevel pt2) =
     Some (Z.of_nat 3 - 1 + 2 ^ 8)).
Proof.
  apply (summary_counts_terminal_capacity exampleBits defaultOptions
           [0; 4096; 0] exampleTable 0 4096 0 1).
  - exact exampleBits_valid.
  - simpl. lia.
  - reflexivity.
  - simpl. unfold UINT_MAX. lia.
  - repeat (constructor; [rewrite pow2_32; lia|]). constructor.
  - unfold UINT_MAX. simpl. lia.
  - rewrite pow2_32. lia.
  - rewrite pow2_32. lia.
  - intros k Hk. simpl in Hk.
    destruct k as [|[|k]]; [reflexivity|reflexivity|lia].
Defined.

(** After the two inserts of the scenario the summary's function counts
    258 entries, the 256 slots of the terminal array among them; the
    counting function of [pagetable.cpp], which counts valid mappings,
    finds 4. *)
Lemma summary_count_is_not_the_mapping_count :
  exists pt2, insertAll exampleTable [(0, 0); (4096, 1)] = Some pt2 /\
    countEntriesRecursiveLocal pt2 (rootLevel pt2) = Some 258 /\
    countEntriesRecursive pt2 (rootLevel pt2) = Some 4 /\
    countEntriesRecursiveLocal pt2 (rootLevel pt2) <> Some (2 + 2).
Proof.
  eexists. split; [vm_compute; reflexivity|].
  split; [vm_compute; reflexivity|]. split; [vm_compute; reflexivity|].
  vm_compute. discriminate.
Qed.

(** ** A run that reaches the sentinel *)

Lemma processTrace_cons o va rest st :
  haveLimitN o = false ->
  processTrace o (va :: rest) st =
  '(a, st1) ← processAddress st va;
  '(log, st2) ← processTrace o rest st1;
  Some (a :: log, st2).
Proof. intros Hno. simpl. by rewrite Hno. Qed.

Lemma processTrace_app o l1 l2 st :
  haveLimitN o = false ->
  processTrace o (l1 ++ l2) st =
  '(log1, st1) ← processTrace o l1 st;
  '(log2, st2) ← processTrace o l2 st1;
  Some (log1 ++ log2, st2).
Proof.
  intros Hno. revert st. induction l1 as [|va l1 IH]; intros st.
  - simpl. destruct (processTrace o l2 st) as [[log2 st2]|]; done.
  - simpl. rewrite Hno. simpl.
    destruct (processAddress st va) as [[a st1]|]; [|done]. simpl.
    rewrite IH. destruct (processTrace o l1 st1) as [[log1 st1']|]; [|done].
    simpl. destruct (processTrace o l2 st1') as [[log2 st2]|]; done.
Qed.

Lemma hotPage_warm_up :
  exists log, processTrace oneFrameOptions (replicate 16 0)
                (initialSim exampleTable oneFrameOptions)
              = Some (log, hotPageState 16).
Proof. eexists. vm_compute. reflexivity. Qed.

Lemma hotPage_step n :
  16 <= n < UINT_MAX ->
  exists a, processAddress (hotPageState n) 0 = Some (a, hotPageState (n + 1)).
Proof.
  intros Hn. unfold UINT_MAX in Hn. unfold processAddress, hotPageState.
  cbn [simStats simReplacement simTable addressesProcessed hits misses
       evictions].
  assert (tickReplacementClock
            (mkReplacementState 1 1 0 n 1
               [mkLoadedPageInfo 0 0 UINT16_MAX n true])
          = mkReplacementState 1 1 0 (n + 1) 1
              [mkLoadedPageInfo 0 0 UINT16_MAX n false]) as ->.
  { rewrite tick_at; [done|simpl; lia|simpl; unfold UINT_MAX; lia|done
                     |simpl; unfold UINT_MAX; lia]. }
  assert (searchMappedPfn exampleTableAfter 0
          = Some (Some (mkMap 0 true), exampleTableAfter)) as ->
    by (vm_compute; reflexivity).
  cbn [mbind option_bind].
  assert (getFullVPN exampleTableAfter 0 = Some 0) as ->
    by (vm_compute; reflexivity).
  cbn [mbind option_bind frameNumber pfn].
  assert (composePhysicalAddress exampleTableAfter 0
            (getOffsetFromVA exampleTableAfter 0) = Some 0) as ->
    by (vm_compute; reflexivity).
  cbn [mbind option_bind]. eexists. do 2 f_equal.
  rewrite !wrap32_small by (rewrite pow2_32; lia).
  f_equal. f_equal. lia.
Qed.

Lemma hotPage_run k n :
  16 <= n -> n + Z.of_nat k <= UINT_MAX ->
  exists log, processTrace oneFrameOptions (replicate k 0) (hotPageState n)
              = Some (log, hotPageState (n + Z.of_nat k)).
Proof.
  revert n. induction k as [|k IH]; intros n Hn Hk.
  - exists []. simpl. by rewrite Z.add_0_r.
  - destruct (hotPage_step n ltac:(lia)) as [a Ha].
    destruct (IH (n + 1) ltac:(lia) ltac:(lia)) as [log Hlog].
    exists (a :: log). simpl replicate.
    rewrite processTrace_cons by done.
    rewrite Ha. cbn [mbind option_bind]. rewrite Hlog.
    cbn [mbind option_bind]. do 3 f_equal. lia.
Qed.

Lemma hotPage_miss_undefined :
  processAddress (hotPageState UINT_MAX) 4096 = None.
Proof. vm_compute. reflexivity. Qed.

Lemma hotPage_trace_undefined k :
  Z.of_nat k = UINT_MAX - 16 ->
  processTrace oneFrameOptions (replicate 16 0 ++ replicate k 0 ++ [4096])
               (initialSim exampleTable oneFrameOptions) = None.
Proof.
  intros Hk. destruct hotPage_warm_up as [log1 H1].
  destruct (hotPage_run k 16 ltac:(lia) ltac:(lia)) as [log2 H2].
  rewrite processTrace_app by done. rewrite H1. cbn [mbind option_bind].
  rewrite processTrace_app by done. rewrite H2. cbn [mbind option_bind].
  replace (16 + Z.of_nat k) with UINT_MAX by lia.
  rewrite processTrace_cons by done.
  by rewrite hotPage_miss_undefined.
Qed.

(** C6 — Victim selection.  For the resident set [saturatedState] the scan
    selects no record: it returns -1, although the set is not empty, and
    the fault handler then subscripts the record vector with -1.  The
    record with the minimum age, here the only record, is not selected.
    The driver reaches such a state: with one frame and aging at every
    access, 2^32 - 1 accesses to one page followed by an access to another
    page make the run undefined at the eviction.
    [chooseVictimIndex_spec] states the order the scan realises on every
    resident set that has a record below the pair (0xFFFF, 0xFFFFFFFF). *)
Theorem victim_scan_skips_saturated_records :
  chooseVictimIndex saturatedState = -1 /\
  at_index (loaded saturatedState) (chooseVictimIndex saturatedState) = None /\
  ensureResidentPage exampleTable saturatedState 4096 1 = None /\
  exists k : nat, Z.of_nat k = UINT_MAX /\
    processTrace oneFrameOptions (replicate k 0 ++ [4096])
                 (initialSim exampleTable oneFrameOptions) = None.
Proof.
  split; [reflexivity|]. split; [reflexivity|]. split; [reflexivity|].
  assert (Z.of_nat (Z.to_nat (UINT_MAX - 16)) = UINT_MAX - 16) as Hk.
  { apply Z2Nat.id. unfold UINT_MAX. lia. }
  revert Hk. generalize (Z.to_nat (UINT_MAX - 16)). intros k Hk.
  exists (16 + k)%nat. split; [lia|].
  rewrite replicate_add, <- app_assoc.
  by apply hotPage_trace_undefined.
Qed.

(** * Further properties of the code *)

(** ** Splitting and composing addresses *)

Lemma offsetMask_ones pt :
  geometry pt -> offsetMask pt = Z.ones (offsetBits pt).
Proof.
  intros Hg. pose proof (geometry_offset _ Hg) as [Ho Hr].
  pose proof (geometry_fields _ Hg) as (_ & _ & _ & _ & Hm).
  rewrite Hm, <- Ho. unfold slice. rewrite Z.ones_equiv. 
  change (2 ^ 0) with 1. lia.
Qed.

Lemma getOffsetFromVA_mod pt va :
  geometry pt -> getOffsetFromVA pt va = va mod 2 ^ offsetBits pt.
Proof.
  intros Hg. pose proof (geometry_offset _ Hg) as [_ Hr].
  unfold getOffsetFromVA. rewrite (offsetMask_ones _ Hg).
  apply Z.land_ones. lia.
Qed.

Lemma land_page_offset f off o :
  0 <= off -> 0 <= o < 2 ^ off -> Z.land (f * 2 ^ off) o = 0.
Proof.
  intros Hoff Ho. apply Z.bits_inj'. intros n Hn.
  rewrite Z.land_spec, Z.bits_0, <- Z.shiftl_mul_pow2 by lia.
  destruct (Z.lt_ge_cases n off) as [Hlt|Hge].
  - by rewrite Z.shiftl_spec_low by lia.
  - rewrite <- (Z.mod_small o (2 ^ off)) by lia.
    rewrite Z.mod_pow2_bits_high by lia. apply andb_false_r.
Qed.

Lemma lor_page_offset f off o :
  0 <= off -> 0 <= o < 2 ^ off -> Z.lor (f * 2 ^ off) o = f * 2 ^ off + o.
Proof.
  intros Hoff Ho. pose proof (land_page_offset f off o Hoff Ho) as Hl.
  rewrite Z.add_nocarry_lxor by done. symmetry. by apply Z.lxor_lor.
Qed.

Lemma composePhysicalAddress_value pt f o :
  geometry pt -> 0 <= f < 2 ^ (32 - offsetBits pt) ->
  0 <= o < 2 ^ offsetBits pt ->
  composePhysicalAddress pt f o = Some (f * 2 ^ offsetBits pt + o) /\
  0 <= f * 2 ^ offsetBits pt + o < 2 ^ 32.
Proof.
  intros Hg Hf Ho. pose proof (geometry_offset _ Hg) as [_ Hr].
  destruct (shl32_vpn pt f Hg Hf) as (Hs & Hrange & _).
  assert (0 <= f * 2 ^ offsetBits pt + o < 2 ^ 32) as Hpa.
  { assert (f + 1 <= 2 ^ (32 - offsetBits pt)) as Hf1 by lia.
    assert ((f + 1) * 2 ^ offsetBits pt <= 2 ^ 32).
    { replace 32 with ((32 - offsetBits pt) + offsetBits pt) at 1 by lia.
      rewrite Z.pow_add_r by lia. apply Z.mul_le_mono_nonneg_r; lia. }
    lia. }
  split; [|done].
  unfold composePhysicalAddress, to_unsigned.
  rewrite wrap32_small.
  2:{ split; [lia|]. pose proof (pow2_le_mono (32 - offsetBits pt) 32 ltac:(lia)). lia. }
  rewrite Hs. simpl. f_equal. apply lor_page_offset; lia.
Qed.

(** X1 — Splitting an address.  On a table with the layout [createPageTable]
    gives it, every 32-bit address splits into a page number ([getFullVPN])
    below 2^(32 - offsetBits) and an offset ([getOffsetFromVA]) below the
    page size; the address is page number times page size plus offset, and
    [composePhysicalAddress] puts the two together into the address again. *)
Theorem address_split_round_trip pt va :
  geometry pt -> 0 <= va < 2 ^ 32 ->
  exists vpn, getFullVPN pt va = Some vpn /\
    0 <= vpn < 2 ^ (32 - offsetBits pt) /\
    0 <= getOffsetFromVA pt va < 2 ^ offsetBits pt /\
    va = vpn * 2 ^ offsetBits pt + getOffsetFromVA pt va /\
    composePhysicalAddress pt vpn (getOffsetFromVA pt va) = Some va.
Proof.
  intros Hg Hva. pose proof (geometry_offset _ Hg) as [_ Hr].
  exists (va / 2 ^ offsetBits pt).
  pose proof (pageOf_range _ _ Hg Hva) as Hp. unfold pageOf in Hp.
  pose proof (pow2_pos (offsetBits pt) ltac:(lia)) as Hpos.
  rewrite (getOffsetFromVA_mod _ _ Hg).
  pose proof (Z.mod_pos_bound va (2 ^ offsetBits pt) Hpos) as Hm.
  pose proof (Z.div_mod va (2 ^ offsetBits pt) ltac:(lia)) as Hdm.
  split; [by apply getFullVPN_defined|]. split; [done|]. split; [done|].
  split; [lia|].
  destruct (composePhysicalAddress_value pt _ _ Hg Hp Hm) as [-> _].
  f_equal. lia.
Qed.

Lemma address_split_round_trip_witness :
  exists vpn, getFullVPN exampleTable 74565 = Some vpn /\
    0 <= vpn < 2 ^ (32 - offsetBits exampleTable) /\
    0 <= getOffsetFromVA exampleTable 74565 < 2 ^ offsetBits exampleTable /\
    74565 = vpn * 2 ^ offsetBits exampleTable
            + getOffsetFromVA exampleTable 74565 /\
    composePhysicalAddress exampleTable vpn (getOffsetFromVA exampleTable 74565)
    = Some 74565.
Proof.
  apply (address_split_round_trip exampleTable 74565).
  - exact (proj1 exampleTable_wf).
  - rewrite pow2_32. lia.
Defined.

(** X2 — Composing a physical address.  For a frame number below
    2^(32 - offsetBits) and an offset below the page size,
    [composePhysicalAddress] is defined, does not wrap, returns
    frame * page size + offset, and the result splits back into that frame
    ([getFullVPN]) and that offset ([getOffsetFromVA]). *)
Theorem compose_then_split pt f o :
  geometry pt -> 0 <= f < 2 ^ (32 - offsetBits pt) ->
  0 <= o < 2 ^ offsetBits pt ->
  exists pa, composePhysicalAddress pt f o = Some pa /\
    pa = f * 2 ^ offsetBits pt + o /\ 0 <= pa < 2 ^ 32 /\
    getFullVPN pt pa = Some f /\ getOffsetFromVA pt pa = o.
Proof.
  intros Hg Hf Ho. pose proof (geometry_offset _ Hg) as [_ Hr].
  destruct (composePhysicalAddress_value pt f o Hg Hf Ho) as [Hc Hpa].
  pose proof (pow2_pos (offsetBits pt) ltac:(lia)) as Hpos.
  eexists. split; [exact Hc|]. split; [done|]. split; [done|].
  rewrite getFullVPN_defined, getOffsetFromVA_mod by done.
  split.
  - f_equal. rewrite Z.add_comm, Z.div_add by lia.
    rewrite Z.div_small by lia. lia.
  - rewrite Z.add_comm, Z.mod_add by lia. apply Z.mod_small. lia.
Qed.

Lemma compose_then_split_witness :
  exists pa, composePhysicalAddress exampleTable 5 100 = Some pa /\
    pa = 5 * 2 ^ offsetBits exampleTable + 100 /\ 0 <= pa < 2 ^ 32 /\
    getFullVPN exampleTable pa = Some 5 /\ getOffsetFromVA exampleTable pa = 100.
Proof.
  apply (compose_then_split exampleTable 5 100).
  - exact (proj1 exampleTable_wf).
  - simpl. lia.
  - simpl. lia.
Defined.

Lemma levelVPNsFrom_indices pt va n : forall d,
  geometry pt -> 0 <= va -> (d + n = length (levelBits pt))%nat ->
  levelVPNsFrom pt va n (Z.of_nat d) = Some (levelIndex pt va <$> seq d n).
Proof.
  induction n as [|n IH]; intros d Hg Hva Hdn; [done|].
  destruct (lookup_lt_is_Some_2 (levelBits pt) d ltac:(lia)) as [b Hb].
  destruct (walk_step pt va d b Hg Hva Hb) as (Hm & Hs & He & _).
  cbn [levelVPNsFrom]. rewrite Hm, Hs. cbn [mbind option_bind]. rewrite He.
  cbn [mbind option_bind].
  replace (Z.of_nat d + 1) with (Z.of_nat (S d)) by lia.
  rewrite (IH (S d)) by (done || lia). done.
Qed.

Lemma levelVPNs_indices pt va :
  geometry pt -> 0 <= va ->
  levelVPNs pt va =
  Some (levelIndex pt va <$> seq 0 (length (levelBits pt))).
Proof.
  intros Hg Hva. unfold levelVPNs.
  destruct (geometry_count _ Hg) as [-> _]. rewrite Nat2Z.id.
  change 0 with (Z.of_nat 0). by apply levelVPNsFrom_indices.
Qed.

Lemma concatBits_indices pt va n : forall d,
  geometry pt -> 0 <= va -> (d + n = length (levelBits pt))%nat ->
  concatBits (va / 2 ^ (32 - sumZ (take d (levelBits pt))))
             (levelIndex pt va <$> seq d n) (drop d (levelBits pt))
  = va / 2 ^ offsetBits pt.
Proof.
  induction n as [|n IH]; intros d Hg Hva Hdn.
  - simpl. rewrite take_ge by lia.
    destruct (geometry_offset _ Hg) as [-> _]. done.
  - destruct (lookup_lt_is_Some_2 (levelBits pt) d ltac:(lia)) as [b Hb].
    rewrite (drop_S _ _ _ Hb). cbn [seq fmap list_fmap concatBits].
    destruct (geometry_shift pt d b Hg Hb) as (Hb1 & Hlo & Hhi & Heq).
    rewrite <- (IH (S d)) by (done || lia). f_equal.
    unfold levelIndex. rewrite Hb. cbn [default].
    fold (shiftAt pt d).
    replace (32 - sumZ (take d (levelBits pt))) with (shiftAt pt d + b) by lia.
    pose proof (geometry_offset _ Hg) as [_ Ho].
    pose proof (div_pow2_split va (shiftAt pt d) b ltac:(lia) ltac:(lia)) as Hsplit.
    unfold shiftAt, id in *. lia.
Qed.

Lemma fmap_seq_ext (f g : nat -> Z) n :
  f <$> seq 0 n = g <$> seq 0 n <-> forall k, (k < n)%nat -> f k = g k.
Proof.
  split.
  - intros Heq k Hk.
    assert ((f <$> seq 0 n) !! k = (g <$> seq 0 n) !! k) as H by by rewrite Heq.
    rewrite !list_lookup_fmap, lookup_seq_lt in H by done. simpl in H.
    congruence.
  - intros H. apply list_fmap_ext. intros i x Hx.
    apply lookup_seq in Hx as [-> ?]. by apply H.
Qed.

(** X3 — The level indices, as the loop of the vpns_pfn mode computes them.
    For every 32-bit address the loop is defined and yields one index per
    level, each below the entry count 2^width of its level; the indices
    written side by side, most significant first, are the full page number.
    Two addresses get the same indices exactly when they are on the same
    page. *)
Theorem level_indices_spell_the_page_number pt va :
  geometry pt -> 0 <= va < 2 ^ 32 ->
  exists vpns, levelVPNs pt va = Some vpns /\
    Forall2 (fun v b => 0 <= v < 2 ^ b) vpns (levelBits pt) /\
    getFullVPN pt va = Some (concatBits 0 vpns (levelBits pt)) /\
    forall vb, 0 <= vb < 2 ^ 32 ->
      levelVPNs pt vb = Some vpns <->
      getFullVPN pt vb = getFullVPN pt va.
Proof.
  intros Hg Hva. eexists. split; [apply levelVPNs_indices; [done|lia]|].
  split; [|split].
  - apply Forall2_same_length_lookup. split; [by rewrite length_fmap, length_seq|].
    intros i v b Hv Hb. rewrite list_lookup_fmap in Hv.
    pose proof (lookup_lt_Some _ _ _ Hb) as Hi.
    rewrite lookup_seq_lt in Hv by done. simpl in Hv.
    injection Hv as <-.
    by destruct (walk_step pt va i b Hg ltac:(lia) Hb) as (_ & _ & _ & ?).
  - rewrite getFullVPN_defined by done. f_equal.
    pose proof (concatBits_indices pt va (length (levelBits pt)) 0 Hg
                  ltac:(lia) ltac:(lia)) as H.
    rewrite take_0, drop_0 in H. simpl in H.
    rewrite Z.div_small in H by lia. by rewrite H.
  - intros vb Hvb. rewrite levelVPNs_indices by (done || lia).
    rewrite !getFullVPN_defined by done.
    pose proof (same_path_iff_same_vpn pt va vb Hg Hva Hvb) as Hp.
    pose proof (fmap_seq_ext (levelIndex pt vb) (levelIndex pt va)
                  (length (levelBits pt))) as Hf.
    split.
    + intros [= Heq]. f_equal. symmetry. apply Hp. by apply Hf.
    + intros [= Heq]. f_equal. apply Hf. by apply Hp.
Qed.

Lemma level_indices_spell_the_page_number_witness :
  exists vpns, levelVPNs exampleTable 305419896 = Some vpns /\
    Forall2 (fun v b => 0 <= v < 2 ^ b) vpns (levelBits exampleTable) /\
    getFullVPN exampleTable 305419896 =
      Some (concatBits 0 vpns (levelBits exampleTable)) /\
    forall vb, 0 <= vb < 2 ^ 32 ->
      levelVPNs exampleTable vb = Some vpns <->
      getFullVPN exampleTable vb = getFullVPN exampleTable 305419896.
Proof.
  apply (level_indices_spell_the_page_number exampleTable 305419896).
  - exact (proj1 exampleTable_wf).
  - rewrite pow2_32. lia.
Defined.

(** ** Walks of the table *)

(** *** Lookups along equal paths *)

Lemma searchWalk_same_path pt va vb n : forall d lvl,
  geometry pt -> 0 <= va -> 0 <= vb -> wf_level pt n d lvl ->
  (d + n = length (levelBits pt))%nat ->
  (forall k, (d <= k < length (levelBits pt))%nat ->
             levelIndex pt vb k = levelIndex pt va k) ->
  searchWalk pt vb n (Z.of_nat d) lvl = searchWalk pt va n (Z.of_nat d) lvl.
Proof.
  induction n as [|n IH]; intros d lvl Hg Hva Hvb Hwf Hd Hsame; [done|].
  destruct n as [|n].
  - rewrite !searchWalk_leaf by (done || lia). by rewrite Hsame by lia.
  - rewrite !searchWalk_interior by (done || lia). rewrite Hsame by lia.
    destruct Hwf as (_ & _ & _ & Hnext).
    destruct (nextLevelArray lvl) as [arr|]; [|done].
    destruct (arr !! Z.to_nat (levelIndex pt va d)) as [[c|]|] eqn:Hc; [|done..].
    destruct Hnext as [_ Hall].
    apply (IH (S d) c); try done; try lia.
    + apply (Forall_lookup_1 _ _ _ _ Hall Hc).
    + intros k Hk. apply Hsame. lia.
Qed.

(** X4 — Translation depends on the page only: on a well-formed table, two
    32-bit addresses with the same page number get the same answer from
    [searchMappedPfn]. *)
Theorem translation_depends_on_page_only pt va vb :
  wf_table pt -> 0 <= va < 2 ^ 32 -> 0 <= vb < 2 ^ 32 ->
  getFullVPN pt va = getFullVPN pt vb ->
  searchMappedPfn pt va = searchMappedPfn pt vb.
Proof.
  intros [Hg Hwf] Hva Hvb Hpage.
  rewrite !getFullVPN_defined in Hpage by done. injection Hpage as Hpage.
  rewrite !searchMappedPfn_walk by done.
  change 0 with (Z.of_nat 0).
  rewrite (searchWalk_same_path pt vb va); try done; try lia.
  intros k Hk. apply (same_path_iff_same_vpn pt vb va Hg Hvb Hva); [done|lia].
Qed.

Lemma translation_depends_on_page_only_witness :
  searchMappedPfn exampleTableAfter 0 = searchMappedPfn exampleTableAfter 100.
Proof.
  apply (translation_depends_on_page_only exampleTableAfter 0 100).
  - exact exampleTableAfter_wf.
  - rewrite pow2_32. lia.
  - rewrite pow2_32. lia.
  - reflexivity.
Defined.

(** *** The table right after construction *)

(** X5 — A fresh table.  For valid widths whose first one is below 32,
    [createPageTable] is defined and the table consists of the root node
    alone, with 2^(first width) entries and no array; every lookup finds
    nothing, and both counting functions return 0. *)
Theorem fresh_table_is_empty bits b0 :
  validLevels bits -> bits !! 0%nat = Some b0 -> b0 < 32 ->
  exists pt, createPageTable (Z.of_nat (length bits)) bits = Some pt /\
    rootLevel pt = allocateLevel 0 (2 ^ b0) /\
    (forall va, 0 <= va < 2 ^ 32 -> searchMappedPfn pt va = Some (None, pt)) /\
    countEntriesRecursiveLocal pt (rootLevel pt) = Some 0 /\
    countEntriesRecursive pt (rootLevel pt) = Some 0.
Proof.
  intros Hv Hb0 Hlt. eexists. split; [by apply createPageTable_valid|].
  pose proof (createdTable_wf bits b0 Hv Hb0 Hlt) as [Hg Hwf].
  split; [done|]. split; [|split].
  - intros va Hva. rewrite searchMappedPfn_walk by done.
    cbn [rootLevel createdTable levelBits].
    destruct bits as [|b bits]; [done|]. injection Hb0 as ->.
    change 0 with (Z.of_nat 0).
    rewrite (searchWalk_fresh _ va (length bits) 0 b0); try done; lia.
  - cbn [rootLevel createdTable allocateLevel countEntriesRecursiveLocal].
    by destruct (isLeafDepth _ _).
  - cbn [rootLevel createdTable allocateLevel countEntriesRecursive].
    by destruct (isLeafDepth _ _).
Qed.

Lemma fresh_table_is_empty_witness :
  exists pt, createPageTable (Z.of_nat (length exampleBits)) exampleBits
             = Some pt /\
    rootLevel pt = allocateLevel 0 (2 ^ 4) /\
    (forall va, 0 <= va < 2 ^ 32 -> searchMappedPfn pt va = Some (None, pt)) /\
    countEntriesRecursiveLocal pt (rootLevel pt) = Some 0 /\
    countEntriesRecursive pt (rootLevel pt) = Some 0.
Proof.
  apply (fresh_table_is_empty exampleBits 4).
  - exact exampleBits_valid.
  - reflexivity.
  - lia.
Defined.

(** *** Growth of the trie under inserts *)

Lemma sumZ_replicate_0 m : sumZ (replicate m 0) = 0.
Proof. induction m; simpl; lia. Qed.

Lemma sumZ_fmap_insert {A} (h : A -> Z) (l : list A) i x y :
  l !! i = Some y ->
  sumZ (h <$> <[i := x]> l) = sumZ (h <$> l) - h y + h x.
Proof.
  revert i. induction l as [|z l IH]; intros i Hi; [done|].
  destruct i as [|i].
  - injection Hi as ->. change (<[0%nat:=x]> (y :: l)) with (x :: l).
    rewrite !fmap_cons. cbn [sumZ foldr]. lia.
  - change (<[S i:=x]> (z :: l)) with (z :: <[i:=x]> l).
    rewrite !fmap_cons. cbn [sumZ foldr]. fold (sumZ (h <$> <[i:=x]> l)).
    fold (sumZ (h <$> l)). rewrite (IH i Hi). lia.
Qed.

Lemma census_childArray n lvl :
  census entryCount (S (S n)) lvl =
  sumZ (slotCount (fun c => 1 + census entryCount (S n) c) <$> childArray lvl).
Proof.
  rewrite census_interior. unfold childArray.
  destruct (nextLevelArray lvl); [done|].
  by rewrite fmap_replicate, sumZ_replicate_0.
Qed.

(** An insert adds at most one child slot per interior level and one
    terminal array, and never removes anything. *)
Lemma census_insert_grows pt va f n : forall d lvl lvl',
  geometry pt -> 0 <= va -> wf_level pt (S n) d lvl ->
  (d + S n = length (levelBits pt))%nat ->
  insertWalk pt va f (S n) (Z.of_nat d) lvl = Some lvl' ->
  census entryCount (S n) lvl <= census entryCount (S n) lvl' <=
  census entryCount (S n) lvl + Z.of_nat n + 2 ^ default 0 (last (levelBits pt)).
Proof.
  induction n as [|n IH]; intros d lvl lvl' Hg Hva Hwf Hd Hins.
  - destruct (wf_level_arrays _ _ _ _ Hwf) as (b & Hb & He & Hl & Hc).
    destruct (geometry_shift _ _ _ Hg Hb) as (Hbr & _).
    rewrite insertWalk_leaf in Hins by (done || lia).
    injection Hins as <-. simpl.
    rewrite last_lookup.
    replace (Init.Nat.pred (length (levelBits pt))) with d by lia.
    rewrite Hb. simpl. rewrite He.
    pose proof (pow2_pos b ltac:(lia)). destruct (mapArray lvl); lia.
  - destruct (wf_level_arrays _ _ _ _ Hwf) as (b & Hb & He & Hl & Hc).
    destruct (walk_step _ va _ _ Hg Hva Hb) as (_ & _ & _ & Hr).
    rewrite insertWalk_interior in Hins by (done || lia).
    destruct (lookup_lt_is_Some_2 (levelBits pt) (S d)) as [b' Hb']; [lia|].
    pose proof (wf_level_childAt _ _ _ _ (levelIndex pt va d) _ Hwf Hb') as Hch.
    destruct (insertWalk pt va f (S n) _ _) as [c'|] eqn:Ec; [|done].
    simpl in Hins. injection Hins as <-.
    rewrite (census_childArray n lvl).
    rewrite census_interior. cbn [nextLevelArray set_nextLevelArray].
    destruct (index_in_range (childArray lvl) (levelIndex pt va d) b Hc Hr)
      as (slot & Hslot & _).
    rewrite (sumZ_fmap_insert _ _ _ _ slot Hslot). cbn [slotCount].
    pose proof (IH (S d) _ c' Hg Hva Hch ltac:(lia) Ec) as Hrec.
    assert (0 <= 2 ^ default 0 (last (levelBits pt))) as Hlast.
    { apply Z.pow_nonneg. lia. }
    unfold childAt in Hrec, Ec. rewrite Hslot in Hrec, Ec.
    destruct slot as [c|]; cbn [slotCount].
    + lia.
    + rewrite (census_insert_fresh pt va f n (S d) b' c' Hg Hva Hb'
                 ltac:(lia)) in *.
      * lia.
      * rewrite <- Ec. by rewrite Hb'.
      * rewrite <- Ec. by rewrite Hb'.
Qed.

Lemma searchWalk_found_allocated pt va n : forall d lvl m,
  geometry pt -> 0 <= va -> wf_level pt n d lvl ->
  (d + n = length (levelBits pt))%nat ->
  searchWalk pt va n (Z.of_nat d) lvl = Some (Some m) ->
  pathAllocated pt va n d lvl.
Proof.
  induction n as [|n IH]; intros d lvl m Hg Hva Hwf Hd Hs; [done|].
  destruct n as [|n].
  - rewrite searchWalk_leaf in Hs by (done || lia). simpl.
    destruct (mapArray lvl); [by eexists|done].
  - rewrite searchWalk_interior in Hs by (done || lia).
    apply pathAllocated_interior.
    destruct Hwf as (_ & _ & _ & Hnext).
    destruct (nextLevelArray lvl) as [arr|]; [|done].
    destruct (arr !! Z.to_nat (levelIndex pt va d)) as [[c|]|] eqn:Hc; [|done..].
    destruct Hnext as [_ Hall].
    exists arr, c. split; [done|]. split; [done|].
    apply (IH (S d) c m); try done; try lia.
    apply (Forall_lookup_1 _ _ _ _ Hall Hc).
Qed.

(** X6 — Inserts allocate on demand and release nothing.  On a well-formed
    table with at least one offset bit, [insertMapForVpn2Pfn] is defined for
    every 32-bit address and every frame number, the negative ones included;
    the count that the summary reports does not decrease, grows by at most
    one slot per interior level plus the capacity of one terminal array, and
    stays the same when the page had a valid mapping. *)
Theorem insert_allocates_on_demand pt va f :
  wf_table pt -> 1 <= offsetBits pt -> 0 <= va < 2 ^ 32 ->
  exists pt' c c',
    insertMapForVpn2Pfn pt va f = Some pt' /\
    countEntriesRecursiveLocal pt (rootLevel pt) = Some c /\
    countEntriesRecursiveLocal pt' (rootLevel pt') = Some c' /\
    c <= c' <= c + (levelCount pt - 1) + 2 ^ default 0 (last (levelBits pt)) /\
    ((exists m, searchMappedPfn pt va = Some (Some m, pt)) -> c' = c).
Proof.
  intros Hwft Hoff Hva. pose proof Hwft as [Hg Hwf].
  destruct (insertMapForVpn2Pfn_wf pt va f Hwft ltac:(lia))
    as (root & Hins & [Hg' Hwf']).
  destruct (geometry_count _ Hg) as [Hcount Hlen].
  exists (set_rootLevel pt root). eexists _, _. split; [exact Hins|].
  split; [apply (countEntriesRecursiveLocal_census
                   pt (length (levelBits pt)) 0); [done..|lia]|].
  split; [apply (countEntriesRecursiveLocal_census
                   (set_rootLevel pt root) (length (levelBits pt)) 0);
          [done|done|exact Hwf'|simpl; lia]|].
  cbn [rootLevel set_rootLevel levelBits].
  unfold insertMapForVpn2Pfn in Hins. rewrite Hcount, Nat2Z.id in Hins.
  destruct (insertWalk _ _ _ _ _ _) as [r|] eqn:Hw; [|done].
  simpl in Hins. injection Hins as Hr.
  assert (r = root) as -> by (destruct pt; simpl in *; congruence).
  destruct (length (levelBits pt)) as [|n] eqn:Hn; [lia|].
  change 0 with (Z.of_nat 0) in Hw.
  split.
  - pose proof (census_insert_grows pt va f n 0 _ _ Hg ltac:(lia) Hwf
                  ltac:(lia) Hw). lia.
  - intros [m Hm]. rewrite searchMappedPfn_walk in Hm by done.
    rewrite Hn in Hm.
    destruct (searchWalk pt va (S n) 0 (rootLevel pt)) as [r|] eqn:Hs;
      [|done].
    simpl in Hm. injection Hm as ->.
    change 0 with (Z.of_nat 0) in Hs.
    apply (census_insert_allocated pt va f (S n) 0 _ _ Hg ltac:(lia) Hwf
             ltac:(lia)); [|done].
    apply (searchWalk_found_allocated pt va (S n) 0 _ m);
      [done|lia|done|lia|done].
Qed.

Lemma insert_allocates_on_demand_witness :
  exists pt' c c',
    insertMapForVpn2Pfn exampleTableAfter 4096 7 = Some pt' /\
    countEntriesRecursiveLocal exampleTableAfter (rootLevel exampleTableAfter)
      = Some c /\
    countEntriesRecursiveLocal pt' (rootLevel pt') = Some c' /\
    c <= c' <= c + (levelCount exampleTableAfter - 1)
               + 2 ^ default 0 (last (levelBits exampleTableAfter)) /\
    ((exists m, searchMappedPfn exampleTableAfter 4096
                = Some (Some m, exampleTableAfter)) -> c' = c).
Proof.
  apply (insert_allocates_on_demand exampleTableAfter 4096 7).
  - exact exampleTableAfter_wf.
  - simpl. lia.
  - rewrite pow2_32. lia.
Defined.

(** X7 — Invalidation.  Inserting a negative frame number is defined, keeps
    the table well-formed, makes every address of that page not found, and
    leaves the answer for every address of another page as it was. *)
Theorem invalidation_unmaps_one_page pt va f :
  wf_table pt -> 0 <= va < 2 ^ 32 -> f < 0 ->
  exists pt', insertMapForVpn2Pfn pt va f = Some pt' /\ wf_table pt' /\
    forall vb, 0 <= vb < 2 ^ 32 ->
      (getFullVPN pt vb = getFullVPN pt va ->
       searchMappedPfn pt' vb = Some (None, pt')) /\
      (getFullVPN pt vb <> getFullVPN pt va ->
       fst <$> searchMappedPfn pt' vb = fst <$> searchMappedPfn pt vb).
Proof.
  intros Hwft Hva Hf. pose proof Hwft as [Hg _].
  destruct (insertMapForVpn2Pfn_wf pt va f Hwft ltac:(lia))
    as (root & Hins & Hwf').
  eexists. split; [exact Hins|]. split; [done|].
  intros vb Hvb. rewrite !getFullVPN_defined by done. split.
  - intros [= Heq].
    rewrite (search_insert_same_page pt va vb f _ Hwft Hva Hvb) by done.
    unfold readMap. simpl. f_equal. f_equal.
    destruct (0 <=? f) eqn:E; [lia|done].
  - intros Hne. apply (search_insert_other_page pt va vb f); try done.
    congruence.
Qed.

Lemma invalidation_unmaps_one_page_witness :
  exists pt', insertMapForVpn2Pfn exampleTableAfter 0 (-1) = Some pt' /\
    wf_table pt' /\
    forall vb, 0 <= vb < 2 ^ 32 ->
      (getFullVPN exampleTableAfter vb = getFullVPN exampleTableAfter 0 ->
       searchMappedPfn pt' vb = Some (None, pt')) /\
      (getFullVPN exampleTableAfter vb <> getFullVPN exampleTableAfter 0 ->
       fst <$> searchMappedPfn pt' vb
       = fst <$> searchMappedPfn exampleTableAfter vb).
Proof.
  apply (invalidation_unmaps_one_page exampleTableAfter 0 (-1)).
  - exact exampleTableAfter_wf.
  - rewrite pow2_32. lia.
  - lia.
Defined.

(** ** Lookups in the resident set *)

Lemma findLoadedFrom_first l vpn i :
  0 <= i -> i + Z.of_nat (length l) <= 2 ^ 31 ->
  (findLoadedFrom l vpn i = -1 /\ Forall (fun e => fullVPN e <> vpn) l) \/
  (exists j e, l !! j = Some e /\ fullVPN e = vpn /\
     findLoadedFrom l vpn i = i + Z.of_nat j /\
     Forall (fun e' => fullVPN e' <> vpn) (take j l)).
Proof.
  revert i. induction l as [|e l IH]; intros i Hi Hlen; simpl.
  - left. done.
  - simpl length in Hlen. destruct (Z.eqb_spec (fullVPN e) vpn) as [Heq|Hne].
    + right. exists 0%nat, e. rewrite to_int_small by lia.
      split; [done|]. split; [done|]. split; [lia|constructor].
    + destruct (IH (i + 1) ltac:(lia) ltac:(lia))
        as [[-> Hall]|(j & e' & Hj & He' & -> & Hbefore)].
      * left. split; [done|]. by constructor.
      * right. exists (S j), e'. split; [done|]. split; [done|].
        split; [lia|]. simpl. by constructor.
Qed.

(** X8 — [findLoadedVPN] returns -1 exactly when no record holds the page;
    otherwise it returns the index of the first record that holds it.
    (For a resident set of at most 2^31 records, so that the index fits the
    int result.) *)
Theorem findLoadedVPN_first_match rs vpn :
  Z.of_nat (length (loaded rs)) <= 2 ^ 31 ->
  (findLoadedVPN rs vpn = -1 /\
   Forall (fun e => fullVPN e <> vpn) (loaded rs)) \/
  (exists j e, loaded rs !! j = Some e /\ fullVPN e = vpn /\
     findLoadedVPN rs vpn = Z.of_nat j /\
     Forall (fun e' => fullVPN e' <> vpn) (take j (loaded rs))).
Proof.
  intros Hlen. unfold findLoadedVPN.
  destruct (findLoadedFrom_first (loaded rs) vpn 0 ltac:(lia) ltac:(lia))
    as [?|(j & e & ? & ? & ? & ?)]; [by left|].
  right. exists j, e. rewrite Z.add_0_l in *. done.
Qed.

Lemma findLoadedVPN_first_match_witness :
  (findLoadedVPN exampleAgingState 1 = -1 /\
   Forall (fun e => fullVPN e <> 1) (loaded exampleAgingState)) \/
  (exists j e, loaded exampleAgingState !! j = Some e /\ fullVPN e = 1 /\
     findLoadedVPN exampleAgingState 1 = Z.of_nat j /\
     Forall (fun e' => fullVPN e' <> 1) (take j (loaded exampleAgingState))).
Proof.
  apply (findLoadedVPN_first_match exampleAgingState 1).
  simpl. lia.
Defined.

(** ** The access note *)

Lemma noteFrameAccessIn_first l now vpn frame :
  (Forall (fun e => ~ (fullVPN e = vpn /\ info_frameNumber e = frame)) l /\
   noteFrameAccessIn l now vpn frame = l) \/
  (exists l1 e l2, l = l1 ++ e :: l2 /\
     Forall (fun e' => ~ (fullVPN e' = vpn /\ info_frameNumber e' = frame)) l1 /\
     fullVPN e = vpn /\ info_frameNumber e = frame /\
     noteFrameAccessIn l now vpn frame =
     l1 ++ mkLoadedPageInfo vpn frame (ageBits e) now true :: l2).
Proof.
  induction l as [|e l IH]; [left; done|].
  simpl.
  destruct (Z.eqb_spec (fullVPN e) vpn) as [Hv|Hv],
           (Z.eqb_spec (info_frameNumber e) frame) as [Hf|Hf]; simpl.
  { right. exists [], e, l. simpl. by rewrite Hv, Hf. }
  all: destruct IH as [[Hall ->]|(l1 & e' & l2 & -> & Hall & ? & ? & ->)];
    [left; split; [constructor; [tauto|done]|done]|
     right; exists (e :: l1), e', l2; simpl;
     split; [done|]; split; [constructor; [tauto|done]|done]].
Qed.

(** X9 — [noteFrameAccess] changes nothing but the first record that holds
    both the page and the frame: that record gets the current clock value
    and the accessed flag, its age is kept; the other records, their order
    and the scalar fields of the state stay as they are.  If no record
    matches, nothing changes. *)
Theorem noteFrameAccess_marks_first_match rs vpn f :
  let rs' := noteFrameAccess rs vpn f in
  (maxFrames rs' = maxFrames rs /\
   bitstringInterval rs' = bitstringInterval rs /\
   accessesSinceAging rs' = accessesSinceAging rs /\
   currentTime rs' = currentTime rs /\
   nextFreeFrame rs' = nextFreeFrame rs) /\
  ((Forall (fun e => ~ (fullVPN e = vpn /\ info_frameNumber e = f))
           (loaded rs) /\ loaded rs' = loaded rs) \/
   (exists l1 e l2, loaded rs = l1 ++ e :: l2 /\
      Forall (fun e' => ~ (fullVPN e' = vpn /\ info_frameNumber e' = f)) l1 /\
      fullVPN e = vpn /\ info_frameNumber e = f /\
      loaded rs' =
      l1 ++ mkLoadedPageInfo vpn f (ageBits e) (currentTime rs) true :: l2)).
Proof.
  split; [done|]. simpl.
  apply noteFrameAccessIn_first.
Qed.

(** ** The three branches of [ensureResidentPage] *)

Lemma findLoadedVPN_at_first rs vpn j e :
  Z.of_nat (length (loaded rs)) <= 2 ^ 31 ->
  loaded rs !! j = Some e -> fullVPN e = vpn ->
  Forall (fun e' => fullVPN e' <> vpn) (take j (loaded rs)) ->
  findLoadedVPN rs vpn = Z.of_nat j.
Proof.
  intros Hlen Hj He Hbefore. unfold findLoadedVPN.
  destruct (findLoadedFrom_first (loaded rs) vpn 0 ltac:(lia) ltac:(lia))
    as [[_ Hall]|(j' & e' & Hj' & He' & -> & Hbefore')].
  - exfalso. by apply (Forall_lookup_1 _ _ _ _ Hall Hj).
  - rewrite Z.add_0_l. f_equal.
    destruct (Nat.lt_trichotomy j' j) as [Hlt|[->|Hgt]]; [|done|].
    + exfalso. apply (Forall_lookup_1 _ _ j' e' Hbefore); [|done].
      by rewrite lookup_take_lt.
    + exfalso. apply (Forall_lookup_1 _ _ j e Hbefore'); [|done].
      by rewrite lookup_take_lt.
Qed.

(** X10 — [ensureResidentPage] on a page that has a record: it returns the
    frame of the first such record, reports neither fault nor eviction, and
    hands back the table and the replacement state unchanged, whatever the
    table holds. *)
Theorem resident_page_is_returned_unchanged pt rs va vpn j e :
  Z.of_nat (length (loaded rs)) <= 2 ^ 31 ->
  loaded rs !! j = Some e -> fullVPN e = vpn ->
  Forall (fun e' => fullVPN e' <> vpn) (take j (loaded rs)) ->
  ensureResidentPage pt rs va vpn =
  Some (mkFaultResult (info_frameNumber e) false false 0 0, pt, rs).
Proof.
  intros Hlen Hj He Hbefore. unfold ensureResidentPage.
  rewrite (findLoadedVPN_at_first rs vpn j e) by done.
  destruct (Z.leb_spec 0 (Z.of_nat j)); [|lia].
  by rewrite at_index_nat, Hj.
Qed.

Lemma resident_page_is_returned_unchanged_witness :
  ensureResidentPage exampleTable exampleAgingState 4096 1 =
  Some (mkFaultResult 1 false false 0 0, exampleTable, exampleAgingState).
Proof.
  apply (resident_page_is_returned_unchanged exampleTable exampleAgingState
           4096 1 1 (mkLoadedPageInfo 1 1 32768 19 true)).
  - simpl. lia.
  - reflexivity.
  - reflexivity.
  - simpl. repeat constructor. simpl. lia.
Defined.

(** X11 — [ensureResidentPage] on a page without a record while fewer than
    [maxFrames] records exist: the page gets frame [nextFreeFrame], which is
    then incremented; a record with age 0x8000, the current clock value and
    the accessed flag is appended; a fault without eviction is reported; the
    page is mapped to the new frame and every other page translates as
    before. *)
Theorem miss_with_free_frame_allocates pt rs va :
  wf_table pt -> 0 <= va < 2 ^ 32 ->
  0 <= nextFreeFrame rs < 2 ^ 31 ->
  findLoadedVPN rs (pageOf pt va) = -1 ->
  Z.of_nat (length (loaded rs)) < maxFrames rs ->
  exists pt',
    insertMapForVpn2Pfn pt va (nextFreeFrame rs) = Some pt' /\
    ensureResidentPage pt rs va (pageOf pt va) =
    Some (mkFaultResult (nextFreeFrame rs) true false 0 0, pt',
          mkReplacementState (maxFrames rs) (bitstringInterval rs)
            (accessesSinceAging rs) (currentTime rs) (nextFreeFrame rs + 1)
            (loaded rs ++ [mkLoadedPageInfo (pageOf pt va) (nextFreeFrame rs)
                                            32768 (currentTime rs) true])) /\
    forall vb g, 0 <= vb < 2 ^ 32 ->
      mapped pt' vb g <->
      (pageOf pt vb = pageOf pt va /\ g = nextFreeFrame rs) \/
      (pageOf pt vb <> pageOf pt va /\ mapped pt vb g).
Proof.
  intros Hwf Hva Hnext Hfind Hroom.
  destruct (insertMapForVpn2Pfn_wf pt va (nextFreeFrame rs) Hwf ltac:(lia))
    as (r & Hi & Hwf').
  exists (set_rootLevel pt r).
  split; [done|]. split.
  - unfold ensureResidentPage. rewrite Hfind. simpl.
    destruct (Z.ltb_spec (Z.of_nat (length (loaded rs))) (maxFrames rs));
      [|lia].
    rewrite to_int_small by lia. rewrite Hi. simpl.
    rewrite wrap32_small; [done|]. change (2 ^ 31) with 2147483648 in Hnext.
    rewrite pow2_32. lia.
  - intros vb g Hvb. unfold pageOf in *.
    destruct (decide (vb / 2 ^ offsetBits pt = va / 2 ^ offsetBits pt))
      as [Heq|Hneq].
    + rewrite (mapped_insert_same _ va vb _ _ g Hwf Hva Hvb) by done.
      split; [intros [_ ->]; by left|].
      intros [[_ ->]|[? _]]; [lia|done].
    + rewrite (mapped_insert_other _ va vb _ _ g Hwf Hva Hvb) by done.
      split; [by right|]. intros [[? _]|[_ ?]]; done.
Qed.

Lemma miss_with_free_frame_allocates_witness :
  exists pt',
    insertMapForVpn2Pfn exampleTableAfter 8192 2 = Some pt' /\
    ensureResidentPage exampleTableAfter exampleAgingState 8192
                       (pageOf exampleTableAfter 8192) =
    Some (mkFaultResult 2 true false 0 0, pt',
          mkReplacementState 4 10 9 19 (2 + 1)
            (loaded exampleAgingState
             ++ [mkLoadedPageInfo (pageOf exampleTableAfter 8192) 2
                                  32768 19 true])) /\
    forall vb g, 0 <= vb < 2 ^ 32 ->
      mapped pt' vb g <->
      (pageOf exampleTableAfter vb = pageOf exampleTableAfter 8192 /\ g = 2) \/
      (pageOf exampleTableAfter vb <> pageOf exampleTableAfter 8192 /\
       mapped exampleTableAfter vb g).
Proof.
  apply (miss_with_free_frame_allocates exampleTableAfter exampleAgingState
           8192).
  - exact exampleTableAfter_wf.
  - rewrite pow2_32. lia.
  - simpl. lia.
  - reflexivity.
  - simpl. lia.
Defined.

(** ** The victim scan *)



(** ** The clock over many ticks *)

Lemma wrap32_succ z : wrap32 (wrap32 z + 1) = wrap32 (z + 1).
Proof. unfold wrap32. by rewrite Zplus_mod_idemp_l. Qed.

Lemma iter_fmap_length {A} (f : A -> A) k (l : list A) :
  length (Nat.iter k (fmap f) l) = length l.
Proof. induction k; simpl; [done|]. by rewrite length_fmap. Qed.

(** X13 — Many ticks.  From a state whose counter is below the interval, [n]
    calls of [tickReplacementClock] leave the counter at
    (counter + n) mod interval, have run the aging update
    (counter + n) / interval times, once per completed interval, and have
    advanced the clock by n modulo 2^32; budget, interval and next free
    frame are untouched. *)
Theorem ticks_age_once_per_interval n rs :
  0 <= accessesSinceAging rs < bitstringInterval rs ->
  bitstringInterval rs <= UINT_MAX ->
  0 <= currentTime rs <= UINT_MAX ->
  let rs' := Nat.iter n tickReplacementClock rs in
  let total := accessesSinceAging rs + Z.of_nat n in
  accessesSinceAging rs' = total mod bitstringInterval rs /\
  loaded rs' =
    Nat.iter (Z.to_nat (total / bitstringInterval rs)) (fmap ageEntry)
             (loaded rs) /\
  currentTime rs' = wrap32 (currentTime rs + Z.of_nat n) /\
  maxFrames rs' = maxFrames rs /\
  bitstringInterval rs' = bitstringInterval rs /\
  nextFreeFrame rs' = nextFreeFrame rs.
Proof.
  intros Hc Hb Ht. induction n as [|n IH].
  - simpl. rewrite !Z.add_0_r, Z.mod_small, Z.div_small by lia.
    split; [done|]. split; [done|]. split; [|done].
    unfold UINT_MAX in Ht. rewrite wrap32_small; [done|]. rewrite pow2_32. lia.
  - cbn zeta in *. rewrite Nat.iter_succ.
    set (rsn := Nat.iter n tickReplacementClock rs) in *.
    destruct IH as (Hcn & Hln & Htn & Hmn & Hbn & Hnn).
    set (b := bitstringInterval rs) in *.
    set (c := accessesSinceAging rs) in *.
    pose proof (Z.mod_pos_bound (c + Z.of_nat n) b ltac:(lia)) as Hmod.
    pose proof (Z.div_mod (c + Z.of_nat n) b ltac:(lia)) as Hdm.
    assert (0 <= (c + Z.of_nat n) / b) as Hq by (apply Z.div_pos; lia).
    pose proof (tick_fields rsn) as (Hm & Hbi & Hnf & Hct).
    cbn zeta in Hm, Hbi, Hnf, Hct.
    pose proof (tick_counter rsn ltac:(lia) ltac:(lia)) as [Hfire Hkeep].
    cbn zeta in Hfire, Hkeep.
    replace (c + Z.of_nat (S n)) with (c + Z.of_nat n + 1) by lia.
    split; [|split; [|split; [|split; [|split]]]]; try congruence.
    + destruct (decide (accessesSinceAging rsn + 1 = bitstringInterval rsn))
        as [Heq|Hne].
      * destruct (Hfire Heq) as [-> _].
        apply Z.mod_unique_pos with (q := (c + Z.of_nat n) / b + 1); lia.
      * destruct (Hkeep Hne) as [-> _].
        apply Z.mod_unique_pos with (q := (c + Z.of_nat n) / b); lia.
    + destruct (decide (accessesSinceAging rsn + 1 = bitstringInterval rsn))
        as [Heq|Hne].
      * destruct (Hfire Heq) as [_ ->].
        replace ((c + Z.of_nat n + 1) / b) with ((c + Z.of_nat n) / b + 1).
        2:{ apply Z.div_unique_pos with (r := 0); lia. }
        rewrite Z2Nat.inj_add by lia. rewrite Nat.add_comm. simpl.
        by rewrite Hln.
      * destruct (Hkeep Hne) as [_ ->].
        replace ((c + Z.of_nat n + 1) / b) with ((c + Z.of_nat n) / b).
        2:{ apply Z.div_unique_pos
              with (r := (c + Z.of_nat n) mod b + 1); lia. }
        done.
    + rewrite Hct, Htn, wrap32_succ. f_equal. lia.
Qed.

Lemma ticks_age_once_per_interval_witness :
  let rs' := Nat.iter 25 tickReplacementClock exampleAgingState in
  let total := accessesSinceAging exampleAgingState + Z.of_nat 25 in
  accessesSinceAging rs' = total mod bitstringInterval exampleAgingState /\
  loaded rs' =
    Nat.iter (Z.to_nat (total / bitstringInterval exampleAgingState))
             (fmap ageEntry) (loaded exampleAgingState) /\
  currentTime rs' = wrap32 (currentTime exampleAgingState + Z.of_nat 25) /\
  maxFrames rs' = maxFrames exampleAgingState /\
  bitstringInterval rs' = bitstringInterval exampleAgingState /\
  nextFreeFrame rs' = nextFreeFrame exampleAgingState.
Proof.
  apply (ticks_age_once_per_interval 25 exampleAgingState).
  - simpl. lia.
  - unfold UINT_MAX. simpl. lia.
  - unfold UINT_MAX. simpl. lia.
Defined.

(** ** Aging rounds without an access in between *)

Lemma ageEntry_rounds e k :
  0 <= ageBits e < 2 ^ 16 ->
  let e' := Nat.iter (S k) ageEntry e in
  ageBits e' =
    Z.shiftr (Z.shiftr (ageBits e) 1 +
              (if accessedThisInterval e then 2 ^ 15 else 0)) (Z.of_nat k) /\
  0 <= ageBits e' < 2 ^ 16 /\
  accessedThisInterval e' = false /\
  fullVPN e' = fullVPN e /\ info_frameNumber e' = info_frameNumber e /\
  lastAccessTime e' = lastAccessTime e.
Proof.
  intros Ha. induction k as [|k IH].
  - cbn zeta. simpl Nat.iter. rewrite Z.shiftr_0_r.
    destruct (ageEntry_value e Ha) as [Hv _].
    destruct (ageEntry_bits e Ha) as (_ & _ & Hr). done.
  - cbn zeta in *. rewrite Nat.iter_succ.
    set (ek := Nat.iter (S k) ageEntry e) in *.
    destruct IH as (Hv & Hr & Hf & Hp & Hfr & Hl).
    destruct (ageEntry_value ek Hr) as [Hv' _].
    destruct (ageEntry_bits ek Hr) as (_ & _ & Hr').
    split; [|split; [done|]].
    + rewrite Hv', Hf, Z.add_0_r, Hv, Z.shiftr_shiftr by lia.
      f_equal. lia.
    + simpl. done.
Qed.

(** X14 — Aging rounds with no access in between.  After k + 1 calls of
    [performAgingUpdate] every record has kept page, frame and timestamp,
    its flag is clear, and its age is the age after the first round,
    (age >> 1) plus 0x8000 if it was flagged, shifted right k more times.
    So the age is 0 after 17 rounds, and after 16 for a record that was not
    flagged. *)
Theorem untouched_records_age_out rs k :
  Forall (fun e => 0 <= ageBits e < 2 ^ 16) (loaded rs) ->
  let rs' := Nat.iter (S k) performAgingUpdate rs in
  Forall2 (fun e e' =>
             fullVPN e' = fullVPN e /\
             info_frameNumber e' = info_frameNumber e /\
             lastAccessTime e' = lastAccessTime e /\
             accessedThisInterval e' = false /\
             ageBits e' =
               Z.shiftr (Z.shiftr (ageBits e) 1 +
                         (if accessedThisInterval e then 2 ^ 15 else 0))
                        (Z.of_nat k) /\
             (16 <= Z.of_nat k -> ageBits e' = 0) /\
             (accessedThisInterval e = false -> 15 <= Z.of_nat k ->
              ageBits e' = 0))
          (loaded rs) (loaded rs').
Proof.
  intros Hall. cbn zeta.
  assert (forall n, loaded (Nat.iter n performAgingUpdate rs) =
                    Nat.iter n ageEntry <$> loaded rs) as Hiter.
  { induction n as [|n IH]; simpl; [by rewrite list_fmap_id|].
    rewrite IH, <- list_fmap_compose. done. }
  rewrite Hiter. apply Forall2_fmap_r, Forall_Forall2_diag.
  eapply Forall_impl; [exact Hall|]. intros e Ha.
  destruct (ageEntry_rounds e k Ha) as (Hv & Hr & Hf & Hp & Hfr & Hl).
  split; [done|]. split; [done|]. split; [done|]. split; [done|].
  split; [done|].
  destruct (ageEntry_value e Ha) as [_ Hs]. rewrite Hv.
  rewrite Z.shiftr_div_pow2 by lia.
  change (2 ^ 16) with 65536 in *. change (2 ^ 15) with 32768 in *.
  split.
  - intros Hk. apply Z.div_small.
    assert (2 ^ 16 <= 2 ^ Z.of_nat k) by (apply pow2_le_mono; lia).
    change (2 ^ 16) with 65536 in *.
    destruct (accessedThisInterval e); lia.
  - intros -> Hk. apply Z.div_small.
    assert (2 ^ 15 <= 2 ^ Z.of_nat k) by (apply pow2_le_mono; lia).
    change (2 ^ 15) with 32768 in *. lia.
Qed.

Lemma untouched_records_age_out_witness :
  let rs' := Nat.iter (S 16) performAgingUpdate exampleAgingState in
  Forall2 (fun e e' =>
             fullVPN e' = fullVPN e /\
             info_frameNumber e' = info_frameNumber e /\
             lastAccessTime e' = lastAccessTime e /\
             accessedThisInterval e' = false /\
             ageBits e' =
               Z.shiftr (Z.shiftr (ageBits e) 1 +
                         (if accessedThisInterval e then 2 ^ 15 else 0))
                        (Z.of_nat 16) /\
             (16 <= Z.of_nat 16 -> ageBits e' = 0) /\
             (accessedThisInterval e = false -> 15 <= Z.of_nat 16 ->
              ageBits e' = 0))
          (loaded exampleAgingState) (loaded rs').
Proof.
  apply (untouched_records_age_out exampleAgingState 16).
  repeat constructor; simpl; lia.
Defined.

(** ** One access, by cases *)

Lemma resident_frame_range off K p f :
  0 <= off <= 32 -> residents_ok off K -> (p, f) ∈ K ->
  0 <= f < Z.of_nat (length K) /\ Z.of_nat (length K) <= 2 ^ (32 - off).
Proof.
  intros Hoff (Hfr & Hnd & Hrange) Hin.
  split.
  - assert (f ∈ K.*2) as Hf.
    { apply list_elem_of_fmap. by exists (p, f). }
    rewrite Hfr in Hf. apply elem_of_seqZ in Hf. lia.
  - pose proof (distinct_bounded_length _ _ Hnd Hrange) as Hl.
    rewrite length_fmap in Hl.
    pose proof (pow2_pos (32 - off) ltac:(lia)). lia.
Qed.

Lemma keys_length rs : length (keys rs) = length (loaded rs).
Proof. apply length_fmap. Qed.

Lemma note_keys rs vpn f : keys (noteFrameAccess rs vpn f) = keys rs.
Proof. unfold keys. simpl. apply noteFrameAccessIn_keys. Qed.

Lemma processAddress_cases t st va :
  sim_inv t st -> t < UINT_MAX -> 0 <= va < 2 ^ 32 ->
  exists a st', processAddress st va = Some (a, st') /\
    sim_inv (t + 1) st' /\
    offsetBits (simTable st') = offsetBits (simTable st) /\
    maxFrames (simReplacement st') = maxFrames (simReplacement st) /\
    accOffset a = va mod 2 ^ offsetBits (simTable st) /\
    accPhysical a =
      pfn (accFault a) * 2 ^ offsetBits (simTable st) +
      va mod 2 ^ offsetBits (simTable st) /\
    addressesProcessed (simStats st') =
      wrap32 (addressesProcessed (simStats st) + 1) /\
    bitstringInterval (simReplacement st') =
      bitstringInterval (simReplacement st) /\
    accessesSinceAging (simReplacement st') =
      accessesSinceAging (tickReplacementClock (simReplacement st)) /\
    let rs1 := tickReplacementClock (simReplacement st) in
    let K := keys (simReplacement st) in
    let K' := keys (simReplacement st') in
    let p := pageOf (simTable st) va in
    let s := simStats st in
    let s' := simStats st' in
    let fresh f := mkLoadedPageInfo p f 32768 (t + 1) true in
    (p, pfn (accFault a)) ∈ K' /\
    ((exists f, (p, f) ∈ K /\ accHit a = true /\
        accFault a = mkFaultResult f false false 0 0 /\
        K' = K /\ simTable st' = simTable st /\
        loaded (simReplacement st') =
          noteFrameAccessIn (loaded rs1) (t + 1) p f /\
        hits s' = wrap32 (hits s + 1) /\ misses s' = misses s /\
        evictions s' = evictions s) \/
     ((p ∉ K.*1) /\ Z.of_nat (length K) < maxFrames (simReplacement st) /\
        accHit a = false /\
        accFault a = mkFaultResult (Z.of_nat (length K)) true false 0 0 /\
        K' = K ++ [(p, Z.of_nat (length K))] /\
        insertMapForVpn2Pfn (simTable st) va (Z.of_nat (length K)) =
          Some (simTable st') /\
        loaded (simReplacement st') =
          noteFrameAccessIn (loaded rs1 ++ [fresh (Z.of_nat (length K))])
                            (t + 1) p (Z.of_nat (length K)) /\
        hits s' = hits s /\ misses s' = wrap32 (misses s + 1) /\
        evictions s' = evictions s) \/
     ((p ∉ K.*1) /\ maxFrames (simReplacement st) <= Z.of_nat (length K) /\
        accHit a = false /\
        (exists j victim, loaded rs1 !! j = Some victim /\
           info_frameNumber victim = Z.of_nat j /\
           (forall j' e', loaded rs1 !! j' = Some e' ->
              ~ entryLt e' victim /\ ((j' < j)%nat -> entryLt victim e')) /\
           accFault a = mkFaultResult (Z.of_nat j) true true (fullVPN victim)
                                      (ageBits victim) /\
           K' = <[j := (p, Z.of_nat j)]> K /\
           (exists victimVA pt1,
              shl32 (fullVPN victim) (offsetBits (simTable st)) =
                Some victimVA /\
              insertMapForVpn2Pfn (simTable st) victimVA (-1) = Some pt1 /\
              insertMapForVpn2Pfn pt1 va (Z.of_nat j) = Some (simTable st')) /\
           loaded (simReplacement st') =
             noteFrameAccessIn (<[j := fresh (Z.of_nat j)]> (loaded rs1))
                               (t + 1) p (Z.of_nat j)) /\
        hits s' = hits s /\ misses s' = wrap32 (misses s + 1) /\
        evictions s' = wrap32 (evictions s + 1))).
Proof.
  intros Hinv Hlt Hva.
  destruct (processAddress_inv t st va Hinv Hlt Hva)
    as (a & st' & Heq & Hinv' & Hoff' & Hmx' & _ & Hstamp).
  exists a, st'. split; [done|]. split; [done|]. split; [done|].
  split; [done|].
  destruct st as [pt rs stats]. unfold sim_inv in *. simpl in *.
  destruct (tick_inv _ _ _ Hinv Hlt) as [Hinv1 Hlast].
  pose proof (inv_table _ _ _ Hinv) as Hwf. pose proof Hwf as [Hg _].
  pose proof (geometry_offset _ Hg) as [_ Ho].
  destruct (searchMappedPfn_defined pt va Hwf ltac:(lia)) as (r & Hr & Hvalid).
  assert ((pageOf pt va, pfn (accFault a)) ∈ keys (simReplacement st'))
    as Hin'.
  { apply Exists_exists in Hstamp as (e & He & Hp & Hf & _).
    apply list_elem_of_fmap. exists e. split; [|done].
    unfold residentKey. by rewrite Hp, Hf. }
  assert (0 <= pfn (accFault a) < 2 ^ (32 - offsetBits pt)) as Hframe.
  { pose proof (inv_residents _ _ _ Hinv') as Hres. rewrite Hoff' in Hres.
    destruct (resident_frame_range (offsetBits pt) _ _ _
                ltac:(lia) Hres Hin') as [? ?]. lia. }
  pose proof (inv_table _ _ _ Hinv') as [Hg' _].
  pose proof (Z.mod_pos_bound va (2 ^ offsetBits pt)
                (pow2_pos (offsetBits pt) ltac:(lia))) as Hmod.
  unfold processAddress in Heq. simpl in Heq. rewrite Hr in Heq.
  simpl in Heq. rewrite getFullVPN_defined in Heq by done. simpl in Heq.
  fold (pageOf pt va) in Heq.
  assert (keys (tickReplacementClock rs) = keys rs) as Hk1 by apply tick_keys.
  pose proof (tick_fields rs) as (Hmx1 & Hbi1 & _ & _). cbn zeta in Hmx1, Hbi1.
  pose proof (proj1 (inv_time _ _ _ Hinv1)) as Htime.
  destruct r as [m|].
  - (* page-table hit *)
    simpl in Heq.
    destruct (composePhysicalAddress pt (frameNumber m) (getOffsetFromVA pt va))
      as [pa|] eqn:Hpa; [|done].
    simpl in Heq. injection Heq as <- <-. simpl in *.
    rewrite getOffsetFromVA_mod in * by done.
    destruct (composePhysicalAddress_value pt (frameNumber m) _ Hg Hframe Hmod)
      as [Hc _]. rewrite Hc in Hpa. injection Hpa as <-.
    split; [done|]. split; [done|]. split; [done|]. split; [done|].
    split; [done|]. split; [done|].
    left. exists (frameNumber m).
    split.
    { rewrite <- Hk1.
      apply (inv_consistent _ _ _ Hinv1 va _ Hva). by exists m. }
    rewrite note_keys, Htime. done.
  - (* page-table miss *)
    simpl in Heq.
    destruct (ensureResidentPage pt (tickReplacementClock rs) va (pageOf pt va))
      as [[[res pt'] rs']|] eqn:He; [|done].
    simpl in Heq.
    destruct (composePhysicalAddress pt' (pfn res) (getOffsetFromVA pt' va))
      as [pa|] eqn:Hpa; [|done].
    simpl in Heq. injection Heq as <- <-. simpl in *.
    rewrite getOffsetFromVA_mod in * by done. rewrite Hoff' in *.
    destruct (composePhysicalAddress_value pt' (pfn res)
                (va mod 2 ^ offsetBits pt) Hg') as [Hc _];
      [by rewrite Hoff'|by rewrite Hoff'|].
    rewrite Hc in Hpa. injection Hpa as <-. rewrite Hoff'.
    split; [done|]. split; [done|]. split; [done|].
    assert (bitstringInterval rs' = bitstringInterval rs /\
            accessesSinceAging rs' =
              accessesSinceAging (tickReplacementClock rs)) as [Hbi' Hacc'].
    { unfold ensureResidentPage in He.
      destruct (0 <=? _); [destruct (at_index _ _); [|done]; simpl in He;
                           by injection He as <- <- <-|].
      destruct (_ <? _).
      - destruct (insertMapForVpn2Pfn _ _ _); [|done]. simpl in He.
        by injection He as <- <- <-.
      - destruct (at_index _ _); [|done]. simpl in He.
        destruct (shl32 _ _); [|done]. simpl in He.
        destruct (insertMapForVpn2Pfn _ _ _); [|done]. simpl in He.
        destruct (insertMapForVpn2Pfn _ _ _); [|done]. simpl in He.
        by injection He as <- <- <-. }
    split; [done|]. split; [done|]. split; [done|]. right.
    destruct (miss_not_resident _ _ _ _ Hinv1 Hva Hr) as [Hfresh Hfind].
    destruct Hinv1 as [_ Hoff Hmax Hbud Hnext Hres Hb _ Hcons].
    pose proof (pageOf_range _ _ Hg Hva) as Hpr.
    pose proof (residents_ok_length (offsetBits pt)
                  (keys (tickReplacementClock rs)) ltac:(lia) Hres) as Hlen.
    rewrite keys_length in Hlen.
    rewrite note_keys. rewrite Hk1 in *.
    assert (length (keys rs) = length (loaded (tickReplacementClock rs)))
      as Hkl by (by rewrite <- Hk1, keys_length).
    rewrite Hkl, <- Hmx1.
    destruct (Z.lt_ge_cases
                (Z.of_nat (length (loaded (tickReplacementClock rs))))
                (maxFrames (tickReplacementClock rs))) as [Hroom|Hfull].
    + (* a frame is still free *)
      left.
      destruct (residents_ok_snoc _ _ _ Hres Hfresh Hpr) as [[_ Hl31]|?];
        [|lia].
      rewrite Hkl in Hl31.
      destruct (ensureResidentPage_allocate pt _ va _ Hwf Hva eq_refl
                  Hl31 Hnext Hfind Hroom) as (pt2 & Hins & _ & _ & He2 & _).
      rewrite He2 in He. injection He as <- <- <-.
      split; [done|]. split; [done|]. split; [done|]. rewrite Hnext in *.
      split; [done|]. split; [|split; [done|by rewrite Htime]].
      unfold keys at 1. cbn [loaded]. rewrite fmap_app.
      fold (keys (tickReplacementClock rs)). rewrite Hk1. done.
    + (* the budget is exhausted *)
      right.
      destruct (chooseVictimIndex_spec (tickReplacementClock rs) Hlen)
        as (j & victim & Hj & Hv & Hmin).
      { destruct (loaded (tickReplacementClock rs)) as [|e l] eqn:El;
          [simpl in *; lia|].
        apply Exists_cons_hd.
        inversion Hb as [|?? [Ha _]]; subst. inversion Hlast; subst.
        unfold keyLt, UINT16_MAX. change (2 ^ 16) with 65536 in Ha. lia. }
      pose proof (key_in_keys _ _ _ Hj) as Hkj. rewrite Hk1 in Hkj.
      pose proof Hres as (Hfr & Hnd & Hrange).
      assert (info_frameNumber victim = Z.of_nat j) as Hfv.
      { assert ((keys rs).*2 !! j = Some (info_frameNumber victim)) as H
          by (by rewrite list_lookup_fmap, Hkj).
        rewrite Hfr in H. apply lookup_seqZ in H. lia. }
      assert (0 <= fullVPN victim < 2 ^ (32 - offsetBits pt)) as Hvr.
      { apply (Forall_lookup_1 _ _ j _ Hrange).
        by rewrite list_lookup_fmap, Hkj. }
      destruct (ensureResidentPage_evict pt _ va _ j victim Hwf Hva eq_refl
                  Hlen Hfind Hfull Hv Hj Hvr ltac:(lia))
        as (vva & pt1 & pt2 & Hshl & Hi1 & Hi2 & _ & _ & He2 & _).
      rewrite He2 in He. injection He as <- <- <-.
      split; [done|]. split; [done|]. split; [done|]. split; [|done].
      exists j, victim. rewrite <- Hfv.
      split; [done|]. split; [done|]. split; [done|]. split; [done|].
      split; [|split; [by exists vva, pt1|
                       cbn [loaded set_loaded currentTime pfn];
                       by rewrite Htime]].
      unfold keys at 1. cbn [loaded set_loaded].
      rewrite list_fmap_insert. fold (keys (tickReplacementClock rs)).
      by rewrite Hk1.
Qed.

(** ** The counters of a run *)

Lemma stats_step t st va a st' :
  sim_inv t st -> stats_inv t st -> t < UINT_MAX -> 0 <= va < 2 ^ 32 ->
  processAddress st va = Some (a, st') ->
  stats_inv (t + 1) st' /\
  hits (simStats st') = hits (simStats st) + hitCount [a] /\
  evictions (simStats st') = evictions (simStats st) + evictionCount [a].
Proof.
  intros Hinv (Hp & Hsum & Hh & He & Hlen) Hlt Hva Heq.
  destruct (processAddress_cases t st va Hinv Hlt Hva)
    as (a0 & st0 & Heq0 & _ & _ & _ & _ & _ & Hproc & _ & _ & _ & Hcases).
  rewrite Heq in Heq0. injection Heq0 as <- <-. cbn zeta in *.
  unfold stats_inv, hitCount, evictionCount. cbn [List.filter].
  rewrite <- (keys_length (simReplacement st')).
  rewrite <- (keys_length (simReplacement st)) in Hlen.
  unfold UINT_MAX in Hlt.
  assert (forall z, 0 <= z <= t -> wrap32 (z + 1) = z + 1) as Hw.
  { intros z Hz. apply wrap32_small. rewrite pow2_32. lia. }
  rewrite Hproc, Hp, (Hw t) by lia.
  destruct Hcases as [(f & _ & -> & -> & -> & _ & _ & -> & -> & ->)|
    [(_ & _ & -> & -> & -> & _ & _ & -> & -> & ->)|
     (_ & _ & -> & (j & v & Hj & _ & _ & -> & -> & _) & -> & -> & ->)]];
    cbn [accFault didEvict length]; rewrite ?(Hw (hits _)), ?(Hw (misses _)),
      ?(Hw (evictions _)) by lia;
    rewrite ?length_app, ?length_insert; simpl length; lia.
Qed.

Lemma hitCount_cons a log : hitCount (a :: log) = hitCount [a] + hitCount log.
Proof. unfold hitCount. simpl. destruct (accHit a); simpl; lia. Qed.

Lemma evictionCount_cons a log :
  evictionCount (a :: log) = evictionCount [a] + evictionCount log.
Proof.
  unfold evictionCount. simpl. destruct (didEvict (accFault a)); simpl; lia.
Qed.

(** The whole loop with its counters. *)
Lemma processTrace_stats o trace : forall t st,
  sim_inv t st -> stats_inv t st ->
  t + Z.of_nat (length trace) <= UINT_MAX ->
  Forall (fun va => 0 <= va < 2 ^ 32) trace ->
  exists log st', processTrace o trace st = Some (log, st') /\
    sim_inv (t + Z.of_nat (length log)) st' /\
    stats_inv (t + Z.of_nat (length log)) st' /\
    (length log <= length trace)%nat /\
    (haveLimitN o = false -> length log = length trace) /\
    hits (simStats st') = hits (simStats st) + hitCount log /\
    evictions (simStats st') = evictions (simStats st) + evictionCount log /\
    offsetBits (simTable st') = offsetBits (simTable st) /\
    maxFrames (simReplacement st') = maxFrames (simReplacement st).
Proof.
  induction trace as [|va trace IH]; intros t st Hinv Hst Hlen Hall.
  - exists [], st. simpl. rewrite Z.add_0_r. unfold hitCount, evictionCount.
    simpl. repeat (split; [done || lia|]). done.
  - simpl length in Hlen. simpl.
    destruct (haveLimitN o && (limitN o <=? addressesProcessed (simStats st)))
      eqn:Hlim.
    { exists [], st. simpl. rewrite Z.add_0_r. unfold hitCount, evictionCount.
      simpl. split; [done|]. split; [done|]. split; [done|]. split; [lia|].
      split; [|repeat (split; [done || lia|]); done].
      intros Hno. by rewrite Hno in Hlim. }
    inversion Hall as [|?? Hva Hall']; subst.
    destruct (processAddress_inv t st va Hinv ltac:(lia) Hva)
      as (a & st1 & Heq & Hinv1 & Hoff1 & Hmx1 & _).
    destruct (stats_step t st va a st1 Hinv Hst ltac:(lia) Hva Heq)
      as (Hst1 & Hh1 & He1).
    rewrite Heq. simpl.
    destruct (IH (t + 1) st1 Hinv1 Hst1 ltac:(lia) Hall')
      as (log & st' & -> & Hinv' & Hst' & Hl & Hfull & Hh & He & Hoff' & Hmx').
    simpl. exists (a :: log), st'. simpl length.
    replace (t + Z.of_nat (S (length log)))
      with (t + 1 + Z.of_nat (length log)) by lia.
    split; [done|]. split; [done|]. split; [done|]. split; [lia|].
    split; [intros Hno; by rewrite Hfull|].
    rewrite hitCount_cons, evictionCount_cons.
    split; [lia|]. split; [lia|]. split; congruence.
Qed.

Lemma initial_stats pt o : stats_inv 0 (initialSim pt o).
Proof. unfold stats_inv. simpl. lia. Qed.

(** X15 — The counters of a run.  For every run from the initial state the
    summary is defined and: addresses processed = length of the log (the
    length of the trace when there is no limit); hits = number of accesses
    logged as hits; replacements = number of accesses logged as evictions;
    misses = addresses - hits; frames allocated = misses - replacements =
    number of resident records, at most the budget; page size =
    2^(32 - sum of the widths). *)
Theorem run_statistics_add_up bits o trace pt :
  validLevels bits -> sumZ bits <= 31 ->
  createPageTable (Z.of_nat (length bits)) bits = Some pt ->
  1 <= optMaxFrames o ->
  Forall (fun va => 0 <= va < 2 ^ 32) trace ->
  Z.of_nat (length trace) <= UINT_MAX ->
  exists log st s,
    processTrace o trace (initialSim pt o) = Some (log, st) /\
    summarize st = Some s /\
    (haveLimitN o = false -> length log = length trace) /\
    sumAddresses s = Z.of_nat (length log) /\
    sumHits s = hitCount log /\
    sumReplacements s = evictionCount log /\
    misses (simStats st) = sumAddresses s - sumHits s /\
    sumFramesAllocated s = misses (simStats st) - sumReplacements s /\
    sumFramesAllocated s = Z.of_nat (length (loaded (simReplacement st))) /\
    sumFramesAllocated s <= optMaxFrames o /\
    sumPageSize s = 2 ^ (32 - sumZ bits).
Proof.
  intros Hv Hsum Hc Hmax Hall Hlen.
  pose proof (initial_inv bits o pt Hv Hsum Hc Hmax) as Hinv0.
  destruct (processTrace_stats o trace 0 _ Hinv0 (initial_stats pt o)
              ltac:(lia) Hall)
    as (log & st & Heq & Hinv & (Hp & Hhm & Hh0 & He0 & Hfr) & Hl & Hfull & Hh
        & He & Hoff & Hmx).
  destruct (summarize_census st _ Hinv) as (s & Hs & _).
  exists log, st, s. split; [done|]. split; [done|]. split; [done|].
  pose proof (inv_table _ _ _ Hinv) as [Hg _].
  pose proof (geometry_offset _ Hg) as [_ Ho].
  destruct (createPageTable_wf _ _ Hv Hc) as [[Hg0 _] Hb].
  pose proof (geometry_offset _ Hg0) as [Ho0 _]. rewrite Hb in Ho0.
  unfold summarize in Hs.
  destruct (countEntriesRecursiveLocal _ _) as [c|]; [|done].
  simpl in Hs. rewrite shl32_one in Hs by lia. simpl in Hs.
  injection Hs as <-. cbn [sumAddresses sumHits sumReplacements
                            sumFramesAllocated sumPageSize].
  simpl in Hh, He, Hoff, Hmx.
  pose proof (inv_next _ _ _ Hinv) as Hnext.
  pose proof (inv_budget _ _ _ Hinv) as Hbud.
  split; [lia|]. split; [lia|]. split; [lia|]. split; [lia|].
  split; [lia|]. split; [done|]. split; [lia|]. by rewrite Hoff, Ho0.
Qed.

Lemma run_statistics_add_up_witness :
  exists log st s,
    processTrace (mkOptions 0 false 1 10 "summary") [0; 4096; 0; 8192]
                 (initialSim exampleTable (mkOptions 0 false 1 10 "summary"))
    = Some (log, st) /\
    summarize st = Some s /\
    (haveLimitN (mkOptions 0 false 1 10 "summary") = false ->
     length log = length [0; 4096; 0; 8192]) /\
    sumAddresses s = Z.of_nat (length log) /\
    sumHits s = hitCount log /\
    sumReplacements s = evictionCount log /\
    misses (simStats st) = sumAddresses s - sumHits s /\
    sumFramesAllocated s = misses (simStats st) - sumReplacements s /\
    sumFramesAllocated s = Z.of_nat (length (loaded (simReplacement st))) /\
    sumFramesAllocated s <= optMaxFrames (mkOptions 0 false 1 10 "summary") /\
    sumPageSize s = 2 ^ (32 - sumZ exampleBits).
Proof.
  apply (run_statistics_add_up exampleBits
           (mkOptions 0 false 1 10 "summary") [0; 4096; 0; 8192] exampleTable).
  - exact exampleBits_valid.
  - simpl. lia.
  - reflexivity.
  - simpl. lia.
  - repeat (constructor; [rewrite pow2_32; lia|]). constructor.
  - unfold UINT_MAX. simpl. lia.
Defined.

(** ** The access limit *)

Lemma processAddress_counts st va a st' :
  processAddress st va = Some (a, st') ->
  addressesProcessed (simStats st') =
  wrap32 (addressesProcessed (simStats st) + 1).
Proof.
  unfold processAddress. intros H.
  destruct (searchMappedPfn _ _) as [[m pt]|]; [|done]. simpl in H.
  destruct (getFullVPN _ _) as [vpn|]; [|done]. simpl in H.
  destruct m as [m|]; simpl in H.
  - destruct (composePhysicalAddress _ _ _); [|done]. simpl in H.
    by injection H as <- <-.
  - destruct (ensureResidentPage _ _ _ _) as [[[res pt'] rs']|]; [|done].
    simpl in H. destruct (composePhysicalAddress _ _ _); [|done]. simpl in H.
    by injection H as <- <-.
Qed.

Lemma processTrace_withoutLimit o trace st :
  haveLimitN o = false ->
  processTrace (withoutLimit o) trace st = processTrace o trace st.
Proof.
  intros Hno. revert st. induction trace as [|va trace IH]; intros st; [done|].
  simpl. rewrite Hno. simpl.
  destruct (processAddress st va) as [[a st1]|]; [|done]. simpl.
  by rewrite IH.
Qed.

(** X16 — The access limit.  With a limit N (at most UINT_MAX) and p <= N
    addresses processed so far, the loop does what the loop without limit
    does on the first N - p addresses of the trace. *)
Theorem access_limit_truncates_trace o trace st :
  haveLimitN o = true ->
  0 <= addressesProcessed (simStats st) <= limitN o ->
  limitN o <= UINT_MAX ->
  processTrace o trace st =
  processTrace (withoutLimit o)
    (take (Z.to_nat (limitN o - addressesProcessed (simStats st))) trace) st.
Proof.
  intros Hlim Hp Hmax. revert st Hp.
  induction trace as [|va trace IH]; intros st Hp.
  - by rewrite take_nil.
  - simpl processTrace at 1. rewrite Hlim. simpl.
    destruct (Z.leb_spec (limitN o) (addressesProcessed (simStats st)))
      as [Hle|Hgt].
    + replace (limitN o - addressesProcessed (simStats st)) with 0 by lia.
      done.
    + replace (Z.to_nat (limitN o - addressesProcessed (simStats st)))
        with (S (Z.to_nat (limitN o - (addressesProcessed (simStats st) + 1))))
        by lia.
      simpl.
      destruct (processAddress st va) as [[a st1]|] eqn:Heq; [|done]. simpl.
      pose proof (processAddress_counts _ _ _ _ Heq) as Hc.
      unfold UINT_MAX in Hmax.
      rewrite wrap32_small in Hc by (rewrite pow2_32; lia).
      rewrite (IH st1) by lia. by rewrite Hc.
Qed.

Lemma access_limit_truncates_trace_witness :
  processTrace (mkOptions 2 true 4 10 "summary") [0; 4096; 8192]
               (initialSim exampleTable (mkOptions 2 true 4 10 "summary")) =
  processTrace (withoutLimit (mkOptions 2 true 4 10 "summary"))
    (take (Z.to_nat (limitN (mkOptions 2 true 4 10 "summary")
                     - addressesProcessed
                         (simStats (initialSim exampleTable
                                      (mkOptions 2 true 4 10 "summary")))))
          [0; 4096; 8192])
    (initialSim exampleTable (mkOptions 2 true 4 10 "summary")).
Proof.
  apply (access_limit_truncates_trace (mkOptions 2 true 4 10 "summary")
           [0; 4096; 8192]
           (initialSim exampleTable (mkOptions 2 true 4 10 "summary"))).
  - reflexivity.
  - simpl. lia.
  - unfold UINT_MAX. simpl. lia.
Defined.

(** ** Runs whose pages all fit *)

Lemma firstTouches_prefix seen pages :
  seen `prefix_of` firstTouches seen pages.
Proof.
  revert seen. induction pages as [|p pages IH]; intros seen; simpl; [done|].
  destruct (bool_decide (p ∈ seen)); [apply IH|].
  etrans; [|apply IH]. by apply prefix_app_r.
Qed.

Lemma firstTouches_length seen pages :
  (length seen <= length (firstTouches seen pages))%nat.
Proof. apply prefix_length, firstTouches_prefix. Qed.

Lemma processTrace_all_fit o trace off : forall t st,
  haveLimitN o = false ->
  sim_inv t st -> offsetBits (simTable st) = off ->
  t + Z.of_nat (length trace) <= UINT_MAX ->
  Forall (fun va => 0 <= va < 2 ^ 32) trace ->
  Z.of_nat (length (firstTouches (keys (simReplacement st)).*1
                      ((fun va => va / 2 ^ off) <$> trace)))
    <= maxFrames (simReplacement st) ->
  exists log st', processTrace o trace st = Some (log, st') /\
    (keys (simReplacement st')).*1 =
      firstTouches (keys (simReplacement st)).*1
                   ((fun va => va / 2 ^ off) <$> trace) /\
    keys (simReplacement st) `prefix_of` keys (simReplacement st') /\
    Forall2 (fun va a =>
               didEvict (accFault a) = false /\
               (va / 2 ^ off, pfn (accFault a)) ∈ keys (simReplacement st'))
            trace log.
Proof.
  induction trace as [|va trace IH]; intros t st Hno Hinv Hoff Hlen Hall Hfit.
  - exists [], st. simpl. split; [done|]. split; [done|]. split; [done|].
    constructor.
  - simpl length in Hlen. rewrite processTrace_cons by done.
    inversion Hall as [|?? Hva Hall']; subst.
    destruct (processAddress_cases t st va Hinv ltac:(lia) Hva)
      as (a & st1 & -> & Hinv1 & Hoff1 & Hmx1 & _ & _ & _ & _ & _ & Hin1
          & Hcases).
    cbn zeta in Hin1, Hcases. unfold pageOf in Hin1, Hcases.
    set (off := offsetBits (simTable st)) in *.
    set (p := va / 2 ^ off) in *.
    rewrite fmap_cons in Hfit. cbn [firstTouches] in Hfit. fold p in Hfit.
    assert (exists log st',
      processTrace o trace st1 = Some (log, st') /\
      (keys (simReplacement st')).*1 =
        firstTouches (keys (simReplacement st)).*1
                     (p :: ((fun va => va / 2 ^ off) <$> trace)) /\
      keys (simReplacement st1) `prefix_of` keys (simReplacement st') /\
      keys (simReplacement st) `prefix_of` keys (simReplacement st1) /\
      didEvict (accFault a) = false /\
      Forall2 (fun va a =>
                 didEvict (accFault a) = false /\
                 (va / 2 ^ off, pfn (accFault a)) ∈ keys (simReplacement st'))
              trace log) as (log & st' & Hrun & Hk & Hpre1 & Hpre & Hev & Hlog).
    { cbn [firstTouches].
      destruct Hcases as [(f & Hin & _ & Hf & HK & _)|
        [(Hfresh & _ & _ & Hf & HK & _)|(Hfresh & Hfull & _)]].
      - rewrite bool_decide_true in *
          by (apply list_elem_of_fmap; by exists (p, f)).
        destruct (IH (t + 1) st1 Hno Hinv1 Hoff1 ltac:(lia) Hall')
          as (log & st' & Hrun & Hk & Hpre & Hlog).
        { by rewrite HK, Hmx1. }
        exists log, st'. rewrite HK in *. rewrite Hf. done.
      - rewrite bool_decide_false in * by done.
        destruct (IH (t + 1) st1 Hno Hinv1 Hoff1 ltac:(lia) Hall')
          as (log & st' & Hrun & Hk & Hpre & Hlog).
        { by rewrite HK, fmap_app, Hmx1. }
        exists log, st'. rewrite HK, fmap_app in *. rewrite Hf.
        split; [done|]. split; [done|]. split; [done|].
        split; [by apply prefix_app_r|done].
      - exfalso. rewrite bool_decide_false in Hfit by done.
        pose proof (firstTouches_length
                      ((keys (simReplacement st)).*1 ++ [p])
                      ((fun va => va / 2 ^ off) <$> trace)) as Hl.
        rewrite length_app, length_fmap in Hl. simpl in Hl. lia. }
    cbn [mbind option_bind]. rewrite Hrun. cbn [mbind option_bind].
    exists (a :: log), st'.
    split; [done|]. split; [done|]. split; [by etrans|].
    constructor; [|done]. split; [done|].
    destruct Hpre1 as [k ->]. apply elem_of_app. by left.
Qed.

Lemma evictionCount_none (trace : list Z) log (P : Z -> Access -> Prop) :
  Forall2 (fun va a => didEvict (accFault a) = false /\ P va a) trace log ->
  evictionCount log = 0.
Proof.
  induction 1 as [|va a trace log [Ha _] _ IH]; [done|].
  rewrite evictionCount_cons, IH. unfold evictionCount. simpl.
  by rewrite Ha.
Qed.

(** X17 — Enough frames.  If the distinct pages of the trace are at most the
    frame budget (run without limit), nothing is ever evicted: the resident
    set at the end holds the distinct pages in order of first access, the
    k-th of them (from 0) in frame k; misses = number of distinct pages,
    hits = the rest; every access reports the frame its page holds at the
    end. *)
Theorem working_set_within_budget_never_evicts bits o trace pt :
  validLevels bits -> sumZ bits <= 31 ->
  createPageTable (Z.of_nat (length bits)) bits = Some pt ->
  haveLimitN o = false -> 1 <= optMaxFrames o ->
  Forall (fun va => 0 <= va < 2 ^ 32) trace ->
  Z.of_nat (length trace) <= UINT_MAX ->
  let pages := firstTouches [] (pageOf pt <$> trace) in
  Z.of_nat (length pages) <= optMaxFrames o ->
  exists log st,
    processTrace o trace (initialSim pt o) = Some (log, st) /\
    keys (simReplacement st) = zip pages (seqZ 0 (Z.of_nat (length pages))) /\
    evictions (simStats st) = 0 /\
    misses (simStats st) = Z.of_nat (length pages) /\
    hits (simStats st) = Z.of_nat (length trace) - Z.of_nat (length pages) /\
    Forall2 (fun va a =>
               didEvict (accFault a) = false /\
               (pageOf pt va, pfn (accFault a)) ∈ keys (simReplacement st))
            trace log.
Proof.
  intros Hv Hsum Hc Hno Hmax Hall Hlen pages Hfit.
  pose proof (initial_inv bits o pt Hv Hsum Hc Hmax) as Hinv0.
  destruct (processTrace_all_fit o trace (offsetBits pt) 0 _ Hno Hinv0 eq_refl
              ltac:(lia) Hall Hfit) as (log & st & Hrun & Hk & _ & Hlog).
  destruct (processTrace_stats o trace 0 _ Hinv0 (initial_stats pt o)
              ltac:(lia) Hall)
    as (log' & st' & Hrun' & Hinv & (Hp & Hhm & Hh0 & He0 & Hfr) & _ & Hfull
        & _ & He & _).
  rewrite Hrun in Hrun'. injection Hrun' as <- <-.
  rewrite (Hfull Hno) in *.
  exists log, st. split; [done|].
  pose proof (evictionCount_none _ _ _ Hlog) as Hnone.
  rewrite Hnone in He. simpl in He.
  change ((keys (simReplacement (initialSim pt o))).*1) with (@nil Z) in Hk.
  change (firstTouches [] ((fun va => va / 2 ^ offsetBits pt) <$> trace))
    with pages in Hk.
  assert (length (loaded (simReplacement st)) = length pages) as Hlp.
  { by rewrite <- keys_length, <- Hk, length_fmap. }
  split.
  - destruct (inv_residents _ _ _ Hinv) as (Hfrm & _ & _).
    rewrite <- (zip_fst_snd (keys (simReplacement st))).
    by rewrite Hk, Hfrm, keys_length, Hlp.
  - split; [lia|]. split; [lia|]. split; [lia|]. exact Hlog.
Qed.

Lemma working_set_within_budget_never_evicts_witness :
  let o := mkOptions 0 false 2 10 "summary" in
  let trace := [0; 4096; 0; 4100] in
  let pages := firstTouches [] (pageOf exampleTable <$> trace) in
  exists log st,
    processTrace o trace (initialSim exampleTable o) = Some (log, st) /\
    keys (simReplacement st) = zip pages (seqZ 0 (Z.of_nat (length pages))) /\
    evictions (simStats st) = 0 /\
    misses (simStats st) = Z.of_nat (length pages) /\
    hits (simStats st) = Z.of_nat (length trace) - Z.of_nat (length pages) /\
    Forall2 (fun va a =>
               didEvict (accFault a) = false /\
               (pageOf exampleTable va, pfn (accFault a))
                 ∈ keys (simReplacement st))
            trace log.
Proof.
  apply (working_set_within_budget_never_evicts exampleBits
           (mkOptions 0 false 2 10 "summary") [0; 4096; 0; 4100] exampleTable).
  - exact exampleBits_valid.
  - simpl. lia.
  - reflexivity.
  - reflexivity.
  - simpl. lia.
  - repeat (constructor; [rewrite pow2_32; lia|]). constructor.
  - unfold UINT_MAX. simpl. lia.
  - vm_compute. discriminate.
Defined.

(** ** What every access reports *)

Lemma processTrace_accesses o off mx (P : Z -> Access -> Prop) :
  (forall t st va a st',
     sim_inv t st -> t < UINT_MAX -> 0 <= va < 2 ^ 32 ->
     offsetBits (simTable st) = off -> maxFrames (simReplacement st) = mx ->
     processAddress st va = Some (a, st') -> P va a) ->
  forall trace t st,
  sim_inv t st -> offsetBits (simTable st) = off ->
  maxFrames (simReplacement st) = mx ->
  t + Z.of_nat (length trace) <= UINT_MAX ->
  Forall (fun va => 0 <= va < 2 ^ 32) trace ->
  exists log st', processTrace o trace st = Some (log, st') /\
    Forall2 P (take (length log) trace) log.
Proof.
  intros Hstep. induction trace as [|va trace IH];
    intros t st Hinv Hoff Hmx Hlen Hall.
  - exists [], st. split; [done|]. constructor.
  - simpl length in Hlen. simpl.
    destruct (haveLimitN o && (limitN o <=? addressesProcessed (simStats st))).
    { exists [], st. split; [done|]. constructor. }
    inversion Hall as [|?? Hva Hall']; subst.
    destruct (processAddress_inv t st va Hinv ltac:(lia) Hva)
      as (a & st1 & Heq & Hinv1 & Hoff1 & Hmx1 & _).
    pose proof (Hstep t st va a st1 Hinv ltac:(lia) Hva eq_refl eq_refl Heq)
      as HP.
    rewrite Heq. simpl.
    destruct (IH (t + 1) st1 Hinv1 Hoff1 Hmx1 ltac:(lia) Hall')
      as (log & st' & -> & Hlog).
    simpl. exists (a :: log), st'. split; [done|]. simpl. by constructor.
Qed.

(** X18 — What every access of a run reports: offset = address mod page size;
    physical address = frame * page size + offset, below 2^32; frame within
    [0, budget); the hit flag is the negation of the fault flag; an eviction
    is reported only with a fault. *)
Theorem every_access_is_translated bits o trace pt :
  validLevels bits -> sumZ bits <= 31 ->
  createPageTable (Z.of_nat (length bits)) bits = Some pt ->
  1 <= optMaxFrames o ->
  Forall (fun va => 0 <= va < 2 ^ 32) trace ->
  Z.of_nat (length trace) <= UINT_MAX ->
  exists log st,
    processTrace o trace (initialSim pt o) = Some (log, st) /\
    Forall2 (fun va a =>
               accOffset a = va mod 2 ^ offsetBits pt /\
               accPhysical a =
                 pfn (accFault a) * 2 ^ offsetBits pt + accOffset a /\
               0 <= accPhysical a < 2 ^ 32 /\
               0 <= pfn (accFault a) < optMaxFrames o /\
               accHit a = negb (didFault (accFault a)) /\
               (didEvict (accFault a) = true ->
                didFault (accFault a) = true))
            (take (length log) trace) log.
Proof.
  intros Hv Hsum Hc Hmax Hall Hlen.
  pose proof (initial_inv bits o pt Hv Hsum Hc Hmax) as Hinv0.
  apply (processTrace_accesses o (offsetBits pt) (optMaxFrames o) _)
    with (t := 0); [|done|done|done|lia|done].
  clear. generalize (offsetBits pt) (optMaxFrames o).
  intros off mx t st va a st' Hinv Hlt Hva Hoff Hmx Heq.
  destruct (processAddress_cases t st va Hinv Hlt Hva)
    as (a0 & st0 & Heq0 & Hinv' & Hoff' & Hmx' & Hao & Hpa & _ & _ & _ & Hin
        & Hcases).
  rewrite Heq in Heq0. injection Heq0 as <- <-. cbn zeta in Hin, Hcases.
  rewrite Hoff in *.
  pose proof (inv_table _ _ _ Hinv) as [Hg _].
  pose proof (geometry_offset _ Hg) as [_ Ho]. rewrite Hoff in Ho.
  pose proof (inv_residents _ _ _ Hinv') as Hres. rewrite Hoff' in Hres.
  destruct (resident_frame_range off _ _ _ ltac:(lia) Hres Hin) as [Hf Hk].
  pose proof (inv_budget _ _ _ Hinv') as Hbud.
  rewrite <- keys_length, Hmx', Hmx in Hbud.
  pose proof (Z.mod_pos_bound va (2 ^ off) (pow2_pos off ltac:(lia))) as Hmod.
  split; [done|]. split; [by rewrite Hao|]. split.
  { rewrite Hpa.
    assert ((pfn (accFault a) + 1) * 2 ^ off <= 2 ^ 32).
    { replace 32 with ((32 - off) + off) at 1 by lia.
      rewrite Z.pow_add_r by lia. apply Z.mul_le_mono_nonneg_r; lia. }
    nia. }
  split; [lia|].
  destruct Hcases as [(f & _ & -> & -> & _)|
    [(_ & _ & -> & -> & _)|(_ & _ & -> & (j & v & _ & _ & _ & -> & _) & _)]];
    done.
Qed.

Lemma every_access_is_translated_witness :
  let o := mkOptions 0 false 1 10 "summary" in
  exists log st,
    processTrace o [0; 4096; 0; 8192] (initialSim exampleTable o)
    = Some (log, st) /\
    Forall2 (fun va a =>
               accOffset a = va mod 2 ^ offsetBits exampleTable /\
               accPhysical a =
                 pfn (accFault a) * 2 ^ offsetBits exampleTable + accOffset a /\
               0 <= accPhysical a < 2 ^ 32 /\
               0 <= pfn (accFault a) < optMaxFrames o /\
               accHit a = negb (didFault (accFault a)) /\
               (didEvict (accFault a) = true ->
                didFault (accFault a) = true))
            (take (length log) [0; 4096; 0; 8192]) log.
Proof.
  apply (every_access_is_translated exampleBits
           (mkOptions 0 false 1 10 "summary") [0; 4096; 0; 8192] exampleTable).
  - exact exampleBits_valid.
  - simpl. lia.
  - reflexivity.
  - simpl. lia.
  - repeat (constructor; [rewrite pow2_32; lia|]). constructor.
  - unfold UINT_MAX. simpl. lia.
Defined.

(** ** Two accesses to one page in a row *)

Lemma keyed_unique (K : list (Z * Z)) p f g :
  NoDup K.*1 -> (p, f) ∈ K -> (p, g) ∈ K -> f = g.
Proof.
  intros Hnd Hf Hg.
  apply list_elem_of_lookup in Hf as [i Hi].
  apply list_elem_of_lookup in Hg as [j Hj].
  assert (i = j) as ->.
  { apply (NoDup_lookup _ _ _ p Hnd); by rewrite list_lookup_fmap, ?Hi, ?Hj. }
  congruence.
Qed.

(** X19 — Two accesses in a row to the same page, at any point of a run: the
    second is a hit, returns the frame of the first, reports neither fault
    nor eviction, and changes neither the table nor the pages and frames of
    the resident set. *)
Theorem repeated_access_hits bits o trace va vb pt :
  validLevels bits -> sumZ bits <= 31 ->
  createPageTable (Z.of_nat (length bits)) bits = Some pt ->
  1 <= optMaxFrames o ->
  Forall (fun x => 0 <= x < 2 ^ 32) (trace ++ [va; vb]) ->
  Z.of_nat (length (trace ++ [va; vb])) <= UINT_MAX ->
  pageOf pt vb = pageOf pt va ->
  exists log st a st1 b st2,
    processTrace o trace (initialSim pt o) = Some (log, st) /\
    processAddress st va = Some (a, st1) /\
    processAddress st1 vb = Some (b, st2) /\
    accHit b = true /\
    accFault b = mkFaultResult (pfn (accFault a)) false false 0 0 /\
    simTable st2 = simTable st1 /\
    keys (simReplacement st2) = keys (simReplacement st1).
Proof.
  intros Hv Hsum Hc Hmax Hall Hlen Hpage.
  apply Forall_app in Hall as [Hall Hab].
  inversion Hab as [|?? Hva Hb]; subst. inversion Hb as [|?? Hvb _]; subst.
  rewrite length_app in Hlen. simpl in Hlen.
  pose proof (initial_inv bits o pt Hv Hsum Hc Hmax) as Hinv0.
  destruct (processTrace_inv o trace 0 _ Hinv0 ltac:(lia) Hall)
    as (log & st & t & Hrun & Hinv & Ht & Hoff & _).
  simpl in Hoff.
  destruct (processAddress_cases t st va Hinv ltac:(lia) Hva)
    as (a & st1 & Ha & Hinv1 & Hoff1 & _ & _ & _ & _ & _ & _ & Hin1 & _).
  destruct (processAddress_cases (t + 1) st1 vb Hinv1 ltac:(lia) Hvb)
    as (b & st2 & Hb2 & _ & _ & _ & _ & _ & _ & _ & _ & _ & Hcases).
  cbn zeta in Hin1, Hcases.
  assert (pageOf (simTable st1) vb = pageOf (simTable st) va) as Hp.
  { unfold pageOf in *. by rewrite Hoff1, Hoff. }
  rewrite Hp in Hcases.
  exists log, st, a, st1, b, st2.
  split; [done|]. split; [done|]. split; [done|].
  destruct (inv_residents _ _ _ Hinv1) as (_ & Hnd & _).
  destruct Hcases as [(f & Hin & Hhit & Hf & HK & Hpt & _)|
    [(Hfresh & _)|(Hfresh & _)]].
  - rewrite (keyed_unique _ _ _ _ Hnd Hin1 Hin). done.
  - exfalso. apply Hfresh, list_elem_of_fmap.
    by exists (pageOf (simTable st) va, pfn (accFault a)).
  - exfalso. apply Hfresh, list_elem_of_fmap.
    by exists (pageOf (simTable st) va, pfn (accFault a)).
Qed.

Lemma repeated_access_hits_witness :
  let o := mkOptions 0 false 1 10 "summary" in
  exists log st a st1 b st2,
    processTrace o [0; 4096] (initialSim exampleTable o) = Some (log, st) /\
    processAddress st 8192 = Some (a, st1) /\
    processAddress st1 8200 = Some (b, st2) /\
    accHit b = true /\
    accFault b = mkFaultResult (pfn (accFault a)) false false 0 0 /\
    simTable st2 = simTable st1 /\
    keys (simReplacement st2) = keys (simReplacement st1).
Proof.
  apply (repeated_access_hits exampleBits (mkOptions 0 false 1 10 "summary")
           [0; 4096] 8192 8200 exampleTable).
  - exact exampleBits_valid.
  - simpl. lia.
  - reflexivity.
  - simpl. lia.
  - repeat (constructor; [rewrite pow2_32; lia|]). constructor.
  - unfold UINT_MAX. simpl. lia.
  - reflexivity.
Defined.

(** ** Aging at every access *)

Lemma ageBand_range d a : 0 <= d -> ageBand d a -> 0 <= a < 2 ^ 16.
Proof.
  intros Hd [Hlo Hhi]. destruct (Z.lt_ge_cases d 16) as [Hlt|Hge].
  - specialize (Hlo Hlt).
    pose proof (pow2_pos (15 - d) ltac:(lia)).
    pose proof (pow2_le_mono (16 - d) 16 ltac:(lia)). lia.
  - rewrite (Hhi Hge). change (2 ^ 16) with 65536. lia.
Qed.

Lemma ageEntry_aged t e :
  0 <= lastAccessTime e -> recent t e -> aged t (ageEntry e).
Proof.
  intros Hl0 [(Hl & Hf & Ha)|(Hl & Hf & Hb)].
  - destruct (ageEntry_value e Ha) as [Hv Hs]. rewrite Hf in Hv.
    split; [simpl; lia|]. split; [done|]. rewrite Hv.
    replace (t - lastAccessTime (ageEntry e)) with 0 by (simpl; lia).
    change (2 ^ 15) with 32768 in *.
    split; [intros _; change (2 ^ (15 - 0)) with 32768;
            change (2 ^ (16 - 0)) with 65536; lia|lia].
  - pose proof (ageBand_range (t - 1 - lastAccessTime e) (ageBits e)
                  ltac:(lia) Hb) as Ha.
    destruct (ageEntry_value e Ha) as [Hv Hs]. rewrite Hf, Z.add_0_r in Hv.
    split; [simpl; lia|]. split; [done|]. rewrite Hv.
    replace (t - lastAccessTime (ageEntry e))
      with ((t - 1 - lastAccessTime e) + 1) by (simpl; lia).
    set (d := t - 1 - lastAccessTime e) in *.
    assert (0 <= d) by lia.
    destruct Hb as [Hlo Hhi]. rewrite Z.shiftr_div_pow2 by lia.
    change (2 ^ 1) with 2.
    split.
    + intros Hd. specialize (Hlo ltac:(lia)).
      replace (15 - d) with (15 - (d + 1) + 1) in Hlo by lia.
      replace (16 - d) with (16 - (d + 1) + 1) in Hlo by lia.
      rewrite !Z.pow_add_r in Hlo by lia. change (2 ^ 1) with 2 in Hlo.
      split.
      * apply Z.div_le_lower_bound; lia.
      * apply Z.div_lt_upper_bound; lia.
    + intros Hd. destruct (decide (d = 15)) as [->|Hne].
      * specialize (Hlo ltac:(lia)). change (2 ^ (15 - 15)) with 1 in Hlo.
        change (2 ^ (16 - 15)) with 2 in Hlo.
        apply Z.div_small. lia.
      * rewrite Hhi by lia. done.
Qed.

Lemma aged_order t e1 e2 :
  aged t e1 -> aged t e2 -> lastAccessTime e1 < lastAccessTime e2 ->
  entryLt e1 e2.
Proof.
  intros (Hl1 & _ & Hlo1 & Hhi1) (Hl2 & _ & Hlo2 & Hhi2) Hlt.
  unfold entryLt, keyLt.
  destruct (Z.lt_ge_cases (t - lastAccessTime e2) 16) as [Hd2|Hd2].
  - left. specialize (Hlo2 Hd2).
    destruct (Z.lt_ge_cases (t - lastAccessTime e1) 16) as [Hd1|Hd1].
    + specialize (Hlo1 Hd1).
      pose proof (pow2_le_mono (16 - (t - lastAccessTime e1))
                    (15 - (t - lastAccessTime e2)) ltac:(lia)). lia.
    + rewrite (Hhi1 Hd1).
      pose proof (pow2_pos (15 - (t - lastAccessTime e2)) ltac:(lia)). lia.
  - right. rewrite (Hhi2 Hd2), (Hhi1 ltac:(lia)). lia.
Qed.

Lemma aged_recent t e : aged t e -> recent (t + 1) e.
Proof.
  intros (Hl & Hf & Hb). right. split; [lia|]. split; [done|].
  by replace (t + 1 - 1 - lastAccessTime e) with (t - lastAccessTime e) by lia.
Qed.

(** A note for a record that already carries the stamp changes nothing. *)
Lemma noteFrameAccessIn_stamped l now vpn frame :
  Forall (fun e => fullVPN e = vpn -> info_frameNumber e = frame ->
                   lastAccessTime e = now /\ accessedThisInterval e = true) l ->
  noteFrameAccessIn l now vpn frame = l.
Proof.
  induction 1 as [|e l He Hall IH]; [done|]. simpl.
  destruct (Z.eqb_spec (fullVPN e) vpn) as [Hv|Hv],
           (Z.eqb_spec (info_frameNumber e) frame) as [Hf|Hf]; simpl;
    try (by rewrite IH).
  destruct (He Hv Hf) as [Hl Ha]. destruct e; simpl in *. by subst.
Qed.

Lemma lru_step t st va a st' :
  sim_inv t st -> lru_inv t (simReplacement st) -> t < UINT_MAX ->
  0 <= va < 2 ^ 32 ->
  processAddress st va = Some (a, st') ->
  lru_inv (t + 1) (simReplacement st') /\
  (didEvict (accFault a) = true ->
   exists e, e ∈ loaded (simReplacement st) /\
     fullVPN e = evictedVPN (accFault a) /\
     forall e', e' ∈ loaded (simReplacement st) ->
                lastAccessTime e <= lastAccessTime e').
Proof.
  intros Hinv (Hbi & Hacc & Hnd & Hrec) Hlt Hva Heq.
  destruct (processAddress_cases t st va Hinv Hlt Hva)
    as (a0 & st0 & Heq0 & Hinv' & _ & _ & _ & _ & _ & Hbi' & Hacc' & _
        & Hcases).
  rewrite Heq in Heq0. injection Heq0 as <- <-. cbn zeta in Hcases.
  set (rs := simReplacement st) in *.
  set (p := pageOf (simTable st) va) in *.
  pose proof (inv_bounds _ _ _ Hinv) as Hb. fold rs in Hb.
  destruct (tick_counter rs ltac:(lia) ltac:(unfold UINT_MAX; lia))
    as [Hfire _]. cbn zeta in Hfire.
  destruct (Hfire ltac:(lia)) as [Hacc1 Hl1]. clear Hfire.
  rewrite Hl1 in Hcases. rewrite Hacc1 in Hacc'.
  set (A := ageEntry <$> loaded rs) in *.
  assert (Forall (aged t) A) as HA.
  { apply Forall_fmap, Forall_forall. intros e He.
    rewrite Forall_forall in Hrec, Hb.
    apply ageEntry_aged; [|by apply Hrec]. by apply (Hb e He). }
  assert (lastAccessTime <$> A = lastAccessTime <$> loaded rs) as HlA.
  { unfold A. by rewrite <- list_fmap_compose. }
  assert (t + 1 ∉ lastAccessTime <$> A) as Hnew.
  { intros Hin. apply list_elem_of_fmap in Hin as (e & He & Hin).
    rewrite Forall_forall in HA. destruct (HA e Hin) as (? & _). lia. }
  assert (Forall (recent (t + 1)) A) as HA1.
  { eapply Forall_impl; [exact HA|]. apply aged_recent. }
  assert (keys rs = residentKey <$> A) as HkA.
  { unfold A, keys. by rewrite <- list_fmap_compose. }
  assert (forall f, recent (t + 1) (mkLoadedPageInfo p f 32768 (t + 1) true))
    as Hfresh_recent.
  { intros f. left. simpl. change (2 ^ 16) with 65536. lia. }
  assert ((p ∉ (keys rs).*1) -> forall f,
          Forall (fun e => fullVPN e = p -> info_frameNumber e = f ->
                     lastAccessTime e = t + 1 /\ accessedThisInterval e = true)
                 A) as Hnomatch.
  { intros Hfresh f. apply Forall_forall. intros e He Hp _. exfalso.
    apply Hfresh. rewrite HkA, <- list_fmap_compose.
    apply list_elem_of_fmap. by exists e. }
  destruct Hcases as [(f & Hin & _ & Hf & _ & _ & Hl' & _)|
    [(Hfresh & _ & _ & Hf & _ & _ & Hl' & _)|
     (Hfresh & _ & _ & (j & victim & Hj & _ & Hmin & Hf & _ & _ & Hl') & _)]].
  - (* hit *)
    split; [|by rewrite Hf].
    rewrite HkA in Hin. apply list_elem_of_fmap in Hin as (e & He & Hin).
    injection He as Hp Hfr.
    destruct (noteFrameAccessIn_present A (t + 1) p f)
      as (i & e' & Hi & _ & _ & Hn).
    { apply Exists_exists. by exists e. }
    rewrite Hn in Hl'.
    split; [congruence|]. split; [congruence|]. rewrite Hl'. split.
    + rewrite list_fmap_insert. simpl. apply NoDup_insert_fresh; [|done].
      by rewrite HlA.
    + apply Forall_insert; [done|]. left. simpl.
      rewrite Forall_forall in HA.
      destruct (HA e' (list_elem_of_lookup_2 _ _ _ Hi)) as (? & _ & Hband).
      split; [done|]. split; [done|].
      apply (ageBand_range (t - lastAccessTime e')); [lia|done].
  - (* a frame is still free *)
    split; [|by rewrite Hf].
    rewrite noteFrameAccessIn_stamped in Hl'.
    2:{ apply Forall_app. split; [by apply Hnomatch|].
        constructor; [done|constructor]. }
    split; [congruence|]. split; [congruence|]. rewrite Hl'. split.
    + rewrite fmap_app. apply NoDup_app. split; [by rewrite HlA|].
      split; [|apply NoDup_singleton].
      intros x Hx Hx'. apply list_elem_of_singleton in Hx'. simpl in Hx'.
      by subst x.
    + apply Forall_app. split; [done|]. constructor; [|done].
      apply Hfresh_recent.
  - (* eviction *)
    rewrite noteFrameAccessIn_stamped in Hl'.
    2:{ apply Forall_insert; [by apply Hnomatch|done]. }
    split.
    + split; [congruence|]. split; [congruence|]. rewrite Hl'. split.
      * rewrite list_fmap_insert. simpl. apply NoDup_insert_fresh; [|done].
        by rewrite HlA.
      * apply Forall_insert; [done|]. apply Hfresh_recent.
    + intros _. rewrite Hf. cbn [evictedVPN].
      unfold A in Hj. rewrite list_lookup_fmap in Hj.
      destruct (loaded rs !! j) as [e0|] eqn:He0; [|done].
      injection Hj as <-. exists e0.
      split; [by apply list_elem_of_lookup_2 in He0|]. split; [done|].
      intros e' He'. apply list_elem_of_lookup in He' as [j' Hj'].
      destruct (Z.le_gt_cases (lastAccessTime e0) (lastAccessTime e'))
        as [?|Hgt]; [done|]. exfalso.
      destruct (Hmin j' (ageEntry e')) as [Hnot _].
      { unfold A. by rewrite list_lookup_fmap, Hj'. }
      apply Hnot. rewrite Forall_forall in HA.
      apply (aged_order t); [apply HA|apply HA|simpl; lia].
      * apply list_elem_of_fmap. exists e'.
        split; [done|]. by apply list_elem_of_lookup_2 in Hj'.
      * apply list_elem_of_fmap. exists e0.
        split; [done|]. by apply list_elem_of_lookup_2 in He0.
Qed.

Lemma processTrace_lru o trace : forall t st,
  sim_inv t st -> lru_inv t (simReplacement st) ->
  t + Z.of_nat (length trace) <= UINT_MAX ->
  Forall (fun va => 0 <= va < 2 ^ 32) trace ->
  exists log st' t', processTrace o trace st = Some (log, st') /\
    sim_inv t' st' /\ lru_inv t' (simReplacement st') /\
    t <= t' <= t + Z.of_nat (length trace).
Proof.
  induction trace as [|va trace IH]; intros t st Hinv Hlru Hlen Hall.
  - exists [], st, t. simpl. split; [done|]. split; [done|]. split; [done|lia].
  - simpl length in Hlen. simpl.
    destruct (haveLimitN o && (limitN o <=? addressesProcessed (simStats st))).
    { exists [], st, t. split; [done|]. split; [done|]. split; [done|lia]. }
    inversion Hall as [|?? Hva Hall']; subst.
    destruct (processAddress_inv t st va Hinv ltac:(lia) Hva)
      as (a & st1 & Heq & Hinv1 & _).
    destruct (lru_step t st va a st1 Hinv Hlru ltac:(lia) Hva Heq)
      as [Hlru1 _].
    rewrite Heq. simpl.
    destruct (IH (t + 1) st1 Hinv1 Hlru1 ltac:(lia) Hall')
      as (log & st' & t' & -> & Hinv' & Hlru' & Ht').
    simpl. exists (a :: log), st', t'.
    split; [done|]. split; [done|]. split; [done|lia].
Qed.

(** X20 — With an aging interval of one access the policy is least recently
    used: whenever an access evicts, the evicted page is the resident page
    whose last access is the oldest; the timestamps of the resident records
    are pairwise distinct, so that this page is unique. *)
Theorem aging_at_every_access_evicts_least_recently_used bits o trace va pt :
  validLevels bits -> sumZ bits <= 31 ->
  createPageTable (Z.of_nat (length bits)) bits = Some pt ->
  1 <= optMaxFrames o -> optBitInterval o = 1 ->
  Forall (fun x => 0 <= x < 2 ^ 32) (trace ++ [va]) ->
  Z.of_nat (length (trace ++ [va])) <= UINT_MAX ->
  exists log st a st',
    processTrace o trace (initialSim pt o) = Some (log, st) /\
    processAddress st va = Some (a, st') /\
    NoDup (lastAccessTime <$> loaded (simReplacement st)) /\
    (didEvict (accFault a) = true ->
     exists e, e ∈ loaded (simReplacement st) /\
       fullVPN e = evictedVPN (accFault a) /\
       forall e', e' ∈ loaded (simReplacement st) ->
                  lastAccessTime e <= lastAccessTime e').
Proof.
  intros Hv Hsum Hc Hmax Hone Hall Hlen.
  apply Forall_app in Hall as [Hall Hva]. inversion Hva as [|?? Hva' _]; subst.
  rewrite length_app in Hlen. simpl in Hlen.
  pose proof (initial_inv bits o pt Hv Hsum Hc Hmax) as Hinv0.
  assert (lru_inv 0 (simReplacement (initialSim pt o))) as Hlru0.
  { split; [done|]. split; [done|]. split; constructor. }
  destruct (processTrace_lru o trace 0 _ Hinv0 Hlru0 ltac:(lia) Hall)
    as (log & st & t & Hrun & Hinv & Hlru & Ht).
  destruct (processAddress_inv t st va Hinv ltac:(lia) Hva')
    as (a & st' & Heq & _).
  destruct (lru_step t st va a st' Hinv Hlru ltac:(lia) Hva' Heq)
    as [_ Hvictim].
  exists log, st, a, st'. split; [done|]. split; [done|].
  split; [apply Hlru|done].
Qed.

Lemma aging_at_every_access_evicts_least_recently_used_witness :
  let o := mkOptions 0 false 2 1 "summary" in
  exists log st a st',
    processTrace o [0; 4096; 0] (initialSim exampleTable o) = Some (log, st) /\
    processAddress st 8192 = Some (a, st') /\
    NoDup (lastAccessTime <$> loaded (simReplacement st)) /\
    (didEvict (accFault a) = true ->
     exists e, e ∈ loaded (simReplacement st) /\
       fullVPN e = evictedVPN (accFault a) /\
       forall e', e' ∈ loaded (simReplacement st) ->
                  lastAccessTime e <= lastAccessTime e').
Proof.
  apply (aging_at_every_access_evicts_least_recently_used exampleBits
           (mkOptions 0 false 2 1 "summary") [0; 4096; 0] 8192 exampleTable).
  - exact exampleBits_valid.
  - simpl. lia.
  - reflexivity.
  - simpl. lia.
  - reflexivity.
  - repeat (constructor; [rewrite pow2_32; lia|]). constructor.
  - unfold UINT_MAX. simpl. lia.
Defined.

(** ** The census of valid mappings *)

Lemma validUnit_range m : 0 <= validUnit m <= 1.
Proof. unfold validUnit. destruct (_ && _); lia. Qed.

Lemma validUnit_readMap m : validUnit m = found (Some (readMap m)).
Proof.
  unfold validUnit, readMap, found.
  destruct (valid m); simpl; [|done].
  destruct (Z.leb_spec 0 (frameNumber m)), (Z.ltb_spec (frameNumber m) 0);
    (done || lia).
Qed.

Lemma countValidMaps_spec arr s :
  0 <= s -> s + sumZ (validUnit <$> arr) < 2 ^ 32 ->
  countValidMaps (length arr) arr s = Some (s + sumZ (validUnit <$> arr)).
Proof.
  revert s. induction arr as [|m arr IH]; intros s Hs Hlt.
  - simpl. by rewrite Z.add_0_r.
  - rewrite fmap_cons in *. simpl sumZ in *. simpl.
    assert (0 <= sumZ (validUnit <$> arr)).
    { apply sumZ_nonneg0, Forall_fmap, Forall_forall.
      intros x _. simpl. apply validUnit_range. }
    pose proof (validUnit_range m) as Hm. unfold validUnit in *.
    destruct (valid m && (0 <=? frameNumber m)).
    + rewrite wrap32_small by lia. rewrite IH by lia. f_equal; lia.
    + rewrite IH by lia. f_equal; lia.
Qed.

Lemma sumZ_fmap_le {A} (f g : A -> Z) (l : list A) :
  Forall (fun x => f x <= g x) l -> sumZ (f <$> l) <= sumZ (g <$> l).
Proof.
  induction 1 as [|x l Hx _ IH]; [done|]. rewrite !fmap_cons. simpl. lia.
Qed.

Lemma sumZ_fmap_add {A} (f g h : A -> Z) (l : list A) :
  Forall (fun x => f x = g x + h x) l ->
  sumZ (f <$> l) = sumZ (g <$> l) + sumZ (h <$> l).
Proof.
  induction 1 as [|x l Hx _ IH]; [done|]. rewrite !fmap_cons. simpl. lia.
Qed.

Lemma mappingCount_interior n lvl :
  mappingCount (S (S n)) lvl =
  match nextLevelArray lvl with
  | None => 0
  | Some arr => sumZ (slotCount (mappingCount (S n)) <$> arr)
  end.
Proof. done. Qed.

(** The census with valid mappings is the interior slots plus the
    mappings. *)
Lemma census_valid_split n : forall lvl,
  census validUnits n lvl = interiorSlots n lvl + mappingCount n lvl.
Proof.
  unfold interiorSlots.
  induction n as [|n IH]; intros lvl; [done|].
  destruct n as [|n].
  - simpl. unfold validUnits. by destruct (mapArray lvl).
  - rewrite !census_interior, mappingCount_interior.
    destruct (nextLevelArray lvl) as [arr|]; [|done].
    apply sumZ_fmap_add, Forall_forall. intros [c|] _; cbn [slotCount]; [|done].
    rewrite IH. lia.
Qed.

Lemma mappingCount_bounds pt n d lvl :
  wf_level pt n d lvl ->
  0 <= mappingCount n lvl /\
  0 <= interiorSlots n lvl /\
  census validUnits n lvl <= census entryCount n lvl.
Proof.
  unfold interiorSlots. revert d lvl.
  induction n as [|n IH]; intros d lvl Hwf; [done|].
  destruct n as [|n].
  - destruct Hwf as (_ & (b & _ & He) & Hmap & _). simpl. unfold validUnits.
    destruct (mapArray lvl) as [arr|]; [|lia].
    pose proof (sumZ_bounds (validUnit <$> arr) 1) as Hb.
    rewrite length_fmap in Hb.
    assert (0 <= entryCount lvl) by (rewrite He; apply Z.pow_nonneg; lia).
    specialize (Hb ltac:(apply Forall_fmap, Forall_forall; intros x _;
                         apply validUnit_range)). lia.
  - destruct Hwf as (_ & _ & _ & Hnext).
    rewrite !census_interior, mappingCount_interior.
    destruct (nextLevelArray lvl) as [arr|]; [|lia].
    destruct Hnext as [_ Hall].
    assert (Forall (fun slot => match slot with
              | Some c => 0 <= mappingCount (S n) c /\
                          0 <= census (fun _ => 0) (S n) c /\
                          census validUnits (S n) c <= census entryCount (S n) c
              | None => True end) arr) as Hc.
    { eapply Forall_impl; [exact Hall|]. intros [c|] Hcw; [|done].
      by apply (IH (S d)). }
    split; [|split].
    + apply sumZ_nonneg0, Forall_fmap. eapply Forall_impl; [exact Hc|].
      intros [c|]; simpl; [tauto|done].
    + apply sumZ_nonneg0, Forall_fmap. eapply Forall_impl; [exact Hc|].
      intros [c|]; simpl; [lia|done].
    + apply sumZ_fmap_le. eapply Forall_impl; [exact Hc|].
      intros [c|]; simpl; [lia|done].
Qed.

(** On a well-formed node the counting function of [pagetable.cpp] is
    defined and returns the census with valid mappings. *)
Lemma countEntriesRecursive_census pt n d lvl :
  geometry pt -> 1 <= offsetBits pt -> wf_level pt n d lvl ->
  (d + n = length (levelBits pt))%nat ->
  countEntriesRecursive pt lvl = Some (census validUnits n lvl).
Proof.
  intros Hg Hoff. revert d lvl.
  induction n as [|n IH]; intros d lvl Hwf Hd; [done|].
  pose proof (census_bound pt (S n) d lvl Hg Hwf Hd) as Hbound.
  pose proof (mappingCount_bounds pt (S n) d lvl Hwf) as (Hm0 & Hi0 & Hle).
  pose proof (census_valid_split (S n) lvl) as Hsplit.
  assert (2 ^ (bitsFrom pt d + 1) <= 2 ^ 32) as Hcap.
  { apply pow2_le_mono. pose proof (geometry_offset _ Hg) as [Ho _].
    assert (0 <= bitsFrom pt d <= sumZ (levelBits pt)); [|lia].
    unfold bitsFrom. split.
    - apply sumZ_nonneg, Forall_drop, Hg.
    - rewrite <- (take_drop d (levelBits pt)) at 2. rewrite sumZ_app.
      assert (0 <= sumZ (take d (levelBits pt))); [|lia].
      apply sumZ_nonneg, Forall_take, Hg. }
  assert (0 <= census validUnits (S n) lvl < 2 ^ 32) as Hrange by lia.
  clear Hbound Hm0 Hi0 Hle Hsplit Hcap.
  destruct (wf_level_arrays _ _ _ _ Hwf) as (b & Hb & He & Hl & Hc).
  pose proof Hwf as (Hdep & _ & Hmap & Hnext).
  destruct lvl as [dp ec nla ma]. simpl in Hdep, He, Hnext, Hmap. subst dp.
  simpl countEntriesRecursive.
  rewrite geometry_leaf by (done || lia).
  destruct n as [|n].
  - rewrite bool_decide_true by lia. simpl in *. unfold validUnits in *.
    simpl in *. destruct ma as [arr|]; [|done].
    rewrite <- Hmap. rewrite countValidMaps_spec by lia. by rewrite Z.add_0_l.
  - rewrite bool_decide_false by lia. rewrite census_interior in *.
    simpl nextLevelArray in *. destruct nla as [arr|]; [|done].
    destruct Hnext as [Hlen Hall]. rewrite <- Hlen.
    rewrite sumZ_units_split in *.
    assert (0 <= sumZ (slotUnit <$> arr)).
    { apply sumZ_nonneg0, Forall_fmap, Forall_forall.
      intros [c|] _; simpl; lia. }
    assert (Forall (fun slot => match slot with
              | Some c => countEntriesRecursive pt c
                          = Some (census validUnits (S n) c)
                          /\ 0 <= census validUnits (S n) c
              | None => True
              end) arr) as Hchildren.
    { eapply Forall_impl; [exact Hall|]. intros [c|] Hcw; [|done].
      split; [apply (IH (S d)); [done|lia]|].
      pose proof (mappingCount_bounds pt (S n) (S d) c Hcw) as (? & ? & _).
      rewrite census_valid_split. lia. }
    assert (0 <= sumZ (slotCount (census validUnits (S n)) <$> arr)).
    { apply sumZ_nonneg0, Forall_fmap. eapply Forall_impl; [exact Hchildren|].
      intros [c|]; simpl; [intros [_ ?]; done|done]. }
    rewrite countChildSlots_spec by lia. simpl.
    rewrite (sumOverChildren_spec _ (census validUnits (S n))) by (done || lia).
    by rewrite Z.add_0_l.
Qed.

(** An insert changes the number of valid mappings by what it writes
    less what a lookup found in the slot before. *)
Lemma mappingCount_insert pt va f n : forall d lvl lvl',
  geometry pt -> 0 <= va -> wf_level pt n d lvl ->
  (d + n = length (levelBits pt))%nat ->
  insertWalk pt va f n (Z.of_nat d) lvl = Some lvl' ->
  mappingCount n lvl' =
  mappingCount n lvl - found (searchWalk pt va n (Z.of_nat d) lvl)
  + (if 0 <=? f then 1 else 0).
Proof.
  induction n as [|n IH]; intros d lvl lvl' Hg Hva Hwf Hd Hins; [done|].
  destruct (wf_level_arrays _ _ _ _ Hwf) as (b & Hb & He & Hl & Hc).
  destruct (walk_step _ va _ _ Hg Hva Hb) as (_ & _ & _ & Hr).
  destruct n as [|n].
  - rewrite insertWalk_leaf in Hins by (done || lia). injection Hins as <-.
    rewrite searchWalk_leaf by (done || lia).
    destruct (index_in_range (leafArray lvl) (levelIndex pt va d) b Hl Hr)
      as (old & Hold & _).
    cbn [mappingCount]. unfold validUnits at 1. cbn [mapArray set_mapArray].
    rewrite (sumZ_fmap_insert _ _ _ _ old Hold).
    assert (validUnit (mkMap f (0 <=? f)) = if 0 <=? f then 1 else 0) as ->.
    { unfold validUnit. simpl. by destruct (0 <=? f). }
    unfold validUnits, leafArray in *.
    destruct (mapArray lvl) as [arr|]; cbn [mbind option_bind].
    + rewrite Hold. cbn [mbind option_bind].
      rewrite (validUnit_readMap old). lia.
    + rewrite fmap_replicate.
      apply lookup_replicate in Hold as [-> _].
      change (validUnit (mkMap (-1) false)) with 0.
      rewrite sumZ_replicate_0. done.
  - rewrite insertWalk_interior in Hins by (done || lia).
    destruct (lookup_lt_is_Some_2 (levelBits pt) (S d)) as [b' Hb']; [lia|].
    pose proof (wf_level_childAt _ _ _ _ (levelIndex pt va d) _ Hwf Hb') as Hch.
    destruct (insertWalk pt va f (S n) _ _) as [c'|] eqn:Ec; [|done].
    simpl in Hins. injection Hins as <-.
    rewrite searchWalk_interior by (done || lia).
    destruct (index_in_range (childArray lvl) (levelIndex pt va d) b Hc Hr)
      as (slot & Hslot & _).
    pose proof (IH (S d) _ c' Hg Hva Hch ltac:(lia) Ec) as Hrec.
    rewrite !mappingCount_interior. cbn [nextLevelArray set_nextLevelArray].
    rewrite (sumZ_fmap_insert _ _ _ _ slot Hslot). cbn [slotCount].
    unfold childAt in Hrec. rewrite Hslot in Hrec.
    unfold childArray in *.
    destruct (nextLevelArray lvl) as [arr|].
    + rewrite Hslot. destruct slot as [c|]; cbn [slotCount].
      * lia.
      * rewrite Hb' in Hrec. cbn [default from_option id] in Hrec.
        rewrite (searchWalk_fresh pt va n (S d) b') in Hrec by (done || lia).
        replace (mappingCount (S n) (allocateLevel (Z.of_nat (S d)) (2 ^ b')))
          with 0 in Hrec by (by destruct n).
        simpl found in *. lia.
    + rewrite fmap_replicate. cbn [slotCount]. rewrite sumZ_replicate_0.
      apply lookup_replicate in Hslot as [-> _]. cbn [slotCount].
      rewrite Hb' in Hrec. cbn [default from_option id] in Hrec.
      rewrite (searchWalk_fresh pt va n (S d) b') in Hrec by (done || lia).
      replace (mappingCount (S n) (allocateLevel (Z.of_nat (S d)) (2 ^ b')))
        with 0 in Hrec by (by destruct n).
      simpl found in *. lia.
Qed.

Lemma mappingsOf_insert pt va f pt' r :
  wf_table pt -> 0 <= va ->
  insertMapForVpn2Pfn pt va f = Some pt' ->
  searchMappedPfn pt va = Some (r, pt) ->
  mappingsOf pt' =
  mappingsOf pt - found (Some r) + (if 0 <=? f then 1 else 0).
Proof.
  intros [Hg Hwf] Hva Hins Hs. unfold mappingsOf.
  destruct (geometry_count _ Hg) as [Hcount Hlen].
  rewrite searchMappedPfn_walk in Hs by done.
  unfold insertMapForVpn2Pfn in Hins. rewrite Hcount, Nat2Z.id in Hins.
  destruct (insertWalk _ _ _ _ _ _) as [root|] eqn:Hw; [|done].
  simpl in Hins. injection Hins as <-. cbn [levelBits rootLevel set_rootLevel].
  change 0 with (Z.of_nat 0) in Hw.
  rewrite (mappingCount_insert pt va f _ 0 _ _ Hg Hva Hwf ltac:(lia) Hw).
  change (Z.of_nat 0) with 0.
  destruct (searchWalk pt va _ 0 (rootLevel pt)) as [r'|]; [|done].
  simpl in Hs. injection Hs as ->. by destruct r.
Qed.

Lemma not_resident_not_found t pt rs va :
  state_inv t pt rs -> 0 <= va < 2 ^ 32 ->
  (pageOf pt va ∉ (keys rs).*1) ->
  searchMappedPfn pt va = Some (None, pt).
Proof.
  intros Hinv Hva Hfresh.
  destruct (searchMappedPfn_defined pt va (inv_table _ _ _ Hinv) ltac:(lia))
    as ([m|] & Hr & _); [|done].
  exfalso. apply Hfresh.
  assert (mapped pt va (frameNumber m)) as Hm by (by exists m).
  apply (inv_consistent _ _ _ Hinv va _ Hva) in Hm.
  apply list_elem_of_fmap in Hm as (e & He & Hin).
  apply list_elem_of_fmap. exists (pageOf pt va, frameNumber m).
  split; [done|]. apply list_elem_of_fmap. by exists e.
Qed.

Lemma mappings_step t st va a st' :
  sim_inv t st -> t < UINT_MAX -> 0 <= va < 2 ^ 32 ->
  mappingsOf (simTable st) = Z.of_nat (length (loaded (simReplacement st))) ->
  processAddress st va = Some (a, st') ->
  mappingsOf (simTable st') = Z.of_nat (length (loaded (simReplacement st'))).
Proof.
  intros Hinv Hlt Hva Hm Heq.
  destruct (processAddress_cases t st va Hinv Hlt Hva)
    as (a0 & st0 & Heq0 & Hinv' & _ & _ & _ & _ & _ & _ & _ & _ & Hcases).
  rewrite Heq in Heq0. injection Heq0 as <- <-. cbn zeta in Hcases.
  rewrite <- keys_length in *.
  pose proof (inv_table _ _ _ Hinv) as Hwf. pose proof Hwf as [Hg _].
  destruct Hcases as [(f & _ & _ & _ & -> & -> & _)|
    [(Hfresh & _ & _ & _ & -> & Hins & _)|
     (Hfresh & _ & _ & (j & victim & Hj & Hfv & _ & _ & -> & Hins & _) & _)]].
  - done.
  - pose proof (not_resident_not_found _ _ _ _ Hinv Hva Hfresh) as Hs.
    rewrite (mappingsOf_insert (simTable st) va _ _ _ Hwf ltac:(lia) Hins Hs).
    cbn [found].
    rewrite length_app. simpl length.
    destruct (Z.leb_spec 0 (Z.of_nat (length (keys (simReplacement st)))));
      lia.
  - destruct Hins as (victimVA & pt1 & Hshl & Hi1 & Hi2).
    rewrite length_insert.
    pose proof (key_in_keys _ _ _ Hj) as Hkj. rewrite tick_keys in Hkj.
    destruct (inv_residents _ _ _ Hinv) as (_ & _ & Hrange).
    assert (0 <= fullVPN victim < 2 ^ (32 - offsetBits (simTable st))) as Hvr.
    { apply (Forall_lookup_1 _ _ j _ Hrange).
      by rewrite list_lookup_fmap, Hkj. }
    destruct (shl32_vpn _ _ Hg Hvr) as (Hshl' & Hvar & Hvpage).
    rewrite Hshl' in Hshl. injection Hshl as <-.
    assert (exists m, searchMappedPfn (simTable st)
                        (fullVPN victim * 2 ^ offsetBits (simTable st))
                      = Some (Some m, simTable st)) as [m Hs1].
    { assert (mapped (simTable st)
                (fullVPN victim * 2 ^ offsetBits (simTable st))
                (info_frameNumber victim)) as (m & Hm1 & _); [|by exists m].
      apply (inv_consistent _ _ _ Hinv _ _ Hvar). unfold pageOf.
      rewrite Hvpage. apply resident_keys. fold (keys (simReplacement st)).
      by apply list_elem_of_lookup_2 in Hkj. }
    pose proof (mappingsOf_insert (simTable st)
                  (fullVPN victim * 2 ^ offsetBits (simTable st)) _ _ _ Hwf
                  ltac:(lia) Hi1 Hs1) as Hm1.
    pose proof (insert_keeps_wf (simTable st)
                  (fullVPN victim * 2 ^ offsetBits (simTable st)) _ _ Hwf
                  ltac:(lia) Hi1) as Hwf1.
    pose proof (not_resident_not_found _ _ _ _ Hinv Hva Hfresh) as Hs.
    assert (searchMappedPfn pt1 va = Some (None, pt1)) as Hs2.
    { destruct (searchMappedPfn_defined pt1 va Hwf1 ltac:(lia))
        as (r & Hr & _).
      pose proof (search_insert_other_page (simTable st) _ va (-1) pt1 Hwf
                    Hvar Hva) as Ho.
      rewrite Hr, Hs in Ho. simpl in Ho.
      rewrite Hr. f_equal. f_equal.
      assert (Some r = Some None) as [= ->]; [|done].
      apply Ho; [|done]. rewrite Hvpage. intros Heqp. apply Hfresh.
      unfold pageOf. rewrite <- Heqp. apply list_elem_of_fmap.
      exists (fullVPN victim, info_frameNumber victim).
      split; [done|]. by apply list_elem_of_lookup_2 in Hkj. }
    rewrite (mappingsOf_insert pt1 va _ _ _ Hwf1 ltac:(lia) Hi2 Hs2), Hm1.
    cbn [found].
    destruct (Z.leb_spec 0 (Z.of_nat j)); [|lia].
    simpl. lia.
Qed.

Lemma processTrace_mappings o trace : forall t st,
  sim_inv t st ->
  mappingsOf (simTable st) = Z.of_nat (length (loaded (simReplacement st))) ->
  t + Z.of_nat (length trace) <= UINT_MAX ->
  Forall (fun va => 0 <= va < 2 ^ 32) trace ->
  exists log st' t', processTrace o trace st = Some (log, st') /\
    sim_inv t' st' /\
    mappingsOf (simTable st') =
      Z.of_nat (length (loaded (simReplacement st'))).
Proof.
  induction trace as [|va trace IH]; intros t st Hinv Hm Hlen Hall.
  - by exists [], st, t.
  - simpl length in Hlen. simpl.
    destruct (haveLimitN o && (limitN o <=? addressesProcessed (simStats st))).
    { by exists [], st, t. }
    inversion Hall as [|?? Hva Hall']; subst.
    destruct (processAddress_inv t st va Hinv ltac:(lia) Hva)
      as (a & st1 & Heq & Hinv1 & _).
    pose proof (mappings_step t st va a st1 Hinv ltac:(lia) Hva Hm Heq) as Hm1.
    rewrite Heq. simpl.
    destruct (IH (t + 1) st1 Hinv1 Hm1 ltac:(lia) Hall')
      as (log & st' & t' & -> & Hinv' & Hm').
    simpl. by exists (a :: log), st', t'.
Qed.

(** X21 — The count of pagetable.cpp, [countEntriesRecursive], which nothing
    calls.  After every run it is defined and equals the number of non-null
    child slots plus the number of resident records: the valid mappings of
    the trie are as many as the resident pages.  It never exceeds the count
    the summary reports. *)
Theorem valid_mappings_match_resident_pages bits o trace pt :
  validLevels bits -> sumZ bits <= 31 ->
  createPageTable (Z.of_nat (length bits)) bits = Some pt ->
  1 <= optMaxFrames o ->
  Forall (fun va => 0 <= va < 2 ^ 32) trace ->
  Z.of_nat (length trace) <= UINT_MAX ->
  exists log st c cl,
    processTrace o trace (initialSim pt o) = Some (log, st) /\
    countEntriesRecursive (simTable st) (rootLevel (simTable st)) = Some c /\
    countEntriesRecursiveLocal (simTable st) (rootLevel (simTable st))
      = Some cl /\
    let slots := interiorSlots (length (levelBits (simTable st)))
                               (rootLevel (simTable st)) in
    0 <= slots /\
    c = slots + Z.of_nat (length (loaded (simReplacement st))) /\
    c <= cl.
Proof.
  intros Hv Hsum Hc Hmax Hall Hlen.
  pose proof (initial_inv bits o pt Hv Hsum Hc Hmax) as Hinv0.
  assert (mappingsOf (simTable (initialSim pt o)) =
          Z.of_nat (length (loaded (simReplacement (initialSim pt o)))))
    as Hm0.
  { destruct (validLevels_head _ Hv) as (b0 & Hb0 & Hr).
    assert (b0 < 32) as Hlt.
    { destruct Hv as (_ & Hpos & Hs).
      destruct bits as [|x bits]; [done|]. injection Hb0 as ->.
      simpl in Hsum.
      assert (0 <= sumZ bits); [|lia].
      apply sumZ_nonneg. by inversion Hpos. }
    rewrite (createPageTable_valid bits b0 Hv Hb0 Hlt) in Hc.
    injection Hc as <-. unfold mappingsOf. simpl.
    destruct bits as [|x [|y bits]]; done. }
  destruct (processTrace_mappings o trace 0 _ Hinv0 Hm0 ltac:(lia) Hall)
    as (log & st & t & Hrun & Hinv & Hm).
  pose proof (inv_table _ _ _ Hinv) as [Hg Hwf].
  pose proof (inv_off _ _ _ Hinv) as Hoff.
  exists log, st. eexists _, _. split; [done|].
  split; [apply (countEntriesRecursive_census
                   _ (length (levelBits (simTable st))) 0);
          [done|done|done|lia]|].
  split; [apply (countEntriesRecursiveLocal_census
                   _ (length (levelBits (simTable st))) 0);
          [done|done|done|lia]|].
  cbn zeta.
  pose proof (mappingCount_bounds _ _ _ _ Hwf) as (_ & Hi & Hle).
  split; [done|]. split; [|done].
  rewrite census_valid_split. unfold mappingsOf in Hm. lia.
Qed.

Lemma valid_mappings_match_resident_pages_witness :
  let o := mkOptions 0 false 1 10 "summary" in
  exists log st c cl,
    processTrace o [0; 4096; 0; 8192] (initialSim exampleTable o)
    = Some (log, st) /\
    countEntriesRecursive (simTable st) (rootLevel (simTable st)) = Some c /\
    countEntriesRecursiveLocal (simTable st) (rootLevel (simTable st))
      = Some cl /\
    let slots := interiorSlots (length (levelBits (simTable st)))
                               (rootLevel (simTable st)) in
    0 <= slots /\
    c = slots + Z.of_nat (length (loaded (simReplacement st))) /\
    c <= cl.
Proof.
  apply (valid_mappings_match_resident_pages exampleBits
           (mkOptions 0 false 1 10 "summary") [0; 4096; 0; 8192] exampleTable).
  - exact exampleBits_valid.
  - simpl. lia.
  - reflexivity.
  - simpl. lia.
  - repeat (constructor; [rewrite pow2_32; lia|]). constructor.
  - unfold UINT_MAX. simpl. lia.
Defined.

(** ** More on the configuration checks *)

Lemma to_unsigned_negative v : - 2 ^ 31 <= v < 0 -> to_unsigned v = 2 ^ 32 + v.
Proof.
  intros H. unfold to_unsigned, wrap32. change (2 ^ 31) with 2147483648 in H.
  rewrite pow2_32. symmetry.
  apply (Z.mod_unique_pos _ _ (-1)); lia.
Qed.

Lemma collectLevelBits_valid levels :
  Forall (fun b => 1 <= b < 2 ^ 31) levels -> (length levels <= 32)%nat ->
  sumZ levels < 2 ^ 32 ->
  collectLevelBits levels [] 0 0 =
  Some (inr (levels, Z.of_nat (length levels), sumZ levels)).
Proof.
  intros Hall Hlen Hsum.
  destruct (collectLevelBits_spec levels [] 0 0) as [[_ ->]|[Hno _]];
    try lia; try done.
  - eapply Forall_impl; [exact Hall|]. simpl. lia.
  - exfalso. apply Hno. eapply Forall_impl; [exact Hall|]. simpl. lia.
Qed.

(** X22 — Negative option arguments are not rejected.  For every v in
    [-2^31, -1] the options -f v, -b v and -n v pass the tests for a value
    below 1, which are made after the conversion to unsigned int, and set
    the budget, the interval or the limit to 2^32 + v. *)
Theorem negative_option_values_pass v levels :
  - 2 ^ 31 <= v < 0 ->
  Forall (fun b => 1 <= b < 2 ^ 31) levels ->
  (1 <= length levels <= 32)%nat -> sumZ levels <= 28 ->
  let cfg o := Some (inr (mkConfig o (Z.of_nat (length levels)) levels)) in
  checkConfiguration [OptF v] TraceOpened levels =
    cfg (mkOptions 0 false (2 ^ 32 + v) 10 "summary") /\
  checkConfiguration [OptB v] TraceOpened levels =
    cfg (mkOptions 0 false UINT_MAX (2 ^ 32 + v) "summary") /\
  checkConfiguration [OptN v] TraceOpened levels =
    cfg (mkOptions (2 ^ 32 + v) true UINT_MAX 10 "summary").
Proof.
  intros Hv Hall Hlen Hsum. cbn zeta. unfold checkConfiguration.
  cbn [parseOptions]. rewrite (to_unsigned_negative v Hv).
  change (2 ^ 31) with 2147483648 in Hv.
  destruct (Z.ltb_spec (2 ^ 32 + v) 1) as [Hlt|_];
    [rewrite pow2_32 in Hlt; lia|].
  rewrite (collectLevelBits_valid levels Hall) by (rewrite ?pow2_32; lia).
  cbn [mbind option_bind defaultOptions limitN haveLimitN optMaxFrames
       optBitInterval logMode].
  destruct (Z.ltb_spec 28 (sumZ levels)); [lia|].
  destruct levels; [simpl in Hlen; lia|]. done.
Qed.

Lemma negative_option_values_pass_witness :
  let cfg o := Some (inr (mkConfig o (Z.of_nat (length [4; 8; 8])) [4; 8; 8])) in
  checkConfiguration [OptF (-5)] TraceOpened [4; 8; 8] =
    cfg (mkOptions 0 false (2 ^ 32 + -5) 10 "summary") /\
  checkConfiguration [OptB (-5)] TraceOpened [4; 8; 8] =
    cfg (mkOptions 0 false UINT_MAX (2 ^ 32 + -5) "summary") /\
  checkConfiguration [OptN (-5)] TraceOpened [4; 8; 8] =
    cfg (mkOptions (2 ^ 32 + -5) true UINT_MAX 10 "summary").
Proof.
  apply (negative_option_values_pass (-5) [4; 8; 8]).
  - change (2 ^ 31) with 2147483648. lia.
  - change (2 ^ 31) with 2147483648.
    repeat (constructor; [lia|]). constructor.
  - simpl. lia.
  - simpl. lia.
Defined.

(** The loop that fills [tempBits] has no bound of its own. *)
Lemma collectLevelBits_overflow args : forall tempBits lc s,
  0 <= lc <= 32 -> 32 < lc + Z.of_nat (length args) ->
  Forall (fun b => 1 <= b < 2 ^ 31)
         (take (Z.to_nat (33 - lc)) args) ->
  collectLevelBits args tempBits lc s = None.
Proof.
  induction args as [|a args IH]; intros tempBits lc s Hlc Hlen Hall.
  - simpl in Hlen. lia.
  - simpl length in Hlen.
    replace (Z.to_nat (33 - lc)) with (S (Z.to_nat (32 - lc))) in Hall by lia.
    simpl in Hall. inversion Hall as [|?? Ha Hall']; subst.
    simpl. rewrite to_unsigned_nonneg by lia.
    destruct (Z.ltb_spec a 1); [lia|].
    destruct (Z.leb_spec 32 lc); [done|].
    rewrite (wrap32_small (lc + 1)) by (rewrite pow2_32; lia).
    apply IH; [lia|lia|].
    by replace (33 - (lc + 1)) with (32 - lc) by lia.
Qed.

(** X23 — More than 32 level widths.  If the options parse and the first 33
    widths are at least 1, the loop that collects them writes past the end
    of its 32-element buffer before the sum is looked at: the behaviour is
    undefined. *)
Theorem more_than_32_levels_overrun_the_buffer opts o levels :
  parseOptions opts defaultOptions = inr o ->
  (32 < length levels)%nat ->
  Forall (fun b => 1 <= b < 2 ^ 31) (take 33 levels) ->
  checkConfiguration opts TraceOpened levels = None.
Proof.
  intros Ho Hlen Hall. unfold checkConfiguration. rewrite Ho.
  destruct levels as [|b levels]; [simpl in Hlen; lia|].
  rewrite collectLevelBits_overflow; [done|lia|lia|done].
Qed.

Lemma more_than_32_levels_overrun_the_buffer_witness :
  checkConfiguration [] TraceOpened (replicate 33 1) = None.
Proof.
  apply (more_than_32_levels_overrun_the_buffer [] defaultOptions
           (replicate 33 1)).
  - reflexivity.
  - simpl. lia.
  - change (2 ^ 31) with 2147483648. simpl.
    repeat (constructor; [lia|]). constructor.
Defined.

(** The first width below one stops the loop, whatever was collected. *)
Lemma collectLevelBits_first_zero good rest : forall tempBits lc s,
  0 <= lc -> lc + Z.of_nat (length good) <= 32 ->
  Forall (fun b => 1 <= b < 2 ^ 31) good ->
  collectLevelBits (good ++ 0 :: rest) tempBits lc s =
  Some (inl (LevelTooSmall (lc + Z.of_nat (length good)))).
Proof.
  induction good as [|a good IH]; intros tempBits lc s Hlc Hlen Hall.
  - simpl. by rewrite Z.add_0_r.
  - simpl length in Hlen. inversion Hall as [|?? Ha Hall']; subst.
    simpl. rewrite to_unsigned_nonneg by lia.
    destruct (Z.ltb_spec a 1); [lia|].
    destruct (Z.leb_spec 32 lc); [lia|].
    rewrite (wrap32_small (lc + 1)) by (rewrite pow2_32; lia).
    rewrite IH by (done || lia). do 3 f_equal. lia.
Qed.

(** X24 — Order of the configuration errors.  An option error is reported
    whatever the trace file and the widths are.  If the options parse: a
    missing or unreadable trace file is reported before the widths are
    looked at; no width at all is the error of missing level bits; the first
    width 0 is reported with its zero-based position, whatever the widths
    before it sum to. *)
Theorem configuration_errors_in_order opts good rest :
  Forall (fun b => 1 <= b < 2 ^ 31) good -> (length good <= 32)%nat ->
  let levels := good ++ 0 :: rest in
  match parseOptions opts defaultOptions with
  | inl e => forall trace args,
      checkConfiguration opts trace args = Some (inl e)
  | inr _ =>
      checkConfiguration opts NoTracePath levels
        = Some (inl MissingTraceFile) /\
      checkConfiguration opts TraceUnreadable levels
        = Some (inl UnableToOpen) /\
      checkConfiguration opts TraceOpened [] = Some (inl MissingLevelBits) /\
      checkConfiguration opts TraceOpened levels
        = Some (inl (LevelTooSmall (Z.of_nat (length good))))
  end.
Proof.
  intros Hall Hlen. cbn zeta. unfold checkConfiguration.
  destruct (parseOptions opts defaultOptions) as [e|o]; [done|].
  split; [done|]. split; [done|]. split; [done|].
  rewrite collectLevelBits_first_zero by (done || lia).
  by destruct good.
Qed.

Lemma configuration_errors_in_order_witness :
  checkConfiguration [OptF 2] NoTracePath ([4] ++ 0 :: [8])
    = Some (inl MissingTraceFile) /\
  checkConfiguration [OptF 2] TraceUnreadable ([4] ++ 0 :: [8])
    = Some (inl UnableToOpen) /\
  checkConfiguration [OptF 2] TraceOpened [] = Some (inl MissingLevelBits) /\
  checkConfiguration [OptF 2] TraceOpened ([4] ++ 0 :: [8])
    = Some (inl (LevelTooSmall (Z.of_nat (length [4])))).
Proof.
  apply (configuration_errors_in_order [OptF 2] [4] [8]).
  - change (2 ^ 31) with 2147483648. repeat (constructor; [lia|]). constructor.
  - simpl. lia.
Defined.

(** ** From the command line to the end of the run *)





(** ** What [main] logs *)





